(** * Sella: PES wrapper and IRC stepper

    A shallow embedding of [sella/peswrapper.py] and [sella/irc.py].

    Scalars are IEEE binary64 numbers (Rocq's primitive floats, which are
    the values of Python's [float] and numpy's [float64]); arrays are
    lists of them.  Methods that read and write the attributes of a
    Python object are computations in a state monad whose state survives
    a raised exception, as the attributes of the object do.

    What the two files import from elsewhere (the ASE calculator, the
    constraints and internal-coordinate objects, LAPACK's [eigh], the
    Hessian-update kernels, the iterative eigensolver, the LSODA
    integrator) is taken through the interfaces of the section
    "Collaborators".  Neither file has a [try] around a call, so what a
    collaborator raises goes through the caller.  The interfaces say
    which calls may raise: the calculator, [eigh] (which refuses a matrix
    with a NaN or an infinity), [pinv], the internal-coordinate object,
    and the constructor and the [step] of the integrator.  The
    constraints object and the Hessian-update kernels are taken to
    return.

    Modelled: [BasePES] (all but [calls], [B] and [Binv]; [converged]
    and [kick] as a [CartPES] inherits them), [CartPES] (all but
    [Winv]), the geometry and its setter of [IntPES], [rs_newton_irc],
    and [IRC].

    Conventions.  Arrays have the shapes the source gives them; numpy's
    errors on other shapes are modelled only where a method reshapes,
    assigns positions or fills a slice.  Sums are accumulated from the left; BLAS may
    order them otherwise, and the concrete runs quoted below use vectors
    with a single non-zero coordinate, for which the order does not
    matter.  An entry of an evaluation record that is [None] where an
    array is read is a [TypeError] at the read, and [None] where numpy
    expects an array to multiply is numpy's [ValueError].  Writing
    trajectory frames is left out. *)

From Stdlib Require Import Floats ZArith String Bool List Arith Lia Sorted.
Import ListNotations.

Set Warnings "-inexact-float".
Set Implicit Arguments.

Local Open Scope float_scope.

(** ** numpy: the array operations the two files use *)

Module Np.

Definition vec := list float.
(** A 2-d array, row by row. *)
Definition matrix := list (list float).

Definition map2 (op : float -> float -> float) (u v : vec) : vec :=
  map (fun p => op (fst p) (snd p)) (combine u v).

(** [u + v], [u - v], [u * v], [u / v] on arrays of one shape. *)
Definition vadd := map2 PrimFloat.add.
Definition vsub := map2 PrimFloat.sub.
Definition vmul := map2 PrimFloat.mul.
Definition vdiv := map2 PrimFloat.div.

(** [-u], [np.abs(u)], [c * u], [u / c], [u + c], [u**2]. *)
Definition vneg (u : vec) : vec := map PrimFloat.opp u.
Definition vabs (u : vec) : vec := map PrimFloat.abs u.
Definition vscale (c : float) (u : vec) : vec := map (fun a => c * a) u.
Definition vdivs (u : vec) (c : float) : vec := map (fun a => a / c) u.
Definition vadds (u : vec) (c : float) : vec := map (fun a => a + c) u.
Definition vsquare (u : vec) : vec := map (fun a => a * a) u.

(** [u @ v] for 1-d arrays, accumulated from the left. *)
Definition dot (u v : vec) : float :=
  fold_left (fun acc p => acc + fst p * snd p) (combine u v) 0.

(** [np.linalg.norm(u)]. *)
Definition norm (u : vec) : float := PrimFloat.sqrt (dot u u).

(** [M @ v]. *)
Definition matvec (M : matrix) (v : vec) : vec :=
  map (fun row => dot row v) M.

Definition ncols (M : matrix) : nat :=
  match M with [] => O | row :: _ => length row end.

(** [M[:, j]]. *)
Definition column (M : matrix) (j : nat) : vec :=
  map (fun row => nth j row 0) M.

(** [M.T]. *)
Definition transpose (M : matrix) : matrix :=
  map (column M) (seq 0 (ncols M)).

(** [A @ B]. *)
Definition matmul (A B : matrix) : matrix :=
  map (fun row => map (fun j => dot row (column B j)) (seq 0 (ncols B))) A.

(** [-M], [A - B], [A / B] element by element. *)
Definition mneg (M : matrix) : matrix := map vneg M.
Definition msub (A B : matrix) : matrix :=
  map (fun p => vsub (fst p) (snd p)) (combine A B).
Definition mdiv (A B : matrix) : matrix :=
  map (fun p => vdiv (fst p) (snd p)) (combine A B).

(** [np.outer(u, v)]. *)
Definition outer (u v : vec) : matrix :=
  map (fun a => map (fun b => a * b) v) u.

(** [np.diag(u)] for a 1-d array. *)
Definition diag (u : vec) : matrix :=
  map (fun i => map (fun j => if Nat.eqb i j then nth i u 0 else 0)
                    (seq 0 (length u)))
      (seq 0 (length u)).

(** [M[:, ind]]. *)
Definition take_columns (M : matrix) (ind : list nat) : matrix :=
  map (fun row => map (fun j => nth j row 0) ind) M.

(** [u[ind]]. *)
Definition take (u : vec) (ind : list nat) : vec :=
  map (fun j => nth j u 0) ind.

(** A 1-d array as a one-column matrix, and back. *)
Definition as_column (u : vec) : matrix := map (fun a => [a]) u.

(** [np.all(u == v)]: false on arrays of different lengths. *)
Fixpoint all_eq (u v : vec) : bool :=
  match u, v with
  | [], [] => true
  | a :: u', b :: v' => (a =? b) && all_eq u' v'
  | _, _ => false
  end.

(** [np.nextafter(x, y)]: the float next to [x] in the direction of [y]. *)
Definition nextafter (x y : float) : float :=
  if is_nan x || is_nan y then nan
  else if x =? y then y
  else if x <? y then next_up x
  else next_down x.

(** An array of shape (n, 3): one row of three coordinates per atom. *)
Definition geometry := list (float * float * float).

(** [p.ravel()] on an (n, 3) array. *)
Fixpoint ravel (p : geometry) : vec :=
  match p with
  | [] => []
  | (a, b, c) :: rest => a :: b :: c :: ravel rest
  end.

(** [u.reshape((-1, 3))]: fails on a length that is not a multiple of
    three. *)
Fixpoint reshape3_fuel (n : nat) (u : vec) : option geometry :=
  match n, u with
  | _, [] => Some []
  | S k, a :: b :: c :: rest =>
      option_map (cons (a, b, c)) (reshape3_fuel k rest)
  | _, _ => None
  end.

Definition reshape3 (u : vec) : option geometry :=
  reshape3_fuel (length u) u.

End Np.

Import Np.

(** ** IEEE values: signs and NaN

    Through [Prim2SF], the view of a float that the specification of the
    primitive operations is written on. *)

Module Ieee.

(** Zero of either sign, positive, or NaN. *)
Definition nn (f : spec_float) : Prop :=
  match f with
  | S754_nan | S754_zero _ => True
  | S754_infinity s | S754_finite s _ _ => s = false
  end.

(** Zero of either sign, or NaN. *)
Definition zn (f : spec_float) : Prop :=
  match f with
  | S754_nan | S754_zero _ => True
  | _ => False
  end.

(** [x] is not negative: [x >= 0] or [x] is NaN. *)
Definition NotNeg (x : float) : Prop := nn (Prim2SF x).

Definition IsNaN (x : float) : Prop := Prim2SF x = S754_nan.

End Ieee.

(** ** Exceptions, results, and methods of a mutable object *)

Inductive exn : Type :=
| ValueError (msg : string)
| RuntimeError (msg : string)
| TypeError
| AttributeError
| CalculatorError
| LinAlgError.

Inductive result (A : Type) : Type :=
| Ok (a : A)
| Raise (e : exn).

Arguments Ok {A} a.
Arguments Raise {A} e.

(** A method of an object whose attributes are [S]: it returns or raises,
    and leaves the object as it was at that moment. *)
Definition M (S A : Type) : Type := S -> result A * S.

Definition ret {S A} (a : A) : M S A := fun s => (Ok a, s).

Definition bind {S A B} (m : M S A) (k : A -> M S B) : M S B :=
  fun s => match m s with
           | (Ok a, s') => k a s'
           | (Raise e, s') => (Raise e, s')
           end.

Definition raise {S A} (e : exn) : M S A := fun s => (Raise e, s).
Definition get {S} : M S S := fun s => (Ok s, s).
Definition gets {S A} (f : S -> A) : M S A := fun s => (Ok (f s), s).
Definition modify {S} (f : S -> S) : M S unit := fun s => (Ok tt, f s).

(** Reading an attribute that holds [None] where an array is needed. *)
Definition some_or {S A} (e : exn) (o : option A) : M S A :=
  match o with Some a => ret a | None => raise e end.

(** A call that returns or raises and does not touch the object. *)
Definition lift {S A} (r : result A) : M S A := fun s => (r, s).

Declare Scope py_scope.
Delimit Scope py_scope with py.
Notation "x <- m ;; k" := (bind m (fun x => k))
  (at level 61, m at next level, right associativity) : py_scope.
Notation "m ;;; k" := (bind m (fun _ => k))
  (at level 61, right associativity) : py_scope.

Local Open Scope py_scope.

(** ** Collaborators

    The objects and kernels the two files import.  Each interface lists
    only what the modelled methods call. *)

(** The calculator attached to the ASE [atoms] object: energy and forces
    at a geometry ([get_potential_energy], [get_forces]), or the
    exception it raises. *)
Class Calculator : Type :=
  { calculate : geometry -> result (float * geometry) }.

(** [sella.constraints.Constraints]: residual, its Jacobian, and the two
    bases, each at a geometry. *)
Class ConstraintsAPI : Type :=
  { cons_res : geometry -> vec;
    cons_drdx : geometry -> matrix;
    cons_Ufree : geometry -> matrix;
    cons_Ucons : geometry -> matrix }.

(** Eigenvalues in ascending order: each is [<=] all that follow. *)
Definition ascending (l : vec) : Prop :=
  StronglySorted (fun a b => (a <=? b) = true) l.

(** The LAPACK driver behind [scipy.linalg.eigh]: the eigenvalues, in
    ascending order, and the eigenvectors (as columns), or the
    [LinAlgError] of a computation that did not converge. *)
Class Lapack : Type :=
  { syevr : matrix -> result (vec * matrix);
    syevr_ascending :
      forall (A : matrix) (l : vec) (V : matrix),
        syevr A = Ok (l, V) -> ascending l }.

(** [np.isfinite(A).all()] *)
Definition all_finite (A : matrix) : bool := forallb (forallb is_finite) A.

Definition not_finite : exn :=
  ValueError "array must not contain infs or NaNs".

(** [scipy.linalg.eigh(A)] with its defaults ([check_finite=True]): a
    matrix with a NaN or an infinity is refused before the driver is
    called. *)
Definition eigh {lapack : Lapack} (A : matrix) : result (vec * matrix) :=
  if all_finite A then syevr A else Raise not_finite.

(** [sella.hessian_update]: the secant update and the symmetrizer.  The
    step and the gradient change are passed as matrices (a 1-d array as
    one column). *)
Module hessian_update.
Class Kernels : Type :=
  { update_H : option matrix -> matrix -> matrix -> matrix;
    symmetrize_Y : matrix -> matrix -> matrix }.
End hessian_update.

(** [sella.linalg.NumericalHessian] and [sella.eigensolvers.rayleigh_ritz]
    run on [sella.linalg.ProjectedMatrix].  Both reach the object only by
    calling back the function they are given, so they are polymorphic in
    the state.  [rayleigh_ritz] is given the action of the numerical
    Hessian and the basis [Ufree], and yields [Hproj.Vs] and [Hproj.AVs],
    the vectors the projected operator was applied to and their images. *)
Class Eigensolver : Type :=
  { NumericalHessian :
      forall S : Type, (vec -> M S (float * vec)) -> vec -> vec -> float ->
                       bool -> vec -> M S vec;
    rayleigh_ritz :
      forall S : Type, (vec -> M S vec) -> matrix -> float -> matrix ->
                       option vec -> string -> option nat ->
                       M S (matrix * matrix) }.

(** [numpy.linalg.pinv], or the exception it raises. *)
Class Pinv : Type :=
  { pinv : matrix -> result matrix }.

(** [x ** y] on two Python floats, which is the [pow] of the C
    library. *)
Class Libm : Type :=
  { pow : float -> float -> float }.

(** [np.maximum(a, b)] on scalars: [a] when [a >= b] or [a] is NaN, else
    [b]; and [u.max()], which has no value on an empty array. *)
Definition np_maximum (a b : float) : float :=
  if (b <=? a) || is_nan a then a else b.

Definition np_max (u : vec) : result float :=
  match u with
  | [] => Raise (ValueError "zero-size array to reduction operation maximum which has no identity")
  | a :: rest => Ok (fold_left np_maximum rest a)
  end.

(** A method that returns, or ends with one of two exceptions that the
    methods modelled so far cannot raise. *)
Inductive or_raised (A : Type) : Type :=
| Returned (a : A)
| UnboundLocalError
| IndexError.

Arguments Returned {A} a.
Arguments UnboundLocalError {A}.
Arguments IndexError {A}.

(** ** The state of a PES object *)

(** An evaluation record: the dict with keys [x], [f], [g], to which
    [CartPES] adds [gfree] and [h]. *)
Record record : Type := mkRecord
  { r_x : option vec;
    r_f : option float;
    r_g : option vec;
    r_gfree : option vec;
    r_h : option vec }.

Definition empty_record : record := mkRecord None None None None None.

Record PES : Type := mkPES
  { positions : geometry;        (* self.atoms.positions *)
    last : record;
    lastlast : record;
    neval : nat;
    _H : option matrix;
    Hred : option matrix;
    lams : option vec;
    vecs : option matrix;
    eigensolver : string;
    eta : float }.

Definition with_positions (p : geometry) (s : PES) : PES :=
  mkPES p (last s) (lastlast s) (neval s) (_H s) (Hred s) (lams s) (vecs s)
        (eigensolver s) (eta s).

Definition with_last (r : record) (s : PES) : PES :=
  mkPES (positions s) r (lastlast s) (neval s) (_H s) (Hred s) (lams s)
        (vecs s) (eigensolver s) (eta s).

Definition with_lastlast (r : record) (s : PES) : PES :=
  mkPES (positions s) (last s) r (neval s) (_H s) (Hred s) (lams s) (vecs s)
        (eigensolver s) (eta s).

Definition with_neval (n : nat) (s : PES) : PES :=
  mkPES (positions s) (last s) (lastlast s) n (_H s) (Hred s) (lams s)
        (vecs s) (eigensolver s) (eta s).

Definition with_hessian (H Hr : option matrix) (l : option vec)
    (v : option matrix) (s : PES) : PES :=
  mkPES (positions s) (last s) (lastlast s) (neval s) H Hr l v
        (eigensolver s) (eta s).

(** [self.atoms.positions = p]: written into the existing array, so [p]
    must have its shape or be a single row, which is then repeated. *)
Definition assign_positions (p : geometry) : M PES unit :=
  fun s =>
    if Nat.eqb (length p) (length (positions s)) then
      (Ok tt, with_positions p s)
    else match p with
         | [row] =>
             (Ok tt, with_positions (map (fun _ => row) (positions s)) s)
         | _ => (Raise (ValueError "could not broadcast"), s)
         end.

(** What a subclass supplies to the methods of [BasePES]. *)
Class Variant : Type :=
  { v_update : M PES unit;
    v_x : M PES vec;
    v_set_x : vec -> M PES unit;
    v_g : M PES vec;
    v_xfree : M PES vec;
    v_gfree : M PES vec;
    v_Ufree : PES -> matrix;
    v_drdx : PES -> matrix;
    v_Ucons : PES -> matrix }.

Definition eye (n : nat) : matrix :=
  map (fun i => map (fun j => if Nat.eqb i j then 1 else 0) (seq 0 n))
      (seq 0 n).

(** ** [class BasePES] *)

Module BasePES.
Section Methods.

Context {calc : Calculator} {lapack : Lapack}
        {kernels : hessian_update.Kernels} {solver : Eigensolver}
        {variant : Variant}.

(** [self.H = target]: [_H] and [Hred] are assigned before [eigh] is
    called, [lams] and [vecs] when it has returned. *)
Definition set_H (target : option matrix) : M PES unit :=
  match target with
  | None => modify (with_hessian None None None None)
  | Some H =>
      modify (fun s => with_hessian (Some H) (Hred s) (lams s) (vecs s) s) ;;;
      s <- get ;;
      let Hr := matmul (matmul (transpose (v_Ufree s)) H) (v_Ufree s) in
      modify (fun s => with_hessian (_H s) (Some Hr) (lams s) (vecs s) s) ;;;
      lv <- lift (eigh Hr) ;;
      modify (fun s =>
                with_hessian (_H s) (Hred s) (Some (fst lv)) (Some (snd lv)) s)
  end.

(** [self._update()].  Writing the trajectory frame is left out. *)
Definition _update : M PES bool :=
  s <- get ;;
  let x := ravel (positions s) in
  if match r_x (last s) with
     | Some lx => all_eq x lx
     | None => false
     end
  then ret false
  else
    match calculate (positions s) with
    | Raise e => raise e
    | Ok (energy, forces) =>
        let g := vneg (ravel forces) in
        modify (fun s =>
          with_neval (S (neval s))
            (with_last (mkRecord (Some x) (Some energy) (Some g) None None)
               (with_lastlast (last s) s))) ;;;
        ret true
    end.

(** [self.f]; the [_update] it calls is the subclass's. *)
Definition f : M PES float :=
  v_update ;;;
  s <- get ;;
  some_or TypeError (r_f (last s)).

(** [self._calc_eg(x)] *)
Definition _calc_eg (x : vec) : M PES (float * vec) :=
  pos0 <- gets positions ;;
  v_set_x x ;;;
  g <- v_g ;;
  e <- f ;;
  assign_positions pos0 ;;;
  ret (e, g).

(** [self.dx(pos0)] *)
Definition dx (pos0 : geometry) : M PES vec :=
  x1 <- v_x ;;
  pos1 <- gets positions ;;
  assign_positions pos0 ;;;
  x0 <- v_x ;;
  assign_positions pos1 ;;;
  ret (vsub x1 x0).

(** [self.diag(gamma, threepoint, maxiter)] *)
Definition diag (gamma : float) (threepoint : bool) (maxiter : option nat)
  : M PES unit :=
  lastlast0 <- gets lastlast ;;
  last0 <- gets last ;;
  x0 <- v_x ;;
  P0 <- gets Hred ;;
  Pv <- match P0 with
        | Some P => ret (P, None)
        | None =>
            xf <- v_xfree ;;
            gf <- v_gfree ;;
            ret (eye (length xf), Some gf)
        end ;;
  g0 <- v_g ;;
  s <- get ;;
  let Htrue := NumericalHessian _calc_eg x0 g0 (eta s) threepoint in
  VA <- rayleigh_ritz Htrue (v_Ufree s) gamma (fst Pv) (snd Pv)
                      (eigensolver s) maxiter ;;
  v_set_x x0 ;;;
  let Atilde :=
    matmul (transpose (fst VA))
           (hessian_update.symmetrize_Y (fst VA) (snd VA)) in
  thetaX <- lift (eigh Atilde) ;;
  let X := snd thetaX in
  let Vs := matmul (fst VA) X in
  let AVs := matmul (snd VA) X in
  s <- get ;;
  let AVstilde :=
    msub AVs (matmul (matmul (v_drdx s) (transpose (v_Ucons s))) AVs) in
  set_H (Some (hessian_update.update_H (_H s) Vs AVstilde)) ;;;
  modify (with_lastlast lastlast0) ;;;
  modify (with_last last0).

End Methods.
End BasePES.

(** ** [class CartPES(BasePES)] *)

Module CartPES.
Section Methods.

Context {calc : Calculator} {lapack : Lapack}
        {kernels : hessian_update.Kernels} {cons : ConstraintsAPI}.

(** [CartPES(atoms, eigensolver, eta=eta)], the attributes of [BasePES]
    included: empty records, no evaluation counted, and [H = None]
    assigned through the setter.  The trajectory and [v0] are left out. *)
Definition __init__ (atoms : geometry) (eigensolver : string) (eta : float)
  : PES :=
  mkPES atoms empty_record empty_record 0 None None None None eigensolver eta.

(** The properties [drdx], [Ufree], [Ucons]. *)
Definition drdx (s : PES) : matrix := cons_drdx (positions s).
Definition Ufree (s : PES) : matrix := cons_Ufree (positions s).
Definition Ucons (s : PES) : matrix := cons_Ucons (positions s).

(** [self.x] *)
Definition x : M PES vec := gets (fun s => ravel (positions s)).

(** [self.x = target] *)
Definition set_x (target : vec) : M PES unit :=
  match reshape3 target with
  | Some p => assign_positions p
  | None => raise (ValueError "cannot reshape array")
  end.

(** [self._update()] *)
Definition _update : M PES bool :=
  changed <- BasePES._update ;;
  if negb changed then ret false
  else
    s <- get ;;
    g <- some_or TypeError (r_g (last s)) ;;
    let gfree := matvec (transpose (Ufree s)) g in
    let h := vsub g (matvec (matmul (drdx s) (transpose (Ucons s))) g) in
    modify (with_last (mkRecord (r_x (last s)) (r_f (last s)) (r_g (last s))
                                (Some gfree) (Some h))) ;;;
    ret true.

(** [self.g] *)
Definition g : M PES vec :=
  _update ;;;
  s <- get ;;
  some_or TypeError (r_g (last s)).

(** [self.xfree] *)
Definition xfree : M PES vec :=
  s <- get ;;
  ret (matvec (transpose (Ufree s)) (ravel (positions s))).

(** [self.gfree] *)
Definition gfree : M PES vec :=
  _update ;;;
  s <- get ;;
  some_or TypeError (r_gfree (last s)).

(** [self.h] *)
Definition h : M PES vec :=
  _update ;;;
  s <- get ;;
  some_or TypeError (r_h (last s)).

#[local] Instance variant : Variant :=
  {| v_update := _update ;;; ret tt;
     v_x := x; v_set_x := set_x; v_g := g; v_xfree := xfree;
     v_gfree := gfree; v_Ufree := Ufree; v_drdx := drdx;
     v_Ucons := Ucons |}.

(** Inherited: [self.f], [self.H = target], [self.diag(...)]. *)
Definition f : M PES float := BasePES.f.
Definition set_H : option matrix -> M PES unit := BasePES.set_H.
Definition diag {solver : Eigensolver}
  : float -> bool -> option nat -> M PES unit := BasePES.diag.

(** [self.update_H()] *)
Definition update_H : M PES unit :=
  s <- get ;;
  match r_x (lastlast s) with
  | None => ret tt
  | Some llx =>
      x1 <- x ;;
      let dx := vsub x1 llx in
      g1 <- g ;;
      s' <- get ;;
      llg <- some_or TypeError (r_g (lastlast s')) ;;
      let dg := vsub g1 llg in
      set_H (Some (hessian_update.update_H (_H s') (as_column dx)
                                           (as_column dg)))
  end.

(** The property [res]. *)
Definition res (s : PES) : vec := cons_res (positions s).

(** [self.forces] *)
Definition forces : M PES geometry :=
  _update ;;;
  s <- get ;;
  let P := matmul (Ufree s) (transpose (Ufree s)) in
  g1 <- g ;;
  match reshape3 (matvec P g1) with
  | Some F => ret (map (fun a => (- fst (fst a), - snd (fst a), - snd a)) F)
  | None => raise (ValueError "cannot reshape array")
  end.

(** [(forces**2).sum(1)]: the squared norm of each row. *)
Definition row_norms2 (F : geometry) : vec :=
  map (fun a => fst (fst a) * fst (fst a) + snd (fst a) * snd (fst a)
                + snd a * snd a) F.

(** Inherited: [self.converged(fmax, maxres)] *)
Definition converged {libm : Libm} (fmax maxres : float) : M PES bool :=
  F <- forces ;;
  match np_max (row_norms2 F) with
  | Raise e => raise e
  | Ok m =>
      if m <? pow fmax 2 then
        s <- get ;;
        ret (norm (res s) <? maxres)
      else ret false
  end.

(** [self.xfree = target] *)
Definition set_xfree {linalg : Pinv} (target : vec) : M PES unit :=
  s <- get ;;
  match pinv (transpose (drdx s)) with
  | Raise e => raise e
  | Ok Pi =>
      let dx_cons := matvec (mneg Pi) (res s) in
      xf <- xfree ;;
      let dx_free := matvec (Ufree s) (vsub target xf) in
      x0 <- x ;;
      set_x (vadd (vadd x0 dx_free) dx_cons)
  end.

(** Inherited: [self.dx(pos0)] *)
Definition dx : geometry -> M PES vec := BasePES.dx.

(** Inherited: [self.kick(dxfree, diag, **diag_kwargs)].  [diag_kwargs]
    is [None] for [diag=False], and else holds the arguments [diag] is
    called with.  The local [df_pred] is bound only where [H] was not
    [None] at the first test. *)
Definition kick {linalg : Pinv} {solver : Eigensolver} (dxfree : vec)
    (diag_kwargs : option (float * bool * option nat))
  : M PES (or_raised (float * vec * option float)) :=
  pos0 <- gets positions ;;
  f0 <- f ;;
  g0 <- g ;;
  xf <- xfree ;;
  set_xfree (vadd xf dxfree) ;;;
  d <- dx pos0 ;;
  s1 <- get ;;
  let df_pred :=
    option_map (fun H => dot g0 d + dot (matvec (transpose H) d) d / 2)
               (_H s1) in
  f1 <- f ;;
  let df_actual := f1 - f0 in
  s2 <- get ;;
  match _H s2, df_pred with
  | Some _, None => ret UnboundLocalError
  | H2, _ =>
      let ratio :=
        match H2, df_pred with
        | Some _, Some p => Some (p / df_actual)
        | _, _ => None
        end in
      update_H ;;;
      match diag_kwargs with
      | Some (gamma, threepoint, maxiter) => diag gamma threepoint maxiter
      | None => ret tt
      end ;;;
      f2 <- f ;;
      gf <- gfree ;;
      ret (Returned (f2, gf, ratio))
  end.

End Methods.
End CartPES.

(** ** What a method keeps, and what the records hold *)

(** [m] keeps [P]: from an object with [P], the object has [P] when [m]
    returns and when it raises. *)
Definition keeps {S A} (P : S -> Prop) (m : M S A) : Prop :=
  forall (s s' : S) (r : result A), P s -> m s = (r, s') -> P s'.

(** The test of [_update], negated: there is no record, or the geometry
    differs from the recorded one under [==]. *)
Definition stale (s : PES) : bool :=
  match r_x (last s) with
  | Some lx => negb (all_eq (ravel (positions s)) lx)
  | None => true
  end.

(** A record with an [x] holds all of [f], [g], [gfree] and [h]. *)
Definition complete (r : record) : bool :=
  match r_x r with
  | None => true
  | Some _ =>
      match r_f r, r_g r, r_gfree r, r_h r with
      | Some _, Some _, Some _, Some _ => true
      | _, _, _, _ => false
      end
  end.

Definition records_complete (s : PES) : Prop :=
  complete (last s) = true /\ complete (lastlast s) = true.

(** What no evaluation touches: the Hessian with its eigenpairs, and the
    settings of the eigensolver. *)
Definition outside_records (s : PES)
  : option matrix * option matrix * option vec * option matrix
    * string * float :=
  (_H s, Hred s, lams s, vecs s, eigensolver s, eta s).

(** [k] reads of [g], one after the other. *)
Fixpoint reads {calc : Calculator} {cons : ConstraintsAPI} (k : nat)
  : M PES unit :=
  match k with
  | O => ret tt
  | S k' => CartPES.g ;;; reads k'
  end.

(** Everything but the geometry. *)
Definition apart_from_positions (s : PES) :=
  (last s, lastlast s, neval s, outside_records s).

(** The eigensolver reaches the object only by calling the function it
    is given: whatever every call of that function keeps, the numerical
    Hessian and the subspace iteration keep. *)
Definition through_callback (solver : Eigensolver) : Prop :=
  forall P : PES -> Prop,
    (forall func : vec -> M PES (float * vec),
        (forall x, keeps P (func x)) ->
        forall x0 g0 eta threepoint v,
          keeps P (NumericalHessian func x0 g0 eta threepoint v))
    /\ (forall Htrue : vec -> M PES vec,
           (forall v, keeps P (Htrue v)) ->
           forall U gamma Pm v0 method maxiter,
             keeps P (rayleigh_ritz Htrue U gamma Pm v0 method maxiter)).

(** ** [class IntPES(BasePES)]: the geometry and its retraction *)

(** [sella.internal.Internal]: the coordinate map [q], the wrap of
    periodic differences, the pseudo-inverse Jacobian [Binv], and the
    curvature tensor [D], given by its [ddot] on a pair of vectors.  The
    three that are computed at a geometry return or raise. *)
Class InternalAPI : Type :=
  { int_q : geometry -> result vec;
    int_q_wrap : vec -> vec;
    int_Binv : geometry -> result matrix;
    int_D : geometry -> result (vec -> vec -> vec) }.

(** [scipy.integrate.LSODA]: what the setter reads of the solver object,
    whether the constructor accepts an initial state, and the [step]
    method, which calls back the right-hand side. *)
Inductive ode_status : Type := running | finished | failed.

Record ode : Type := mkOde
  { status : ode_status;
    nfev : nat;
    ode_t : float;
    ode_y : vec }.

Class Integrator : Type :=
  { lsoda_accepts : vec -> bool;
    lsoda_step :
      forall S : Type, (float -> vec -> M S vec) -> ode -> M S ode }.

(** The integrator reaches the object only by calling the right-hand
    side it is given. *)
Definition through_rhs (integrator : Integrator) : Prop :=
  forall (P : PES -> Prop) (rhs : float -> vec -> M PES vec),
    (forall t y, keeps P (rhs t y)) ->
    forall o, keeps P (lsoda_step rhs o).

Module IntPES.
Section Methods.

Context {internal : InternalAPI} {integrator : Integrator}.

(** [self.x] *)
Definition x : M PES vec :=
  s <- get ;;
  lift (int_q (positions s)).

(** [self._q_ode(t, y)].  [dydt[:nx] = dxdt] needs [dxdt] to have [nx]
    entries, or one. *)
Definition _q_ode (t : float) (y : vec) : M PES vec :=
  let nx := Nat.div (length y) 2 in
  let xs := firstn nx y in
  let dxdt := skipn nx y in
  if negb (Nat.eqb (length dxdt) nx || Nat.eqb (length dxdt) 1)
  then raise (ValueError "could not broadcast input array")
  else
    match reshape3 xs with
    | None => raise (ValueError "cannot reshape array")
    | Some p =>
        assign_positions p ;;;
        s <- get ;;
        D <- lift (int_D (positions s)) ;;
        Binv <- lift (int_Binv (positions s)) ;;
        ret (firstn nx dxdt ++ matvec (mneg Binv) (D dxdt dxdt))
    end.

Definition too_long : exn :=
  RuntimeError "Geometry update ODE is taking too long to converge!".

Definition did_not_converge : exn :=
  RuntimeError "Geometry update ODE failed to converge!".

(** The [while ode.status == 'running'] loop.  [None]: still running
    after [fuel] steps. *)
Fixpoint integrate (fuel : nat) (o : ode) : M PES (option ode) :=
  match status o with
  | running =>
      match fuel with
      | O => ret None
      | S k =>
          o' <- lsoda_step _q_ode o ;;
          if Nat.ltb 200 (nfev o') then raise too_long
          else integrate k o'
      end
  | _ => ret (Some o)
  end.

Definition not_accepted : exn :=
  ValueError "All components of the initial state y0 must be finite.".

(** [LSODA(self._q_ode, 0., y0, t_bound=1., atol=1e-9)]: the constructor
    refuses the initial state, or the fresh solver object is running at
    [t = 0] in [y0] and has evaluated nothing. *)
Definition LSODA (y0 : vec) : result ode :=
  if lsoda_accepts y0 then Ok (mkOde running 0 0 y0) else Raise not_accepted.

(** [self.x = target] *)
Definition set_x (fuel : nat) (target : vec) : M PES (option unit) :=
  s <- get ;;
  let pos0 := ravel (positions s) in
  q <- x ;;
  let dq := int_q_wrap (vsub target q) in
  let nx := length pos0 in
  Binv <- lift (int_Binv (positions s)) ;;
  o0 <- lift (LSODA (pos0 ++ matvec Binv dq)) ;;
  r <- integrate fuel o0 ;;
  match r with
  | None => ret None
  | Some o =>
      match status o with
      | failed => raise did_not_converge
      | _ =>
          match reshape3 (firstn nx (ode_y o)) with
          | Some p => assign_positions p ;;; ret (Some tt)
          | None => raise (ValueError "cannot reshape array")
          end
      end
  end.

(** The solver object after [k] calls of [ode.step()]. *)
Fixpoint after_steps (k : nat) (o : ode) : M PES ode :=
  match k with
  | O => ret o
  | S k' => o' <- lsoda_step _q_ode o ;; after_steps k' o'
  end.

End Methods.
End IntPES.

(** ** [sella/irc.py] *)

Module irc.

(** The scalar root-find of [rs_newton_irc], on the retained eigenpairs. *)
Section RootFind.

Variables (L : vec) (vecs : matrix) (Vg Vd1 d1mw : vec) (dx : float).

(** [epsmw = -vecs @ ((Vg + xi * Vd1) / (L + xi))] *)
Definition shifted_epsmw (xi : float) : vec :=
  matvec (mneg vecs) (vdiv (vadd Vg (vscale xi Vd1)) (vadds L xi)).

(** [d2mw = d1mw + epsmw] and [d2mw_mag = np.linalg.norm(d2mw)] *)
Definition d2mw (xi : float) : vec := vadd d1mw (shifted_epsmw xi).
Definition d2mw_mag (xi : float) : float := norm (d2mw xi).

(** [abs(d2mw_mag - dx) < 1e-14 * dx] *)
Definition converged (xi : float) : bool :=
  abs (d2mw_mag xi - dx) <? 1e-14 * dx.

(** [depsmw], [dd2mw_mag] and [dxi], the Newton proposal at [xi]. *)
Definition dxi (xi : float) : float :=
  let depsmw :=
    matvec (mneg vecs)
           (vsub (vdiv Vd1 (vadds L xi))
                 (vdiv (vadd Vg (vscale xi Vd1))
                       (vsquare (vadds L xi)))) in
  let dd2mw_mag := dot (d2mw xi) depsmw / d2mw_mag xi in
  (dx - d2mw_mag xi) / dd2mw_mag.

(** The bracket after [if dxi < 0: xiupper = xi elif dxi > 0: xilower = xi]. *)
Definition bracket (xi xilower : float) (xiupper : option float)
  : float * option float :=
  if dxi xi <? 0 then (xilower, Some xi)
  else if 0 <? dxi xi then (xi, xiupper)
  else (xilower, xiupper).

(** [xiupper is not None and np.nextafter(xilower, xiupper) >= xiupper] *)
Definition collapsed (xilower : float) (xiupper : option float) : bool :=
  match xiupper with
  | Some up => up <=? nextafter xilower up
  | None => false
  end.

(** The next [xi]: the Newton proposal [xi1] when it falls inside the
    bracket, else a doubling or a bisection. *)
Definition next_xi (xi xilower : float) (xiupper : option float) : float :=
  let xi1 := xi + dxi xi in
  if (xi1 <=? xilower)
     || match xiupper with Some up => up <=? xi1 | None => false end
  then
    match xiupper with
    | None => xi + (xi - xilower)
    | Some up => (up + xilower) / 2
    end
  else xi1.

Inductive outcome : Type :=
| Break (epsmw : vec) (xi : float)
| Continue (xi xilower : float) (xiupper : option float).

(** One pass through the body of the [for] loop. *)
Definition iteration (xi xilower : float) (xiupper : option float)
  : outcome :=
  if converged xi then Break (shifted_epsmw xi) xi
  else
    let b := bracket xi xilower xiupper in
    if collapsed (fst b) (snd b) then Break (shifted_epsmw xi) xi
    else Continue (next_xi xi (fst b) (snd b)) (fst b) (snd b).

(** Whether a pass leaves the loop: the criterion holds at the current
    [xi], or the updated bracket has collapsed. *)
Definition leaves (xi xilower : float) (xiupper : option float) : bool :=
  converged xi
  || collapsed (fst (bracket xi xilower xiupper))
               (snd (bracket xi xilower xiupper)).

(** [for _ in range(n)]; [None] is the [else] branch of the loop. *)
Fixpoint loop (n : nat) (xi xilower : float) (xiupper : option float)
  : option (vec * float) :=
  match n with
  | O => None
  | S k =>
      match iteration xi xilower xiupper with
      | Break epsmw xi' => Some (epsmw, xi')
      | Continue xi' lo' up' => loop k xi' lo' up'
      end
  end.

(** The values of [xi], [xilower], [xiupper] at the start of pass [k],
    when no earlier pass left the loop. *)
Fixpoint state_at (k : nat) (xi xilower : float) (xiupper : option float)
  : option (float * float * option float) :=
  match k with
  | O => Some (xi, xilower, xiupper)
  | S k' =>
      match iteration xi xilower xiupper with
      | Break _ _ => None
      | Continue xi' lo' up' => state_at k' xi' lo' up'
      end
  end.

End RootFind.

(** What the search keeps true of [xi] and its bracket when it is started
    at a [xi] that is not negative: none of them is negative, [xi] is not
    below [xilower] while there is no [xiupper], and [xilower] is NaN only
    if [xi] is. *)
Definition bracket_ok (xi xilower : float) (xiupper : option float) : Prop :=
  Ieee.NotNeg xi /\ Ieee.NotNeg xilower
  /\ match xiupper with
     | Some up => Ieee.NotNeg up
     | None => (xi <? xilower) = false
     end
  /\ (Ieee.IsNaN xilower -> Ieee.IsNaN xi).

Section Newton.

Context {lapack : Lapack} {cons : ConstraintsAPI}.

(** [Hmw = (vecscart @ np.diag(Lcart) @ vecscart.T) / np.outer(sqrtm, sqrtm)]
    with [vecscart = Ufree @ vecs] *)
Definition Hmw (Lcart : vec) (v : matrix) (Ufree : matrix) (sqrtm : vec)
  : matrix :=
  let vecscart := matmul Ufree v in
  mdiv (matmul (matmul vecscart (diag Lcart)) (transpose vecscart))
       (outer sqrtm sqrtm).

(** Of the eigenpairs [eigh] returned, those whose eigenvalue exceeds
    1e-8 in magnitude, the eigenvalues replaced by their magnitudes. *)
Definition retain (Lv : vec * matrix) : vec * matrix :=
  let ind :=
    filter (fun i => 1e-8 <? abs (nth i (fst Lv) 0))
           (seq 0 (length (fst Lv))) in
  (vabs (take (fst Lv) ind), take_columns (snd Lv) ind).

(** The mass-weighted eigenpairs kept by [rs_newton_irc], when [eigh]
    returns. *)
Definition retained (Lcart : vec) (v : matrix) (Ufree : matrix)
    (sqrtm : vec) : result (vec * matrix) :=
  match eigh (Hmw Lcart v Ufree sqrtm) with
  | Ok Lv => Ok (retain Lv)
  | Raise e => Raise e
  end.

(** The unshifted candidate [epsmw = -vecs @ (Vg / L)]. *)
Definition unshifted_epsmw (L : vec) (vecs : matrix) (Vg : vec) : vec :=
  matvec (mneg vecs) (vdiv Vg L).

(** The norm of the unshifted candidate [d1mw + epsmw], where the
    object has eigenpairs and [eigh] returns. *)
Definition unshifted_d2mw_mag (pes : PES) (sqrtm g d1 : vec) : option float :=
  match lams pes, vecs pes with
  | Some Lcart, Some v =>
      match retained Lcart v (CartPES.Ufree pes) sqrtm with
      | Ok Lvecs =>
          let Vg := matvec (transpose (snd Lvecs)) (vdiv g sqrtm) in
          Some (norm (vadd (vmul d1 sqrtm)
                           (unshifted_epsmw (fst Lvecs) (snd Lvecs) Vg)))
      | Raise _ => None
      end
  | _, _ => None
  end.

(** What numpy raises on [pes.Ufree @ None] and on [np.diag(None)]. *)
Definition no_eigenvectors : exn :=
  ValueError "matmul: Input operand 1 does not have enough dimensions".

Definition no_eigenvalues : exn :=
  ValueError "Input must be 1- or 2-d.".

(** [rs_newton_irc(pes, sqrtm, g, d1, dx, xi)].  [g] is [None] when the
    caller passes the gradient of an empty record. *)
Definition rs_newton_irc (pes : PES) (sqrtm : vec) (g : option vec)
    (d1 : vec) (dx xi : float) : result (vec * float * bool) :=
  match vecs pes with
  | None => Raise no_eigenvectors
  | Some v =>
      match lams pes with
      | None => Raise no_eigenvalues
      | Some Lcart =>
          match retained Lcart v (CartPES.Ufree pes) sqrtm with
          | Raise e => Raise e
          | Ok Lvecs =>
              let L := fst Lvecs in
              let vecs := snd Lvecs in
              match g with
              | None => Raise TypeError
              | Some g =>
                  let gmw := vdiv g sqrtm in
                  let d1mw := vmul d1 sqrtm in
                  let Vg := matvec (transpose vecs) gmw in
                  let Vd1 := matvec (transpose vecs) d1mw in
                  let epsmw := unshifted_epsmw L vecs Vg in
                  if norm (vadd d1mw epsmw) <? dx
                  then Ok (vdiv epsmw sqrtm, xi, false)
                  else
                    match loop L vecs Vg Vd1 d1mw dx 100 xi 0 None with
                    | Some (epsmw, xi') => Ok (vdiv epsmw sqrtm, xi', true)
                    | None => Raise (RuntimeError "IRC Newton step failed!")
                    end
              end
          end
      end
  end.

End Newton.

(** *** [class IRC(Optimizer)] *)

(** Which branch of [if self.first] an inner iteration of [step] took.
    The list of them is returned by the model of [step] for the
    statements below; nothing in the run depends on it. *)
Inductive branch : Type := Trivial | Newton.

Record IRC : Type := mkIRC
  { pes : PES;
    sqrtm : vec;
    irctol : float;
    dx : float;
    peskwargs : option float;    (* dict(gamma=gamma), or no such attribute *)
    x0 : vec;
    v0ts : option vec;
    H0 : option matrix;
    peslast : option record;
    d1 : option vec;             (* no such attribute before irun *)
    xi : float;
    first : bool }.

Definition with_pes (p : PES) (s : IRC) : IRC :=
  mkIRC p (sqrtm s) (irctol s) (dx s) (peskwargs s) (x0 s) (v0ts s) (H0 s)
        (peslast s) (d1 s) (xi s) (first s).

Definition with_anchor (v : vec) (H : matrix) (r : record) (s : IRC) : IRC :=
  mkIRC (pes s) (sqrtm s) (irctol s) (dx s) (peskwargs s) (x0 s) (Some v)
        (Some H) (Some r) (d1 s) (xi s) (first s).

Definition with_d1 (d : vec) (s : IRC) : IRC :=
  mkIRC (pes s) (sqrtm s) (irctol s) (dx s) (peskwargs s) (x0 s) (v0ts s) (H0 s)
        (peslast s) (Some d) (xi s) (first s).

Definition with_xi (x : float) (s : IRC) : IRC :=
  mkIRC (pes s) (sqrtm s) (irctol s) (dx s) (peskwargs s) (x0 s) (v0ts s) (H0 s)
        (peslast s) (d1 s) x (first s).

Definition with_first (b : bool) (s : IRC) : IRC :=
  mkIRC (pes s) (sqrtm s) (irctol s) (dx s) (peskwargs s) (x0 s) (v0ts s) (H0 s)
        (peslast s) (d1 s) (xi s) b.

(** What [irun] saves for the run in the other direction, and the
    settings of the constructor. *)
Definition anchors (s : IRC) :=
  (x0 s, v0ts s, H0 s, peslast s, sqrtm s, irctol s, dx s, peskwargs s).

(** What the constructor may be given: an ASE [Atoms] object (here its
    positions), a [CartPES] object, or an [IntPES] object. *)
Inductive system : Type :=
| an_Atoms (p : geometry)
| a_CartPES (p : PES)
| an_IntPES.

Definition wrong_coordinates : exn :=
  ValueError "IRC must use Cartesian coordinates. Please provide either an ASE Atoms object or a Sella CartPES object instead of an IntPES object.".

(** [np.sqrt(masses[:, np.newaxis] * np.ones_like(positions)).ravel()]:
    the square root of each atom's mass, once per coordinate. *)
Definition sqrtm_of (masses : vec) : vec :=
  flat_map (fun m => [PrimFloat.sqrt (m * 1); PrimFloat.sqrt (m * 1);
                      PrimFloat.sqrt (m * 1)])
           masses.

(** [IRC(atoms, irctol=, dx=, eta=, gamma=, peskwargs=, **kwargs)].
    [masses] is what [atoms.get_masses()] returns once the constructor
    has supplied missing masses, and [eigensolver] is what [kwargs]
    passes on to [CartPES].  The attribute [peskwargs] is set only when
    the argument is [None]; a dict that is passed is dropped.  What
    [Optimizer.__init__] sets up (log file, trajectory, restart) is left
    out. *)
Definition __init__ (atoms : system) (masses : vec)
    (irctol0 dx0 eta0 gamma0 : float)
    (peskwargs0 : option (list (string * float))) (eigensolver0 : string)
  : result IRC :=
  let kw := match peskwargs0 with
            | None => Some gamma0
            | Some _ => None
            end in
  match atoms with
  | an_IntPES => Raise wrong_coordinates
  | a_CartPES p =>
      Ok (mkIRC p (sqrtm_of masses) irctol0 dx0 kw (ravel (positions p))
                None None None None 1 true)
  | an_Atoms a =>
      let p := CartPES.__init__ a eigensolver0 eta0 in
      Ok (mkIRC p (sqrtm_of masses) irctol0 dx0 kw (ravel (positions p))
                None None None None 1 true)
  end.

(** A method of [self.pes] called from a method of the [IRC] object. *)
Definition on_pes {A} (m : M PES A) : M IRC A :=
  fun s => match m (pes s) with (r, p) => (r, with_pes p s) end.

(** ASE's [Optimizer.irun] driven to its end, as [run] does: it calls
    back [self.step] until its convergence test or step limit. *)
Class AseOptimizer : Type :=
  { Optimizer_drive : M IRC unit -> float -> option nat -> M IRC bool }.

Section Driver.

Context {calc : Calculator} {lapack : Lapack}
        {kernels : hessian_update.Kernels} {cons : ConstraintsAPI}
        {solver : Eigensolver}.

(** The error of [irun]; the message is the source's without its
    quotation marks. *)
Definition bad_direction : exn :=
  ValueError "direction must be one of forward or reverse!".

(** [self.irun(fmax, steps, direction)], up to the generator it hands
    back, which runs nothing until it is iterated. *)
Definition irun (fmax : float) (steps : option nat) (direction : string)
  : M IRC unit :=
  if negb (String.eqb direction "forward" || String.eqb direction "reverse")
  then raise bad_direction
  else
    s <- get ;;
    match v0ts s with
    | None =>
        gamma <- some_or AttributeError (peskwargs s) ;;
        on_pes (CartPES.diag gamma false None) ;;;
        s <- get ;;
        H <- some_or TypeError (_H (pes s)) ;;
        let Hw := mdiv H (outer (sqrtm s) (sqrtm s)) in
        Lv <- lift (eigh Hw) ;;
        modify (with_anchor
                  (vdiv (vscale (dx s) (column (snd Lv) 0)) (sqrtm s))
                  H (last (pes s)))
    | Some _ =>
        on_pes (CartPES.set_x (x0 s)) ;;;
        H <- some_or AttributeError (H0 s) ;;
        on_pes (CartPES.set_H (Some H)) ;;;
        r <- some_or AttributeError (peslast s) ;;
        on_pes (modify (with_last r))
    end ;;;
    s <- get ;;
    v <- some_or AttributeError (v0ts s) ;;
    modify (with_d1 (if String.eqb direction "forward" then v else vneg v)) ;;;
    modify (with_first true).

(** The [if self.first: ... else: ...] of an inner iteration. *)
Definition move (g1 : option vec) : M IRC (branch * bool) :=
  s <- get ;;
  d <- some_or AttributeError (d1 s) ;;
  if first s then
    modify (with_first false) ;;;
    ret (Trivial, true)
  else
    match rs_newton_irc (pes s) (sqrtm s) g1 d (dx s) (xi s) with
    | Raise e => raise e
    | Ok (eps, xi', bound_clip) =>
        modify (with_xi xi') ;;;
        modify (with_d1 (vadd d eps)) ;;;
        ret (Newton, bound_clip)
    end.

(** [for n in range(100)] of [step]; yields the last gradient and the
    branches taken. *)
Fixpoint inner (n : nat) (x0 : vec) (Pfree : matrix) (g1 : option vec)
    (taken : list branch) : M IRC (vec * list branch) :=
  match n with
  | O => raise (RuntimeError "Inner IRC loop failed to converge")
  | S k =>
      bb <- move g1 ;;
      s <- get ;;
      d <- some_or AttributeError (d1 s) ;;
      on_pes (CartPES.set_x (vadd x0 d)) ;;;
      g1' <- on_pes CartPES.g ;;
      on_pes CartPES.update_H ;;;
      let d1m := vmul d (sqrtm s) in
      let d1m := vdivs d1m (norm d1m) in
      let g1m := vdiv (matvec Pfree g1') (sqrtm s) in
      let g1m := vdivs g1m (norm g1m) in
      let dot := abs (dot d1m g1m) in
      if snd bb && (abs (1 - dot) <? irctol s)
      then ret (g1', taken ++ [fst bb])
      else inner k x0 Pfree (Some g1') (taken ++ [fst bb])
  end.

(** [self.step()] *)
Definition step : M IRC (list branch) :=
  x0 <- on_pes CartPES.x ;;
  s <- get ;;
  let Pfree :=
    matmul (CartPES.Ufree (pes s)) (transpose (CartPES.Ufree (pes s))) in
  r <- inner 100 x0 Pfree (r_g (last (pes s))) [] ;;
  s <- get ;;
  let g1w := vdiv (fst r) (sqrtm s) in
  let d1w := vdivs (vscale (- dx s) g1w) (norm g1w) in
  modify (with_d1 (vdiv d1w (sqrtm s))) ;;;
  ret (snd r).

(** [self.run(fmax, steps, direction)] *)
Definition run {ase : AseOptimizer} (fmax : float) (steps : option nat)
    (direction : string) : M IRC bool :=
  irun fmax steps direction ;;;
  Optimizer_drive (step ;;; ret tt) fmax steps.

(** ASE's [Optimizer.converged(self, forces)]. *)
Class AseConverged : Type :=
  { Optimizer_converged : option geometry -> M IRC bool }.

(** [self.converged(forces)] of [IRC]; the name [converged] is taken by
    the test of the root-find above. *)
Definition IRC_converged {ase : AseConverged} (forces : option geometry)
  : M IRC (or_raised bool) :=
  b <- Optimizer_converged forces ;;
  if b then
    s <- get ;;
    match lams (pes s) with
    | None => raise TypeError
    | Some [] => ret IndexError
    | Some (l0 :: _) => ret (Returned (0 <? l0))
    end
  else ret (Returned false).

End Driver.
End irc.

(** * A one-atom instance

    One atom that the constraints hold on the x axis, in the double well
    [x^4/4 - x^2/2] (saddle point at the origin, minima at -1 and 1), with
    small concrete collaborators.  The general statements below are
    applied to it, and the runs quoted below are its runs. *)

Module Toy.

(** The driver on a diagonal matrix: the diagonal in ascending order and
    the unit vectors in that order.  Like LAPACK, it reports a result it
    could not put in order as a failure. *)
Fixpoint insert_by (d : vec) (i : nat) (l : list nat) : list nat :=
  match l with
  | [] => [i]
  | j :: t =>
      if nth i d 0 <? nth j d 0 then i :: l else j :: insert_by d i t
  end.

Fixpoint ascendingb (l : vec) : bool :=
  match l with
  | [] => true
  | a :: t => forallb (fun b => a <=? b) t && ascendingb t
  end.

Definition eigh_diag (A : matrix) : result (vec * matrix) :=
  let n := length A in
  let d := map (fun i => nth i (nth i A []) 0) (seq 0 n) in
  let order := fold_left (fun acc i => insert_by d i acc) (seq 0 n) [] in
  if ascendingb (take d order) then
    Ok (take d order,
        map (fun i => map (fun j => if Nat.eqb i j then 1 else 0) order)
            (seq 0 n))
  else Raise LinAlgError.

Lemma ascendingb_ascending (l : vec) : ascendingb l = true -> ascending l.
Proof.
  induction l as [| a t IH]; intros H; [constructor |].
  cbn [ascendingb] in H. apply andb_prop in H. destruct H as [Ha Ht].
  constructor; [exact (IH Ht) |].
  apply Forall_forall. intros b Hb.
  exact (proj1 (forallb_forall _ t) Ha b Hb).
Qed.

Lemma eigh_diag_ascending (A : matrix) (l : vec) (V : matrix) :
  eigh_diag A = Ok (l, V) -> ascending l.
Proof.
  unfold eigh_diag.
  destruct (ascendingb _) eqn:E; intros H; [| discriminate H].
  inversion H; subst. exact (ascendingb_ascending _ E).
Qed.

Definition lapack : Lapack :=
  {| syevr := eigh_diag; syevr_ascending := eigh_diag_ascending |}.

(** Modelled from the spec: [sella.constraints.Constraints] is not among
    the sources.  Here the atom is held on the x axis: the residual is
    its y and z, [Ufree] is the x direction and [Ucons] spans the other
    two. *)
Definition cons : ConstraintsAPI :=
  {| cons_res := fun p => match p with
                          | (_, b, c) :: _ => [b; c]
                          | [] => [0; 0]
                          end;
     cons_drdx := fun _ => [[0; 0]; [1; 0]; [0; 1]];
     cons_Ufree := fun _ => [[1]; [0]; [0]];
     cons_Ucons := fun _ => [[0; 0]; [1; 0]; [0; 1]] |}.

(** The double well along x. *)
Definition well (p : geometry) : float * geometry :=
  match p with
  | (a, _, _) :: _ =>
      (a * a * a * a / 4 - a * a / 2, [(a - a * a * a, 0, 0)])
  | [] => (0, [])
  end.

Definition calc : Calculator := {| calculate := fun p => Ok (well p) |}.

(** The same surface behind a wall: the calculator fails left of the
    origin. *)
Definition walled : Calculator :=
  {| calculate := fun p =>
       match p with
       | (a, _, _) :: _ =>
           if a <? 0 then Raise CalculatorError else Ok (well p)
       | [] => Ok (well p)
       end |}.

(** Modelled from the spec: [sella.hessian_update] is not among the
    sources; its [update_H] returns a Hessian that maps the step to the
    gradient change.  Here: the symmetric rank-one update from the first
    column of each, started from zero when there is no previous Hessian;
    and a symmetrizer that has nothing to do for a single column. *)
Definition sr1 (B : option matrix) (S Y : matrix) : matrix :=
  let s := column S 0 in
  let y := column Y 0 in
  let B0 := match B with
            | Some B0 => B0
            | None => map (fun _ => map (fun _ => 0) s) s
            end in
  let r := vsub y (matvec B0 s) in
  let rs := dot r s in
  if rs =? 0 then B0
  else map (fun p => vadd (fst p) (vdivs (snd p) rs))
           (combine B0 (outer r r)).

Definition kernels : hessian_update.Kernels :=
  {| hessian_update.update_H := sr1;
     hessian_update.symmetrize_Y := fun _ Y => Y |}.

(** Modelled from the spec: [sella.linalg.NumericalHessian] is not among
    the sources; its action is the two- or three-point finite difference
    of the gradient along the probe direction, with step [eta]. *)
Definition finite_difference (S : Type) (func : vec -> M S (float * vec))
    (x0 g0 : vec) (eta : float) (threepoint : bool) (v : vec) : M S vec :=
  plus <- func (vadd x0 (vscale eta v)) ;;
  if threepoint then
    minus <- func (vsub x0 (vscale eta v)) ;;
    ret (vdivs (vsub (snd plus) (snd minus)) (2 * eta))
  else ret (vdivs (vsub (snd plus) g0) eta).

(** Modelled from the spec: [sella.eigensolvers.rayleigh_ritz] and
    [sella.linalg.ProjectedMatrix] are not among the sources.  Of the
    subspace iteration, this solver makes the first application of the
    operator, to the first free direction, and stops. *)
Definition one_probe (S : Type) (Htrue : vec -> M S vec) (Ufree : matrix)
    (gamma : float) (P : matrix) (v0 : option vec) (method : string)
    (maxiter : option nat) : M S (matrix * matrix) :=
  let w := column Ufree 0 in
  Aw <- Htrue w ;;
  ret (as_column w, as_column Aw).

Definition solver : Eigensolver :=
  {| NumericalHessian := finite_difference; rayleigh_ritz := one_probe |}.

(** Modelled from the spec: [sella.internal.Internal] is not among the
    sources.  Here the internal coordinates are the Cartesian ones: the
    map is [ravel], its Jacobian the identity, its curvature zero. *)
Definition internal : InternalAPI :=
  {| int_q := fun p => Ok (ravel p);
     int_q_wrap := fun dq => dq;
     int_Binv := fun p => Ok (eye (length (ravel p)));
     int_D := fun p => Ok (fun _ _ => map (fun _ => 0) (ravel p)) |}.

(** Modelled from the spec: curvilinear coordinates for one atom.  The
    coordinates are twice the Cartesian ones, so the pseudo-inverse
    Jacobian is half the identity; the curvature multiplies its two
    arguments entry by entry; and beyond [x = 3] the Jacobian cannot be
    inverted. *)
Definition stretched : InternalAPI :=
  {| int_q := fun p => Ok (vscale 2 (ravel p));
     int_q_wrap := fun dq => dq;
     int_Binv := fun p =>
       match p with
       | (a, _, _) :: _ =>
           if 3 <? a then Raise LinAlgError
           else Ok [[0.5; 0; 0]; [0; 0.5; 0]; [0; 0; 0.5]]
       | [] => Ok []
       end;
     int_D := fun p => Ok vmul |}.

(** An integrator that takes explicit Euler steps of length 1/2 up to
    [t_bound = 1], one evaluation of the right-hand side each, and whose
    constructor wants a finite initial state. *)
Definition euler_step (S : Type) (rhs : float -> vec -> M S vec) (o : ode)
  : M S ode :=
  dy <- rhs (ode_t o) (ode_y o) ;;
  let t := ode_t o + 0.5 in
  ret (mkOde (if 1 <=? t then finished else running) (1 + nfev o) t
             (vadd (ode_y o) (vscale 0.5 dy))).

Definition integrator : Integrator :=
  {| lsoda_accepts := forallb is_finite; lsoda_step := euler_step |}.

(** A freshly constructed [CartPES] at a geometry, and the [IRC] object
    built on it with unit masses. *)
Definition fresh (p : geometry) : PES :=
  mkPES p empty_record empty_record 0 None None None None "jd0" 1e-4.

Definition fresh_irc (p : geometry) : irc.IRC :=
  irc.mkIRC (fresh p) [1; 1; 1] 1e-2 0.1 (Some 0.4) (ravel p) None None None
            None 1 true.

(** The same object with a first mass of zero, and the one built with
    the argument [peskwargs=dict(gamma=0.4)], which has no attribute
    [peskwargs]. *)
Definition massless_irc : irc.IRC :=
  irc.mkIRC (fresh [(0, 0, 0)]) [0; 1; 1] 1e-2 0.1 (Some 0.4) [0; 0; 0] None
            None None None 1 true.

Definition kwargs_irc : irc.IRC :=
  irc.mkIRC (fresh [(0, 0, 0)]) [1; 1; 1] 1e-2 0.1 None [0; 0; 0] None None
            None None 1 true.

(** Modelled from the spec: the same atom with no constraint, every
    direction free. *)
Definition free : ConstraintsAPI :=
  {| cons_res := fun _ => [];
     cons_drdx := fun _ => [[]; []; []];
     cons_Ufree := fun _ => eye 3;
     cons_Ucons := fun _ => [[]; []; []] |}.

(** The object after its first evaluation, at a geometry. *)
Definition evaluated (p : geometry) : PES :=
  snd (@CartPES.g calc cons (fresh p)).

(** An object whose only evaluation was at a geometry with a NaN
    coordinate. *)
Definition nan_state : PES := evaluated [(nan, 0, 0)].

(** The object behind the wall after its first evaluation, at the
    origin, and after a call of [diag] with three-point differences. *)
Definition walled_origin : PES :=
  snd (@CartPES.g walled cons (fresh [(0, 0, 0)])).

Definition walled_diag : result unit * PES :=
  CartPES.diag (calc := walled) (lapack := lapack) (kernels := kernels)
               (cons := cons) (solver := solver) 0.5 true None
               walled_origin.

(** The object after its first evaluation, at the saddle point, and
    after a call of [diag] there. *)
Definition cart : Variant := CartPES.variant (calc := calc) (cons := cons).

Definition origin : PES := evaluated [(0, 0, 0)].

Definition after_diag : PES :=
  snd (BasePES.diag (lapack := lapack) (kernels := kernels)
         (solver := solver) (variant := cart) 0.5 true None origin).

(** The retraction from the origin to the target [(1, 2, 3)]: the object
    after the two Euler steps, at the geometry of the last evaluation of
    the right-hand side. *)
Definition euler_object : PES :=
  with_positions [(0.5, 1, 1.5)] (fresh [(0, 0, 0)]).

(** The retraction in the curvilinear coordinates from [(1, 0, 0)] to
    the coordinates [(4, 2, 6)]: the state of the integrator and of the
    object after the two Euler steps. *)
Definition stretched_end : ode :=
  mkOde finished 2 1 [1.875; 0.875; 1.875; 0.609375; 0.609375; 0.609375].

Definition stretched_object : PES :=
  with_positions [(1.5, 0.5, 1.5)] (fresh [(1, 0, 0)]).

(** The object at the origin with the Hessian [diag(l, 0, 0)] assigned,
    and the solver called on it with unit masses, gradient [(g, 0, 0)]
    and direction [(d, 0, 0)]. *)
Definition curved (l : float) : PES :=
  snd (CartPES.set_H (calc := calc) (lapack := lapack) (cons := cons)
         (Some [[l; 0; 0]; [0; 0; 0]; [0; 0; 0]]) (fresh [(0, 0, 0)])).

(** The same object after the assignment of a Hessian with a NaN. *)
Definition poisoned : result unit * PES :=
  CartPES.set_H (calc := calc) (lapack := lapack) (cons := cons)
    (Some [[nan; 0; 0]; [0; 0; 0]; [0; 0; 0]]) (curved 1).

Definition newton (l g d dx xi : float) : result (vec * float * bool) :=
  irc.rs_newton_irc (lapack := lapack) (cons := cons) (curved l) [1; 1; 1]
                    (Some [g; 0; 0]) [d; 0; 0] dx xi.

(** The solver called on the flat surface with a first mass of zero. *)
Definition massless : result (vec * float * bool) :=
  irc.rs_newton_irc (lapack := lapack) (cons := cons) (curved 0) [0; 1; 1]
                    (Some [0; 0; 0]) [0.05; 0; 0] 0.1 1.

Definition candidate (l g d : float) : option float :=
  irc.unshifted_d2mw_mag (lapack := lapack) (cons := cons) (curved l)
                         [1; 1; 1] [g; 0; 0] [d; 0; 0].

(** The size of the step [d1 + eps] that a call returned. *)
Definition returned_mag (d : float) (r : result (vec * float * bool))
  : option float :=
  match r with
  | Ok (eps, _, _) => Some (norm (vadd [d; 0; 0] eps))
  | Raise _ => None
  end.

(** The run: the object after [irun] in the forward direction, and after
    the first call of [step]. *)
Definition started : irc.IRC :=
  snd (irc.irun (calc := calc) (lapack := lapack) (kernels := kernels)
         (cons := cons) (solver := solver) 0.05 None "forward"
         (fresh_irc [(0, 0, 0)])).

Definition stepped : irc.IRC :=
  snd (irc.step (calc := calc) (lapack := lapack) (kernels := kernels)
         (cons := cons) started).

(** The object after evaluations at 0.1 and at 0.2, then moved to 0.3
    and not yet evaluated there; and after [update_H] on it. *)
Definition two_records : PES :=
  snd (@CartPES.g calc cons (with_positions [(0.2, 0, 0)]
                               (evaluated [(0.1, 0, 0)]))).

Definition moved : PES := with_positions [(0.3, 0, 0)] two_records.

Definition after_update_H : PES :=
  snd (CartPES.update_H (calc := calc) (lapack := lapack)
         (kernels := kernels) (cons := cons) moved).

(** The object at the saddle point after the probe of [_calc_eg] at
    [(0.1, 0, 0)]. *)
Definition probed : PES :=
  snd (BasePES._calc_eg (variant := cart) [0.1; 0; 0] origin).

(** The object after [irun] in the reverse direction, called after the
    first step of the forward run. *)
Definition rewound : irc.IRC :=
  snd (irc.irun (calc := calc) (lapack := lapack) (kernels := kernels)
         (cons := cons) (solver := solver) 0.05 None "reverse" stepped).

(** Modelled from the spec: [numpy.linalg.pinv] on a matrix with
    orthonormal rows, as the constraint Jacobians of this instance are:
    its transpose. *)
Definition linalg : Pinv := {| pinv := fun A => Ok (transpose A) |}.

(** The object at the saddle point after a kick of 0.1 along the free
    direction, without diagonalization. *)
Definition kicked : PES :=
  snd (CartPES.kick (calc := calc) (lapack := lapack) (kernels := kernels)
         (cons := cons) (linalg := linalg) (solver := solver) [0.1] None
         origin).

(** An optimizer whose force test holds, and an [IRC] object on the
    surface of curvature 1. *)
Definition forces_converged : irc.AseConverged :=
  {| irc.Optimizer_converged := fun _ => ret true |}.

Definition at_minimum : irc.IRC :=
  irc.with_pes (curved 1) (fresh_irc [(0, 0, 0)]).

(** A driver that takes a single step. *)
Definition one_step : irc.AseOptimizer :=
  {| irc.Optimizer_drive := fun step _ _ => step ;;; ret true |}.

End Toy.

(** * Properties *)

(** ** The monad *)

Lemma bind_Ok {S A B} (m : M S A) (k : A -> M S B) s b s' :
  bind m k s = (Ok b, s') ->
  exists a s1, m s = (Ok a, s1) /\ k a s1 = (Ok b, s').
Proof.
  unfold bind. destruct (m s) as [[a | e] s1]; intros E.
  - exists a, s1. split; [reflexivity | exact E].
  - discriminate E.
Qed.

Lemma bind_run {S A B} (m : M S A) (k : A -> M S B) s a s1 :
  m s = (Ok a, s1) -> bind m k s = k a s1.
Proof. intros E. unfold bind. rewrite E. reflexivity. Qed.

Lemma bind_raise {S A B} (m : M S A) (k : A -> M S B) s e s1 :
  m s = (Raise e, s1) -> bind m k s = (Raise e, s1).
Proof. intros E. unfold bind. rewrite E. reflexivity. Qed.

Lemma lift_Ok {S A} (r : result A) (s s1 : S) (a : A) :
  lift r s = (Ok a, s1) -> r = Ok a /\ s1 = s.
Proof. unfold lift. intros E. inversion E. split; reflexivity. Qed.

(** Peels the successful prefix of a run off a hypothesis. *)
Ltac bind_inv H :=
  let a := fresh "a" in
  let s1 := fresh "s" in
  let E := fresh "E" in
  apply bind_Ok in H; destruct H as (a & s1 & E & H).

(** ** Arrays *)

Lemma reshape3_fuel_ravel (p : geometry) :
  forall n, (length p <= n)%nat -> reshape3_fuel n (ravel p) = Some p.
Proof.
  induction p as [| [[a b] c] p IH]; intros n Hn.
  - destruct n; reflexivity.
  - destruct n as [| n]; simpl in Hn; [lia |].
    simpl. rewrite IH by lia. reflexivity.
Qed.

Lemma length_ravel (p : geometry) : length (ravel p) = (3 * length p)%nat.
Proof.
  induction p as [| [[a b] c] p IH]; simpl; [reflexivity | rewrite IH; lia].
Qed.

Lemma reshape3_ravel (p : geometry) : reshape3 (ravel p) = Some p.
Proof.
  unfold reshape3. apply reshape3_fuel_ravel. rewrite length_ravel. lia.
Qed.

Lemma reshape3_fuel_Some (n : nat) :
  forall (u : vec) (p : geometry),
    reshape3_fuel n u = Some p ->
    ravel p = u /\ length u = (3 * length p)%nat.
Proof.
  induction n as [| n IH]; intros u p H.
  - destruct u; [| discriminate H]. inversion H. split; reflexivity.
  - destruct u as [| a [| b [| c rest]]]; try discriminate H.
    + inversion H. split; reflexivity.
    + cbn [reshape3_fuel] in H.
      destruct (reshape3_fuel n rest) as [q |] eqn:Eq; [| discriminate H].
      inversion H; subst. destruct (IH _ _ Eq) as [Hr Hl].
      cbn [ravel length]. rewrite Hr, Hl. split; [reflexivity | lia].
Qed.

Lemma reshape3_fuel_total (k : nat) :
  forall (u : vec) (n : nat),
    length u = (3 * k)%nat -> (k <= n)%nat ->
    exists p, reshape3_fuel n u = Some p /\ length p = k.
Proof.
  induction k as [| k IH]; intros u n Hl Hn.
  - destruct u; [| discriminate Hl]. exists []. destruct n; split; reflexivity.
  - destruct u as [| a [| b [| c rest]]]; cbn [length] in Hl; try lia.
    destruct n as [| n]; [lia |].
    destruct (IH rest n ltac:(lia) ltac:(lia)) as (q & Eq & Lq).
    exists ((a, b, c) :: q). cbn [reshape3_fuel]. rewrite Eq.
    split; [reflexivity | cbn [length]; lia].
Qed.

(** [reshape((-1, 3))] succeeds exactly on a length that is a multiple of
    three, and [ravel] undoes it. *)
Lemma reshape3_Some (u : vec) (p : geometry) :
  reshape3 u = Some p -> ravel p = u /\ length u = (3 * length p)%nat.
Proof. apply reshape3_fuel_Some. Qed.

Lemma reshape3_total (u : vec) (k : nat) :
  length u = (3 * k)%nat ->
  exists p, reshape3 u = Some p /\ length p = k /\ ravel p = u.
Proof.
  intros Hl.
  destruct (@reshape3_fuel_total k u (length u) Hl ltac:(lia)) as (p & E & L).
  exists p. split; [exact E | split; [exact L |]].
  exact (proj1 (reshape3_Some _ E)).
Qed.

Lemma reshape3_None (u : vec) :
  (length u mod 3 <> 0)%nat -> reshape3 u = None.
Proof.
  intros Hm. destruct (reshape3 u) as [p |] eqn:E; [| reflexivity].
  apply reshape3_Some in E. destruct E as [_ E]. contradiction Hm.
  rewrite E, Nat.mul_comm. apply Nat.Div0.mod_mul.
Qed.

(** Without a NaN, an array equals itself under [==]. *)
Lemma all_eq_refl (u : vec) :
  existsb is_nan u = false -> all_eq u u = true.
Proof.
  induction u as [| a u IH]; simpl; intros Hn; [reflexivity |].
  apply orb_false_iff in Hn. destruct Hn as [Ha Hu].
  unfold is_nan in Ha. apply negb_false_iff in Ha.
  rewrite Ha, (IH Hu). reflexivity.
Qed.

Lemma with_positions_same (s : PES) : with_positions (positions s) s = s.
Proof. destruct s; reflexivity. Qed.

Lemma assign_positions_same (s : PES) :
  assign_positions (positions s) s = (Ok tt, s).
Proof.
  unfold assign_positions. rewrite Nat.eqb_refl, with_positions_same.
  reflexivity.
Qed.

(** ** The evaluation records *)

Section Records.

Context {calc : Calculator} {cons : ConstraintsAPI}.

(** When the last record was taken at the current geometry and no
    coordinate is NaN, [_update] finds nothing to do. *)
Lemma BasePES_update_unchanged (s : PES) :
  r_x (last s) = Some (ravel (positions s)) ->
  existsb is_nan (ravel (positions s)) = false ->
  BasePES._update s = (Ok false, s).
Proof.
  intros Hx Hn. unfold BasePES._update, bind, get.
  rewrite Hx, (all_eq_refl _ Hn). reflexivity.
Qed.

Lemma CartPES_update_unchanged (s : PES) :
  r_x (last s) = Some (ravel (positions s)) ->
  existsb is_nan (ravel (positions s)) = false ->
  CartPES._update s = (Ok false, s).
Proof.
  intros Hx Hn. unfold CartPES._update.
  rewrite (bind_run _ _ _ (BasePES_update_unchanged s Hx Hn)).
  reflexivity.
Qed.

(** [_update] leaves the object alone when the geometry equals the
    recorded one under [==]. *)
Lemma CartPES_update_same (t : PES) (lx : vec) :
  r_x (last t) = Some lx ->
  all_eq (ravel (positions t)) lx = true ->
  CartPES._update t = (Ok false, t).
Proof.
  intros Hx He. unfold CartPES._update, BasePES._update, bind, get.
  rewrite Hx, He. reflexivity.
Qed.

(** C6 (as amended).  On an object whose last record was taken at the
    current geometry, none of whose coordinates is NaN, assigning [x]
    its current value and then reading [f] or [g] leaves the whole
    object as it was: [last], [lastlast] and [neval] included.  And
    whenever [_update] changes the object, the geometry differed from
    the recorded one under numpy's [==], or there was no record. *)
Theorem unchanged_x_is_not_evaluated_again (s : PES) :
  r_x (last s) = Some (ravel (positions s)) ->
  existsb is_nan (ravel (positions s)) = false ->
  CartPES.set_x (ravel (positions s)) s = (Ok tt, s)
  /\ CartPES.f s = (some_or TypeError (r_f (last s)) s)
  /\ snd (CartPES.f s) = s
  /\ CartPES.g s = (some_or TypeError (r_g (last s)) s)
  /\ snd (CartPES.g s) = s
  /\ (forall (t t' : PES) (r : result bool),
        CartPES._update t = (r, t') ->
        t' <> t ->
        match r_x (last t) with
        | Some lx => all_eq (ravel (positions t)) lx = false
        | None => True
        end).
Proof.
  intros Hx Hn.
  assert (Hu := CartPES_update_unchanged s Hx Hn).
  assert (Hf : CartPES.f s = some_or TypeError (r_f (last s)) s).
  { unfold CartPES.f, BasePES.f. cbn [v_update CartPES.variant].
    unfold bind at 1. unfold bind at 1. rewrite Hu. reflexivity. }
  assert (Hg : CartPES.g s = some_or TypeError (r_g (last s)) s).
  { unfold CartPES.g. rewrite (bind_run _ _ _ Hu). reflexivity. }
  repeat split.
  - unfold CartPES.set_x. rewrite reshape3_ravel.
    apply assign_positions_same.
  - exact Hf.
  - rewrite Hf. destruct (r_f (last s)); reflexivity.
  - exact Hg.
  - rewrite Hg. destruct (r_g (last s)); reflexivity.
  - intros t t' r Hr Hd.
    destruct (r_x (last t)) as [lx |] eqn:Ex; [| exact I].
    destruct (all_eq (ravel (positions t)) lx) eqn:Ee; [| reflexivity].
    rewrite (CartPES_update_same t Ex Ee) in Hr.
    inversion Hr; subst. contradiction Hd. reflexivity.
Qed.

(** C10.  With a single evaluation record ([lastlast] has no [x]),
    [update_H] returns and leaves the whole object, [H] included, as it
    was. *)
Theorem update_H_waits_for_two_records (s : PES) :
  r_x (lastlast s) = None ->
  forall kernels lapack,
    @CartPES.update_H calc lapack kernels cons s = (Ok tt, s).
Proof.
  intros Hx kernels lapack. unfold CartPES.update_H, bind, get.
  rewrite Hx. reflexivity.
Qed.

(** With two records, the second at the current geometry, the secant
    kernel is applied to the differences of their [x] and [g]. *)
Lemma update_H_with_two_records (s : PES) (llx g1 llg : vec) :
  r_x (lastlast s) = Some llx ->
  r_g (lastlast s) = Some llg ->
  r_x (last s) = Some (ravel (positions s)) ->
  existsb is_nan (ravel (positions s)) = false ->
  r_g (last s) = Some g1 ->
  forall kernels lapack,
    @CartPES.update_H calc lapack kernels cons s
    = CartPES.set_H
        (Some (hessian_update.update_H (_H s)
                 (as_column (vsub (ravel (positions s)) llx))
                 (as_column (vsub g1 llg)))) s.
Proof.
  intros Hx Hg Hl Hn Hg1 kernels lapack.
  unfold CartPES.update_H.
  unfold bind at 1. unfold get at 1. rewrite Hx.
  unfold bind at 1. unfold CartPES.x at 1, gets.
  unfold bind at 1. unfold CartPES.g.
  rewrite (bind_run _ _ _ (CartPES_update_unchanged s Hl Hn)).
  unfold bind at 1. unfold get at 1. rewrite Hg1. cbn [some_or ret].
  unfold bind at 1. unfold get at 1.
  unfold bind at 1. rewrite Hg. reflexivity.
Qed.

End Records.

(** C6 at the object evaluated once, at [(0.1, 0, 0)]. *)
Lemma unchanged_x_witness :
  r_x (last (Toy.evaluated [(0.1, 0, 0)]))
  = Some (ravel (positions (Toy.evaluated [(0.1, 0, 0)])))
  /\ existsb is_nan (ravel (positions (Toy.evaluated [(0.1, 0, 0)]))) = false
  /\ snd (@CartPES.g Toy.calc Toy.cons (Toy.evaluated [(0.1, 0, 0)]))
     = Toy.evaluated [(0.1, 0, 0)].
Proof.
  assert (H1 : r_x (last (Toy.evaluated [(0.1, 0, 0)]))
               = Some (ravel (positions (Toy.evaluated [(0.1, 0, 0)]))))
    by (vm_compute; reflexivity).
  assert (H2 : existsb is_nan
                 (ravel (positions (Toy.evaluated [(0.1, 0, 0)]))) = false)
    by (vm_compute; reflexivity).
  split; [exact H1 | split; [exact H2 |]].
  exact (proj1 (proj2 (proj2 (proj2 (proj2
           (@unchanged_x_is_not_evaluated_again Toy.calc Toy.cons _ H1 H2)))))).
Defined.

(** C6 (as stated) fails on a geometry with a NaN coordinate: the record
    is bit for bit at the current [x], yet assigning [x] its current value
    and reading [g] evaluates again, counts the evaluation and moves the
    record to [lastlast]. *)
Lemma nan_geometry_is_evaluated_again :
  r_x (last Toy.nan_state) = Some (ravel (positions Toy.nan_state))
  /\ neval Toy.nan_state = 1%nat
  /\ lastlast Toy.nan_state = empty_record
  /\ @CartPES.set_x (ravel (positions Toy.nan_state)) Toy.nan_state
     = (Ok tt, Toy.nan_state)
  /\ neval (snd (@CartPES.g Toy.calc Toy.cons Toy.nan_state)) = 2%nat
  /\ lastlast (snd (@CartPES.g Toy.calc Toy.cons Toy.nan_state))
     = last Toy.nan_state
  /\ lastlast (snd (@CartPES.g Toy.calc Toy.cons Toy.nan_state))
     <> lastlast Toy.nan_state.
Proof.
  repeat split; try (vm_compute; reflexivity).
  vm_compute. discriminate.
Qed.

(** C10 at the object evaluated once. *)
Lemma update_H_waits_witness :
  r_x (lastlast (Toy.evaluated [(0.1, 0, 0)])) = None
  /\ @CartPES.update_H Toy.calc Toy.lapack Toy.kernels Toy.cons
       (Toy.evaluated [(0.1, 0, 0)])
     = (Ok tt, Toy.evaluated [(0.1, 0, 0)]).
Proof.
  assert (H1 : r_x (lastlast (Toy.evaluated [(0.1, 0, 0)])) = None)
    by (vm_compute; reflexivity).
  split; [exact H1 |].
  exact (@update_H_waits_for_two_records Toy.calc Toy.cons _ H1
           Toy.kernels Toy.lapack).
Defined.

(** ** The Hessian and its eigenpairs *)

Section Hessian.

Context {lapack : Lapack} {variant : Variant}.

(** The assignment of a matrix, by the outcome of [eigh]. *)
Lemma set_H_unfold (H : matrix) (s : PES) :
  BasePES.set_H (Some H) s
  = let s1 := with_hessian (Some H) (Hred s) (lams s) (vecs s) s in
    let Hr := matmul (matmul (transpose (v_Ufree s1)) H) (v_Ufree s1) in
    match eigh Hr with
    | Ok lv =>
        (Ok tt,
         with_hessian (Some H) (Some Hr) (Some (fst lv)) (Some (snd lv)) s)
    | Raise e =>
        (Raise e, with_hessian (Some H) (Some Hr) (lams s) (vecs s) s)
    end.
Proof.
  unfold BasePES.set_H, bind, modify, get, lift. cbv zeta.
  cbn [_H Hred lams vecs with_hessian positions last lastlast neval
       eigensolver eta].
  destruct (eigh _) as [lv | e]; reflexivity.
Qed.

(** C7 (as amended).  Assigning [None] to [H] sets [_H], [Hred], [lams]
    and [vecs] to [None].  Assigning a matrix stores it and sets [Hred]
    to [Ufree.T @ H @ Ufree], and then calls [eigh] on [Hred].  When
    [eigh] returns, [lams] and [vecs] are all that it returned, so
    [lams] is in ascending order and [lams[0]] is no greater than any
    other.  When [eigh] raises, as it does on a [Hred] with a NaN or an
    infinity, the assignment raises that with [_H] and [Hred] replaced
    and [lams] and [vecs] left as they were. *)
Theorem H_setter_recomputes_eigenpairs (s : PES) (H : matrix) :
  let s1 := with_hessian (Some H) (Hred s) (lams s) (vecs s) s in
  let Hr := matmul (matmul (transpose (v_Ufree s1)) H) (v_Ufree s1) in
  BasePES.set_H None s = (Ok tt, with_hessian None None None None s)
  /\ (forall (l : vec) (V : matrix),
        eigh Hr = Ok (l, V) ->
        BasePES.set_H (Some H) s
        = (Ok tt, with_hessian (Some H) (Some Hr) (Some l) (Some V) s)
        /\ ascending l
        /\ (forall l0 rest,
              l = l0 :: rest -> Forall (fun a => (l0 <=? a) = true) rest))
  /\ (forall e : exn,
        eigh Hr = Raise e ->
        BasePES.set_H (Some H) s
        = (Raise e, with_hessian (Some H) (Some Hr) (lams s) (vecs s) s))
  /\ (all_finite Hr = false -> eigh Hr = Raise not_finite)
  /\ (all_finite Hr = true -> eigh Hr = syevr Hr).
Proof.
  intros s1 Hr. split; [reflexivity |].
  pose proof (set_H_unfold H s) as U. cbv zeta in U. fold s1 in U.
  fold Hr in U.
  split; [| split; [| split]].
  - intros l V E. rewrite E in U. split; [exact U |].
    assert (Hasc : ascending l).
    { unfold eigh in E. destruct (all_finite Hr); [| discriminate E].
      exact (syevr_ascending _ E). }
    split; [exact Hasc |].
    intros l0 rest ->. unfold ascending in Hasc.
    inversion Hasc; subst. assumption.
  - intros e E. rewrite E in U. exact U.
  - intros E. unfold eigh. rewrite E. reflexivity.
  - intros E. unfold eigh. rewrite E. reflexivity.
Qed.

End Hessian.

(** C7 at the unconstrained atom and the Hessian [diag(2, -1, 0.5)]. *)
Lemma H_setter_witness :
  CartPES.set_H (calc := Toy.calc) (lapack := Toy.lapack) (cons := Toy.free)
    (Some [[2; 0; 0]; [0; -1; 0]; [0; 0; 0.5]]) (Toy.fresh [(0, 0, 0)])
  = (Ok tt,
     with_hessian (Some [[2; 0; 0]; [0; -1; 0]; [0; 0; 0.5]])
       (Some [[2; 0; 0]; [0; -1; 0]; [0; 0; 0.5]])
       (Some [-1; 0.5; 2]) (Some [[0; 0; 1]; [1; 0; 0]; [0; 1; 0]])
       (Toy.fresh [(0, 0, 0)]))
  /\ ascending [-1; 0.5; 2].
Proof.
  pose proof (H_setter_recomputes_eigenpairs
                (lapack := Toy.lapack)
                (variant := CartPES.variant (calc := Toy.calc)
                                            (cons := Toy.free))
                (Toy.fresh [(0, 0, 0)])
                [[2; 0; 0]; [0; -1; 0]; [0; 0; 0.5]]) as W.
  cbv zeta in W. destruct W as (_ & W & _).
  specialize (W [-1; 0.5; 2] [[0; 0; 1]; [1; 0; 0]; [0; 1; 0]]
                ltac:(vm_compute; reflexivity)).
  destruct W as (W1 & W2 & _).
  split; [| exact W2].
  refine (eq_trans W1 _). vm_compute. reflexivity.
Defined.

(** C7 (as stated) fails on a Hessian that [eigh] refuses.  On an object
    that holds the eigenpairs of the Hessian [diag(1, 0, 0)], assigning a
    Hessian with a NaN raises ValueError; [_H] and [Hred] are the new
    ones, and [lams] and [vecs] are still those of the old Hessian. *)
Lemma refused_hessian_leaves_stale_eigenpairs :
  lams (Toy.curved 1) = Some [1]
  /\ vecs (Toy.curved 1) = Some [[1]]
  /\ fst Toy.poisoned = Raise not_finite
  /\ _H (snd Toy.poisoned) = Some [[nan; 0; 0]; [0; 0; 0]; [0; 0; 0]]
  /\ Hred (snd Toy.poisoned) = Some [[nan]]
  /\ lams (snd Toy.poisoned) = Some [1]
  /\ vecs (snd Toy.poisoned) = Some [[1]].
Proof. repeat split; vm_compute; reflexivity. Qed.

(** ** Diagonalization and the evaluation records *)

Section Diag.

Context {calc : Calculator} {lapack : Lapack}
        {kernels : hessian_update.Kernels} {solver : Eigensolver}
        {variant : Variant}.

Lemma gets_Ok {A} (f : PES -> A) (s s1 : PES) (a : A) :
  gets f s = (Ok a, s1) -> a = f s /\ s1 = s.
Proof. unfold gets. intros E. inversion E. split; reflexivity. Qed.

(** C8 (as amended).  When [diag] returns, [last] and [lastlast] are
    what they were when it was called. *)
Theorem diag_restores_records_on_return (gamma : float) (threepoint : bool)
    (maxiter : option nat) (s s' : PES) :
  BasePES.diag gamma threepoint maxiter s = (Ok tt, s') ->
  last s' = last s /\ lastlast s' = lastlast s.
Proof.
  intros Hd. unfold BasePES.diag in Hd.
  bind_inv Hd. apply gets_Ok in E. destruct E as [-> ->].
  bind_inv Hd. apply gets_Ok in E. destruct E as [-> ->].
  do 10 (let a := fresh "a" in let t := fresh "t" in let E := fresh "E" in
         apply bind_Ok in Hd; destruct Hd as (a & t & E & Hd)).
  unfold bind, modify in Hd. inversion Hd; subst.
  split; reflexivity.
Qed.

End Diag.

(** C8 at the saddle point of the double well. *)
Lemma diag_restores_witness :
  BasePES.diag (lapack := Toy.lapack) (kernels := Toy.kernels)
    (solver := Toy.solver) (variant := Toy.cart) 0.5 true None Toy.origin
  = (Ok tt, Toy.after_diag)
  /\ last Toy.after_diag = last Toy.origin
  /\ lastlast Toy.after_diag = lastlast Toy.origin.
Proof.
  assert (H1 : BasePES.diag (lapack := Toy.lapack) (kernels := Toy.kernels)
                 (solver := Toy.solver) (variant := Toy.cart) 0.5 true None
                 Toy.origin
               = (Ok tt, Toy.after_diag))
    by (vm_compute; reflexivity).
  split; [exact H1 |].
  exact (@diag_restores_records_on_return Toy.lapack Toy.kernels Toy.solver
           Toy.cart 0.5 true None Toy.origin Toy.after_diag H1).
Defined.

(** C8 (as stated) fails when the probing phase is left by an exception:
    the calculator raises at the second probe of a three-point
    difference, [diag] raises in turn, and the records are those the
    first probe left, not the ones [diag] was called with. *)
Lemma diag_leaves_probe_records_on_exception :
  fst Toy.walled_diag = Raise CalculatorError
  /\ r_x (last Toy.walled_origin) = Some [0; 0; 0]
  /\ r_x (last (snd Toy.walled_diag)) = Some [0.0001; 0; 0]
  /\ last (snd Toy.walled_diag) <> last Toy.walled_origin
  /\ r_x (lastlast Toy.walled_origin) = None
  /\ r_x (lastlast (snd Toy.walled_diag)) = Some [0; 0; 0]
  /\ lastlast (snd Toy.walled_diag) <> lastlast Toy.walled_origin.
Proof.
  repeat split; try (vm_compute; reflexivity).
  - intros E.
    apply (f_equal (fun r => match r_x r with
                             | Some (a :: _) => a =? 0
                             | _ => false
                             end)) in E.
    vm_compute in E. discriminate E.
  - vm_compute. discriminate.
Qed.

(** ** The retraction of [IntPES] *)

Section Retraction.

Context {internal : InternalAPI} {integrator : Integrator}.

Lemma after_steps_S (k : nat) (o o1 : ode) (s s1 : PES) :
  lsoda_step IntPES._q_ode o s = (Ok o1, s1) ->
  IntPES.after_steps (S k) o s = IntPES.after_steps k o1 s1.
Proof. intros E. cbn [IntPES.after_steps]. apply (bind_run _ _ _ E). Qed.

Lemma integrate_stopped (fuel : nat) (o : ode) (s : PES) :
  status o <> running -> IntPES.integrate fuel o s = (Ok (Some o), s).
Proof.
  intros Hs. destruct fuel; cbn [IntPES.integrate];
    destruct (status o); try reflexivity; contradiction Hs; reflexivity.
Qed.

(** The loop follows the solver to the first call of [step] after which
    it has stopped or has spent more than 200 evaluations. *)
Lemma integrate_stops (K : nat) :
  forall (fuel : nat) (o oK : ode) (s sK : PES),
    (1 <= K)%nat -> (K <= fuel)%nat ->
    (forall j, (j < K)%nat ->
       exists oj sj, IntPES.after_steps j o s = (Ok oj, sj)
                     /\ status oj = running
                     /\ ((1 <= j)%nat -> (nfev oj <= 200)%nat)) ->
    IntPES.after_steps K o s = (Ok oK, sK) ->
    (200 < nfev oK)%nat \/ status oK <> running ->
    IntPES.integrate fuel o s
    = if Nat.ltb 200 (nfev oK) then (Raise IntPES.too_long, sK)
      else (Ok (Some oK), sK).
Proof.
  induction K as [| K IH]; intros fuel o oK s sK HK Hf Hrun HKth Hstop;
    [lia |].
  destruct fuel as [| fuel]; [lia |].
  destruct (Hrun 0%nat ltac:(lia)) as (o0 & s0 & E0 & Hr0 & _).
  cbn [IntPES.after_steps] in E0. unfold ret in E0.
  inversion E0; subst o0 s0. clear E0.
  cbn [IntPES.integrate]. rewrite Hr0.
  destruct K as [| K].
  - (* the first call of step is the last *)
    cbn [IntPES.after_steps] in HKth.
    apply bind_Ok in HKth. destruct HKth as (o1 & s1 & E1 & HKth).
    unfold ret in HKth. inversion HKth; subst o1 s1.
    rewrite (bind_run _ _ _ E1).
    destruct (Nat.ltb 200 (nfev oK)) eqn:Eb; [reflexivity |].
    apply integrate_stopped. destruct Hstop as [Hn | Hs]; [| exact Hs].
    apply Nat.ltb_ge in Eb. lia.
  - destruct (Hrun 1%nat ltac:(lia)) as (o1 & s1 & E1 & Hr1 & Hn1).
    cbn [IntPES.after_steps] in E1.
    apply bind_Ok in E1. destruct E1 as (o1' & s1' & E1 & E1').
    unfold ret in E1'. inversion E1'; subst o1' s1'.
    rewrite (bind_run _ _ _ E1).
    assert (Eb : Nat.ltb 200 (nfev o1) = false)
      by (apply Nat.ltb_ge; apply Hn1; lia).
    rewrite Eb.
    apply IH; try lia.
    + intros j Hj.
      destruct (Hrun (S j) ltac:(lia)) as (oj & sj & Ej & Hrj & Hnj).
      rewrite (@after_steps_S j o o1 s s1 E1) in Ej.
      exists oj, sj. repeat split; try assumption. intros _. apply Hnj. lia.
    + rewrite <- (@after_steps_S (S K) o o1 s s1 E1). exact HKth.
    + exact Hstop.
Qed.

(** When every step of a running solver evaluates the right-hand side at
    least once, the loop ends within 202 steps of a fresh solver: it has
    raised or the solver has stopped. *)
Lemma integrate_enough_fuel :
  (forall (o o' : ode) (s s' : PES),
      status o = running ->
      lsoda_step IntPES._q_ode o s = (Ok o', s') -> (nfev o < nfev o')%nat) ->
  forall (fuel : nat) (o : ode) (s : PES),
    (202 <= fuel + nfev o)%nat -> (1 <= fuel)%nat ->
    fst (IntPES.integrate fuel o s) <> Ok None.
Proof.
  intros Hgrow fuel. induction fuel as [| fuel IH]; intros o s Hf H1; [lia |].
  cbn [IntPES.integrate].
  destruct (status o) eqn:Es; try (cbn; discriminate).
  unfold bind at 1.
  destruct (lsoda_step IntPES._q_ode o s) as [[o' | e] s'] eqn:E;
    [| cbn; discriminate].
  pose proof (Hgrow o o' s s' Es E) as Hn.
  destruct (Nat.ltb 200 (nfev o')) eqn:Eb; [cbn; discriminate |].
  apply Nat.ltb_ge in Eb. apply IH; lia.
Qed.

(** When the call of [step] that follows a run of calls that returned
    raises, the loop raises that. *)
Lemma integrate_raises (K : nat) :
  forall (fuel : nat) (o : ode) (s sK : PES) (e : exn),
    (1 <= K)%nat -> (K <= fuel)%nat ->
    (forall j, (j < K)%nat ->
       exists oj sj, IntPES.after_steps j o s = (Ok oj, sj)
                     /\ status oj = running
                     /\ ((1 <= j)%nat -> (nfev oj <= 200)%nat)) ->
    IntPES.after_steps K o s = (Raise e, sK) ->
    IntPES.integrate fuel o s = (Raise e, sK).
Proof.
  induction K as [| K IH]; intros fuel o s sK e HK Hf Hrun HKth; [lia |].
  destruct fuel as [| fuel]; [lia |].
  destruct (Hrun 0%nat ltac:(lia)) as (o0 & s0 & E0 & Hr0 & _).
  cbn [IntPES.after_steps] in E0. unfold ret in E0.
  inversion E0; subst o0 s0. clear E0.
  cbn [IntPES.integrate]. rewrite Hr0.
  destruct K as [| K].
  - cbn [IntPES.after_steps] in HKth. unfold bind in HKth |- *.
    destruct (lsoda_step IntPES._q_ode o s) as [[o1 | e1] s1].
    + unfold ret in HKth. discriminate HKth.
    + inversion HKth; subst. reflexivity.
  - destruct (Hrun 1%nat ltac:(lia)) as (o1 & s1 & E1 & Hr1 & Hn1).
    cbn [IntPES.after_steps] in E1.
    apply bind_Ok in E1. destruct E1 as (o1' & s1' & E1 & E1').
    unfold ret in E1'. inversion E1'; subst o1' s1'.
    rewrite (bind_run _ _ _ E1).
    assert (Eb : Nat.ltb 200 (nfev o1) = false)
      by (apply Nat.ltb_ge; apply Hn1; lia).
    rewrite Eb.
    apply (IH fuel o1 s1 sK e); try lia.
    + intros j Hj.
      destruct (Hrun (S j) ltac:(lia)) as (oj & sj & Ej & Hrj & Hnj).
      rewrite (@after_steps_S j o o1 s s1 E1) in Ej.
      exists oj, sj. repeat split; try assumption. intros _. apply Hnj. lia.
    + rewrite <- (@after_steps_S (S K) o o1 s s1 E1). exact HKth.
Qed.

(** Every run is one of these: within [fuel] calls of [step] there is a
    first one that raises, or that returns with the solver stopped or
    beyond 200 evaluations; or all of them return with the solver running
    and within 200 evaluations. *)
Lemma every_run (fuel : nat) :
  forall (o : ode) (s : PES),
    status o = running ->
    (exists K : nat,
        (1 <= K)%nat /\ (K <= fuel)%nat
        /\ (forall j, (j < K)%nat ->
              exists oj sj, IntPES.after_steps j o s = (Ok oj, sj)
                            /\ status oj = running
                            /\ ((1 <= j)%nat -> (nfev oj <= 200)%nat))
        /\ ((exists e sK, IntPES.after_steps K o s = (Raise e, sK))
            \/ (exists oK sK,
                   IntPES.after_steps K o s = (Ok oK, sK)
                   /\ ((200 < nfev oK)%nat \/ status oK <> running))))
    \/ (forall j, (j <= fuel)%nat ->
          exists oj sj, IntPES.after_steps j o s = (Ok oj, sj)
                        /\ status oj = running
                        /\ ((1 <= j)%nat -> (nfev oj <= 200)%nat)).
Proof.
  induction fuel as [| fuel IH]; intros o s Hr.
  - right. intros j Hj. assert (j = 0)%nat by lia. subst j.
    exists o, s. split; [reflexivity |]. split; [exact Hr | lia].
  - assert (H0 : exists oj sj, IntPES.after_steps 0 o s = (Ok oj, sj)
                               /\ status oj = running
                               /\ ((1 <= 0)%nat -> (nfev oj <= 200)%nat)).
    { exists o, s. split; [reflexivity |]. split; [exact Hr | lia]. }
    destruct (lsoda_step IntPES._q_ode o s) as [[o1 | e] s1] eqn:E1.
    + destruct (Nat.ltb 200 (nfev o1)) eqn:Eb.
      { left. exists 1%nat. split; [lia |]. split; [lia |]. split.
        - intros j Hj. assert (j = 0)%nat by lia. subst j. exact H0.
        - right. exists o1, s1. split.
          + cbn [IntPES.after_steps]. rewrite (bind_run _ _ _ E1).
            reflexivity.
          + left. apply Nat.ltb_lt. exact Eb. }
      apply Nat.ltb_ge in Eb.
      destruct (status o1) eqn:Es1;
        [| left; exists 1%nat; split; [lia |]; split; [lia |]; split;
           [intros j Hj; assert (j = 0)%nat by lia; subst j; exact H0
           | right; exists o1, s1; split;
             [cbn [IntPES.after_steps]; rewrite (bind_run _ _ _ E1);
              reflexivity
             | right; rewrite Es1; discriminate]] ..].
      destruct (IH o1 s1 Es1) as [(K & HK1 & HK2 & Hrun & Hend) | Hall].
      * left. exists (S K). split; [lia |]. split; [lia |]. split.
        -- intros j Hj. destruct j as [| j]; [exact H0 |].
           rewrite (@after_steps_S j o o1 s s1 E1).
           destruct (Hrun j ltac:(lia)) as (oj & sj & Ej & Hrj & Hnj).
           exists oj, sj. split; [exact Ej |]. split; [exact Hrj |].
           intros _. destruct j as [| j].
           ++ cbn [IntPES.after_steps] in Ej. unfold ret in Ej.
              inversion Ej; subst. exact Eb.
           ++ apply Hnj. lia.
        -- rewrite (@after_steps_S K o o1 s s1 E1). exact Hend.
      * right. intros j Hj. destruct j as [| j]; [exact H0 |].
        rewrite (@after_steps_S j o o1 s s1 E1).
        destruct (Hall j ltac:(lia)) as (oj & sj & Ej & Hrj & Hnj).
        exists oj, sj. split; [exact Ej |]. split; [exact Hrj |].
        intros _. destruct j as [| j].
        -- cbn [IntPES.after_steps] in Ej. unfold ret in Ej.
           inversion Ej; subst. exact Eb.
        -- apply Hnj. lia.
    + left. exists 1%nat. split; [lia |]. split; [lia |]. split.
      * intros j Hj. assert (j = 0)%nat by lia. subst j. exact H0.
      * left. exists e, s1. cbn [IntPES.after_steps].
        apply (bind_raise _ _ _ E1).
Qed.

(** The assignment up to the loop: the calls of [q] and [Binv], and the
    constructor of the solver. *)
Lemma set_x_unfold (fuel : nat) (target : vec) (s : PES) :
  IntPES.set_x fuel target s
  = match int_q (positions s) with
    | Raise e => (Raise e, s)
    | Ok q =>
        match int_Binv (positions s) with
        | Raise e => (Raise e, s)
        | Ok B =>
            let y0 :=
              ravel (positions s) ++ matvec B (int_q_wrap (vsub target q)) in
            if lsoda_accepts y0 then
              match IntPES.integrate fuel (mkOde running 0 0 y0) s with
              | (Raise e, s') => (Raise e, s')
              | (Ok None, s') => (Ok None, s')
              | (Ok (Some o), s') =>
                  match status o with
                  | failed => (Raise IntPES.did_not_converge, s')
                  | _ =>
                      match reshape3 (firstn (length (ravel (positions s)))
                                             (ode_y o)) with
                      | Some p =>
                          match assign_positions p s' with
                          | (Ok _, s'') => (Ok (Some tt), s'')
                          | (Raise e, s'') => (Raise e, s'')
                          end
                      | None =>
                          (Raise (ValueError "cannot reshape array"), s')
                      end
                  end
              end
            else (Raise IntPES.not_accepted, s)
        end
    end.
Proof.
  unfold IntPES.set_x, IntPES.x, IntPES.LSODA.
  unfold bind at 1. unfold get at 1.
  unfold bind at 1. unfold bind at 1. unfold get at 1. unfold lift at 1.
  destruct (int_q (positions s)) as [q | e]; [| reflexivity].
  unfold bind at 1. unfold lift at 1.
  destruct (int_Binv (positions s)) as [B | e]; [| reflexivity].
  cbv zeta. unfold bind at 1. unfold lift at 1.
  destruct (lsoda_accepts _); [| reflexivity].
  unfold bind at 1.
  destruct (IntPES.integrate fuel _ s) as [[[o |] | e] s']; try reflexivity.
  destruct (status o); try reflexivity;
    destruct (reshape3 _) as [p |]; try reflexivity;
    unfold bind, ret; destruct (assign_positions p s') as [[u | e] s''];
    reflexivity.
Qed.

(** The right-hand side on a state vector of the object's shape. *)
Lemma q_ode_unfold (t : float) (y : vec) (u : PES) (p : geometry)
    (D : vec -> vec -> vec) (B : matrix) :
  length y = (2 * (3 * length (positions u)))%nat ->
  reshape3 (firstn (3 * length (positions u)) y) = Some p ->
  int_D p = Ok D -> int_Binv p = Ok B ->
  IntPES._q_ode t y u
  = (Ok (skipn (3 * length (positions u)) y
         ++ matvec (mneg B)
                   (D (skipn (3 * length (positions u)) y)
                      (skipn (3 * length (positions u)) y))),
     with_positions p u).
Proof.
  intros Hl Hp HD HB. unfold IntPES._q_ode.
  assert (Hnx : (length y / 2 = 3 * length (positions u))%nat).
  { rewrite Hl, Nat.mul_comm. apply Nat.div_mul. discriminate. }
  rewrite Hnx, Hp.
  assert (Hs : length (skipn (3 * length (positions u)) y)
               = (3 * length (positions u))%nat)
    by (rewrite length_skipn; lia).
  rewrite Hs, Nat.eqb_refl. cbn [orb negb].
  assert (Lp : length p = length (positions u)).
  { apply reshape3_Some in Hp. destruct Hp as [_ Hp].
    rewrite length_firstn in Hp. lia. }
  unfold bind, assign_positions, get, lift, ret.
  rewrite Lp, Nat.eqb_refl. cbn [positions with_positions].
  rewrite HD, HB.
  rewrite firstn_all2 by lia. reflexivity.
Qed.

(** C9 (as amended).  The assignment calls [q] and [Binv] at the
    geometry and builds the solver on the initial state
    [y0 = (pos0, Binv @ q_wrap(target - q))] with the right-hand side
    [_q_ode], which on a state [(x, v)] moves the atoms to [x] and
    returns [(v, -Binv(x) @ D(x).ddot(v, v))]; an exception of [q], of
    [Binv] or of the constructor goes through and leaves the object as it
    was.  Let the calls of [step] before the [K]-th return with the solver
    running and within 200 evaluations.  If the [K]-th call raises, the
    assignment raises that.  If it returns with the solver in state [oK],
    stopped or beyond 200 evaluations, the assignment raises RuntimeError
    when [oK] has more than 200 evaluations or reports [failed]; else it
    writes the first half of [oK.y] into the positions, and this is all
    that makes it raise when [oK.y] has the length of [y0] and the number
    of atoms is as before.  Every run has such a [K] among its first
    [fuel] calls, or is still running after them. *)
Theorem retraction_raises_exactly_on_budget_or_failure
    (fuel : nat) (target : vec) (s : PES) :
  (forall e : exn,
      int_q (positions s) = Raise e ->
      IntPES.set_x fuel target s = (Raise e, s))
  /\ (forall (q : vec) (e : exn),
        int_q (positions s) = Ok q -> int_Binv (positions s) = Raise e ->
        IntPES.set_x fuel target s = (Raise e, s))
  /\ (forall (q : vec) (B : matrix),
        int_q (positions s) = Ok q -> int_Binv (positions s) = Ok B ->
        let nx := length (ravel (positions s)) in
        let y0 :=
          ravel (positions s) ++ matvec B (int_q_wrap (vsub target q)) in
        let o0 := mkOde running 0 0 y0 in
        (lsoda_accepts y0 = false ->
         IntPES.set_x fuel target s = (Raise IntPES.not_accepted, s))
        /\ (lsoda_accepts y0 = true ->
            forall K : nat,
              (1 <= K)%nat -> (K <= fuel)%nat ->
              (forall j, (j < K)%nat ->
                 exists oj sj,
                   IntPES.after_steps j o0 s = (Ok oj, sj)
                   /\ status oj = running
                   /\ ((1 <= j)%nat -> (nfev oj <= 200)%nat)) ->
              (forall (e : exn) (sK : PES),
                  IntPES.after_steps K o0 s = (Raise e, sK) ->
                  IntPES.set_x fuel target s = (Raise e, sK))
              /\ (forall (oK : ode) (sK : PES),
                    IntPES.after_steps K o0 s = (Ok oK, sK) ->
                    (200 < nfev oK)%nat \/ status oK <> running ->
                    IntPES.set_x fuel target s
                    = (if Nat.ltb 200 (nfev oK)
                       then (Raise IntPES.too_long, sK)
                       else
                         match status oK with
                         | failed => (Raise IntPES.did_not_converge, sK)
                         | _ =>
                             match reshape3 (firstn nx (ode_y oK)) with
                             | Some p =>
                                 match assign_positions p sK with
                                 | (Ok _, s') => (Ok (Some tt), s')
                                 | (Raise e, s') => (Raise e, s')
                                 end
                             | None =>
                                 (Raise (ValueError "cannot reshape array"),
                                  sK)
                             end
                         end)
                    /\ (length (ode_y oK) = length y0 ->
                        length (positions sK) = length (positions s) ->
                        exists p : geometry,
                          ravel p = firstn nx (ode_y oK)
                          /\ IntPES.set_x fuel target s
                             = (if Nat.ltb 200 (nfev oK)
                                then (Raise IntPES.too_long, sK)
                                else
                                  match status oK with
                                  | failed =>
                                      (Raise IntPES.did_not_converge, sK)
                                  | _ => (Ok (Some tt), with_positions p sK)
                                  end)
                          /\ ((exists e,
                                  fst (IntPES.set_x fuel target s) = Raise e)
                              <-> ((200 < nfev oK)%nat
                                   \/ status oK = failed)))))
        /\ ((exists K : nat,
                (1 <= K)%nat /\ (K <= fuel)%nat
                /\ (forall j, (j < K)%nat ->
                      exists oj sj,
                        IntPES.after_steps j o0 s = (Ok oj, sj)
                        /\ status oj = running
                        /\ ((1 <= j)%nat -> (nfev oj <= 200)%nat))
                /\ ((exists e sK,
                        IntPES.after_steps K o0 s = (Raise e, sK))
                    \/ (exists oK sK,
                           IntPES.after_steps K o0 s = (Ok oK, sK)
                           /\ ((200 < nfev oK)%nat
                               \/ status oK <> running))))
            \/ (forall j, (j <= fuel)%nat ->
                  exists oj sj,
                    IntPES.after_steps j o0 s = (Ok oj, sj)
                    /\ status oj = running
                    /\ ((1 <= j)%nat -> (nfev oj <= 200)%nat))))
  /\ (forall (t : float) (y : vec) (u : PES) (p : geometry)
             (D : vec -> vec -> vec) (B : matrix),
        length y = (2 * (3 * length (positions u)))%nat ->
        reshape3 (firstn (3 * length (positions u)) y) = Some p ->
        int_D p = Ok D -> int_Binv p = Ok B ->
        IntPES._q_ode t y u
        = (Ok (skipn (3 * length (positions u)) y
               ++ matvec (mneg B)
                         (D (skipn (3 * length (positions u)) y)
                            (skipn (3 * length (positions u)) y))),
           with_positions p u)).
Proof.
  pose proof (set_x_unfold fuel target s) as U.
  split; [| split; [| split; [| exact q_ode_unfold]]].
  - intros e E. rewrite E in U. exact U.
  - intros q e Eq EB. rewrite Eq, EB in U. exact U.
  - intros q B Eq EB nx y0 o0. rewrite Eq, EB in U. cbv zeta in U.
    fold y0 in U. fold o0 in U. fold nx in U.
    split; [| split; [| exact (every_run fuel o0 s eq_refl)]].
    + intros Ea. rewrite Ea in U. exact U.
    + intros Ea K HK Hf Hrun. rewrite Ea in U. split.
      * intros e sK HKth.
        rewrite (@integrate_raises K fuel o0 s sK e HK Hf Hrun HKth) in U.
        exact U.
      * intros oK sK HKth Hstop.
        rewrite (@integrate_stops K fuel o0 oK s sK HK Hf Hrun HKth Hstop)
          in U.
        assert (Hset :
          IntPES.set_x fuel target s
          = (if Nat.ltb 200 (nfev oK)
             then (Raise IntPES.too_long, sK)
             else
               match status oK with
               | failed => (Raise IntPES.did_not_converge, sK)
               | _ =>
                   match reshape3 (firstn nx (ode_y oK)) with
                   | Some p =>
                       match assign_positions p sK with
                       | (Ok _, s') => (Ok (Some tt), s')
                       | (Raise e, s') => (Raise e, s')
                       end
                   | None =>
                       (Raise (ValueError "cannot reshape array"), sK)
                   end
               end)).
        { rewrite U. destruct (Nat.ltb 200 (nfev oK)); [reflexivity |].
          destruct (status oK); reflexivity. }
        split; [exact Hset |].
        intros Hy Hn.
        destruct (@reshape3_total (firstn nx (ode_y oK))
                    (length (positions s))) as (p & Ep & Lp & Rp).
        { rewrite length_firstn, Hy. unfold y0. rewrite length_app.
          unfold nx. rewrite length_ravel. lia. }
        exists p. split; [exact Rp |].
        assert (Hset' :
          IntPES.set_x fuel target s
          = (if Nat.ltb 200 (nfev oK)
             then (Raise IntPES.too_long, sK)
             else
               match status oK with
               | failed => (Raise IntPES.did_not_converge, sK)
               | _ => (Ok (Some tt), with_positions p sK)
               end)).
        { rewrite Hset, Ep. unfold assign_positions.
          rewrite Lp, <- Hn, Nat.eqb_refl. reflexivity. }
        split; [exact Hset' |].
        rewrite Hset'. split.
        -- intros [e He].
           destruct (Nat.ltb 200 (nfev oK)) eqn:Eb.
           ++ left. apply Nat.ltb_lt. exact Eb.
           ++ destruct (status oK); try discriminate He. right. reflexivity.
        -- intros [Hgt | Hs].
           ++ apply Nat.ltb_lt in Hgt. rewrite Hgt. eexists. reflexivity.
           ++ destruct (Nat.ltb 200 (nfev oK)); [eexists; reflexivity |].
              rewrite Hs. eexists. reflexivity.
Qed.

End Retraction.

(** C9 at a retraction in the curvilinear coordinates, from [(1, 0, 0)]
    to the coordinates [(4, 2, 6)], which the integrator finishes in two
    steps: the geometry reached is that of the two Euler steps of the
    retraction equation from [y0 = (1, 0, 0, 1, 1, 3)]. *)
Lemma retraction_witness :
  IntPES.after_steps (internal := Toy.stretched)
    (integrator := Toy.integrator) 2
    (mkOde running 0 0 [1; 0; 0; 1; 1; 3]) (Toy.fresh [(1, 0, 0)])
  = (Ok Toy.stretched_end, Toy.stretched_object)
  /\ ode_y Toy.stretched_end
     = [1.875; 0.875; 1.875; 0.609375; 0.609375; 0.609375]
  /\ IntPES.set_x (internal := Toy.stretched) (integrator := Toy.integrator)
       5 [4; 2; 6] (Toy.fresh [(1, 0, 0)])
     = (Ok (Some tt),
        with_positions [(1.875, 0.875, 1.875)] Toy.stretched_object).
Proof.
  assert (HK : IntPES.after_steps (internal := Toy.stretched)
                 (integrator := Toy.integrator) 2
                 (mkOde running 0 0 [1; 0; 0; 1; 1; 3])
                 (Toy.fresh [(1, 0, 0)])
               = (Ok Toy.stretched_end, Toy.stretched_object))
    by (vm_compute; reflexivity).
  split; [exact HK | split; [reflexivity |]].
  pose proof (@retraction_raises_exactly_on_budget_or_failure
                Toy.stretched Toy.integrator 5 [4; 2; 6]
                (Toy.fresh [(1, 0, 0)])) as W.
  destruct W as (_ & _ & W & _).
  specialize (W [2; 0; 0] [[0.5; 0; 0]; [0; 0.5; 0]; [0; 0; 0.5]]
                ltac:(vm_compute; reflexivity) ltac:(vm_compute; reflexivity)).
  cbv zeta in W. destruct W as (_ & W & _).
  specialize (W ltac:(vm_compute; reflexivity) 2%nat ltac:(lia) ltac:(lia)).
  assert (Hrun : forall j, (j < 2)%nat ->
            exists oj sj,
              IntPES.after_steps (internal := Toy.stretched)
                (integrator := Toy.integrator) j
                (mkOde running 0 0
                   (ravel (positions (Toy.fresh [(1, 0, 0)]))
                    ++ matvec [[0.5; 0; 0]; [0; 0.5; 0]; [0; 0; 0.5]]
                         (int_q_wrap (InternalAPI := Toy.stretched)
                            (vsub [4; 2; 6] [2; 0; 0]))))
                (Toy.fresh [(1, 0, 0)])
              = (Ok oj, sj)
              /\ status oj = running
              /\ ((1 <= j)%nat -> (nfev oj <= 200)%nat)).
  { intros j Hj. destruct j as [| [| j]]; [| | lia].
    - eexists. eexists. split; [vm_compute; reflexivity |].
      split; [reflexivity | intros H; inversion H].
    - eexists. eexists. split; [vm_compute; reflexivity |].
      split; [reflexivity | intros _; cbn; lia]. }
  destruct (W Hrun) as (_ & W2).
  destruct (W2 Toy.stretched_end Toy.stretched_object
               ltac:(vm_compute; reflexivity)
               ltac:(right; discriminate))
    as (_ & W3).
  destruct (W3 ltac:(vm_compute; reflexivity) ltac:(vm_compute; reflexivity))
    as (p & Ep & Es & _).
  assert (Hp : p = [(1.875, 0.875, 1.875)]).
  { assert (E : reshape3 (ravel p) = Some [(1.875, 0.875, 1.875)])
      by (rewrite Ep; vm_compute; reflexivity).
    rewrite reshape3_ravel in E. inversion E. reflexivity. }
  subst p. exact Es.
Defined.

(** C9 (as stated) fails when a call of [step] raises.  In the
    curvilinear coordinates the first Euler step from [(2.5, 0, 0)] goes
    beyond [x = 3], where [Binv] raises inside the right-hand side: the
    assignment raises that LinAlgError, which is neither of its two
    RuntimeErrors, after one evaluation and with the solver running, and
    it leaves the atoms where the right-hand side put them. *)
Lemma a_failing_right_hand_side_goes_through :
  IntPES.after_steps (internal := Toy.stretched)
    (integrator := Toy.integrator) 1
    (mkOde running 0 0 [2.5; 0; 0; 1.5; 0; 0]) (Toy.fresh [(2.5, 0, 0)])
  = (Ok (mkOde running 1 0.5 [3.25; 0; 0; 0.9375; 0; 0]),
     Toy.fresh [(2.5, 0, 0)])
  /\ IntPES.set_x (internal := Toy.stretched) (integrator := Toy.integrator)
       5 [8; 0; 0] (Toy.fresh [(2.5, 0, 0)])
     = (Raise LinAlgError,
        with_positions [(3.25, 0, 0)] (Toy.fresh [(2.5, 0, 0)]))
  /\ LinAlgError <> IntPES.too_long
  /\ LinAlgError <> IntPES.did_not_converge.
Proof.
  split; [vm_compute; reflexivity |].
  split; [vm_compute; reflexivity |].
  split; discriminate.
Qed.

(** ** The root-find of [rs_newton_irc] *)

Section RootFindProps.

Variables (L : vec) (V : matrix) (Vg Vd1 d1mw : vec) (dx : float).

#[local] Abbreviation iteration := (irc.iteration L V Vg Vd1 d1mw dx).
#[local] Abbreviation loop := (irc.loop L V Vg Vd1 d1mw dx).
#[local] Abbreviation state_at := (irc.state_at L V Vg Vd1 d1mw dx).
#[local] Abbreviation converged := (irc.converged L V Vg Vd1 d1mw dx).
#[local] Abbreviation bracket := (irc.bracket L V Vg Vd1 d1mw dx).
#[local] Abbreviation leaves := (irc.leaves L V Vg Vd1 d1mw dx).
#[local] Abbreviation next_xi := (irc.next_xi L V Vg Vd1 d1mw dx).
#[local] Abbreviation shifted_epsmw := (irc.shifted_epsmw L V Vg Vd1).

Lemma iteration_Break (xi lo : float) (up : option float) :
  leaves xi lo up = true ->
  iteration xi lo up = irc.Break (shifted_epsmw xi) xi.
Proof.
  unfold irc.leaves, irc.iteration. intros H.
  destruct (converged xi); [reflexivity |].
  cbn [orb] in H. cbv zeta. rewrite H. reflexivity.
Qed.

Lemma iteration_Continue (xi lo : float) (up : option float) :
  leaves xi lo up = false ->
  iteration xi lo up
  = irc.Continue
      (next_xi xi (fst (bracket xi lo up)) (snd (bracket xi lo up)))
      (fst (bracket xi lo up)) (snd (bracket xi lo up)).
Proof.
  unfold irc.leaves, irc.iteration. intros H.
  apply orb_false_iff in H. destruct H as [Hc Hb].
  rewrite Hc. cbv zeta. rewrite Hb. reflexivity.
Qed.

Lemma state_at_S (k : nat) (xi lo : float) (up : option float) :
  leaves xi lo up = false ->
  state_at (S k) xi lo up
  = state_at k (next_xi xi (fst (bracket xi lo up)) (snd (bracket xi lo up)))
             (fst (bracket xi lo up)) (snd (bracket xi lo up)).
Proof.
  intros H. cbn [irc.state_at]. rewrite (iteration_Continue _ _ _ H).
  reflexivity.
Qed.

(** What the loop returns is the step at the [xi] of the pass that left
    it. *)
Lemma loop_Some (n : nat) :
  forall (xi lo : float) (up : option float) (eps : vec) (xi' : float),
    loop n xi lo up = Some (eps, xi') ->
    exists k lo' up',
      (k < n)%nat
      /\ state_at k xi lo up = Some (xi', lo', up')
      /\ eps = shifted_epsmw xi'
      /\ leaves xi' lo' up' = true.
Proof.
  induction n as [| n IH]; intros xi lo up eps xi' H; [discriminate H |].
  cbn [irc.loop] in H.
  destruct (leaves xi lo up) eqn:El.
  - rewrite (iteration_Break _ _ _ El) in H. inversion H; subst.
    exists 0%nat, lo, up. repeat split; [lia | exact El].
  - rewrite (iteration_Continue _ _ _ El) in H.
    destruct (IH _ _ _ _ _ H) as (k & lo' & up' & Hk & Hs & He & Hl).
    exists (S k), lo', up'. rewrite (state_at_S _ _ _ _ El).
    repeat split; try assumption. lia.
Qed.

(** The loop runs out exactly when no pass leaves it. *)
Lemma loop_None (n : nat) :
  forall (xi lo : float) (up : option float),
    loop n xi lo up = None
    <-> (forall k, (k < n)%nat ->
           exists xi' lo' up',
             state_at k xi lo up = Some (xi', lo', up')
             /\ leaves xi' lo' up' = false).
Proof.
  induction n as [| n IH]; intros xi lo up.
  - split; [intros _ k Hk; lia | reflexivity].
  - cbn [irc.loop]. destruct (leaves xi lo up) eqn:El.
    + rewrite (iteration_Break _ _ _ El). split; [discriminate |].
      intros H. destruct (H 0%nat ltac:(lia)) as (a & b & c & Hs & Hl).
      cbn [irc.state_at] in Hs. inversion Hs; subst. congruence.
    + rewrite (iteration_Continue _ _ _ El). rewrite IH. split.
      * intros H k Hk. destruct k as [| k].
        -- exists xi, lo, up. split; [reflexivity | exact El].
        -- rewrite (state_at_S _ _ _ _ El). apply H. lia.
      * intros H k Hk. rewrite <- (state_at_S _ _ _ _ El). apply H. lia.
Qed.

End RootFindProps.

(** ** Signs of IEEE sums, halves and differences

    From the specification of the primitive operations
    ([add_spec], [sub_spec], [div_spec], [ltb_spec], [leb_spec]). *)

Unset Implicit Arguments.

(** Rounding keeps the sign it is given. *)
Lemma binary_round_aux_sign s m e l :
  match binary_round_aux prec emax s m e l with
  | S754_nan | S754_zero _ => True
  | S754_infinity s' | S754_finite s' _ _ => s' = s
  end.
Proof.
  unfold binary_round_aux.
  destruct (shr_fexp prec emax m e l) as [mrs' e'].
  destruct (shr_fexp prec emax _ e' loc_Exact) as [mrs'' e''].
  destruct (shr_m mrs''); try exact I.
  destruct (Z.leb e'' (emax - prec)); reflexivity.
Qed.

Lemma binary_round_sign s m e :
  match binary_round prec emax s m e with
  | S754_nan | S754_zero _ => True
  | S754_infinity s' | S754_finite s' _ _ => s' = s
  end.
Proof.
  unfold binary_round.
  destruct (shl_align m e _) as [mz ez]. apply binary_round_aux_sign.
Qed.

Lemma nn_add x y : Ieee.nn x -> Ieee.nn y -> Ieee.nn (SF64add x y).
Proof.
  unfold SF64add, SFadd.
  destruct x as [sx | sx | | sx mx ex], y as [sy | sy | | sy my ey];
    cbn; intros Hx Hy; subst; try exact I; try reflexivity.
  - destruct sx, sy; exact I.
  - unfold binary_normalize. cbn [cond_Zopp Z.add].
    match goal with
    | |- Ieee.nn (binary_round _ _ _ ?m ?e) =>
        pose proof (binary_round_sign false m e) as H;
        destruct (binary_round prec emax false m e); cbn; auto
    end.
Qed.

Lemma nn_half x :
  Ieee.nn x ->
  Ieee.nn (SF64div x (S754_finite false 4503599627370496 (-51))).
Proof.
  unfold SF64div, SFdiv.
  destruct x as [sx | sx | | sx mx ex]; cbn [Ieee.nn]; intros Hx; subst;
    try exact I; try reflexivity.
  destruct (SFdiv_core_binary prec emax (Z.pos mx) ex _ _) as [[mz ez] lz].
  cbn [xorb].
  pose proof (binary_round_aux_sign false mz ez lz) as H.
  destruct (binary_round_aux prec emax false mz ez lz); cbn; auto.
Qed.

Lemma SFcompare_refl x : x <> S754_nan -> SFcompare x x = Some Eq.
Proof.
  destruct x as [s | s | | s m e]; cbn; intros H.
  - reflexivity.
  - destruct s; reflexivity.
  - contradiction H; reflexivity.
  - destruct s; rewrite Z.compare_refl, Pos.compare_cont_refl; reflexivity.
Qed.

Lemma shl_align_same m e : shl_align m e e = (m, e).
Proof. unfold shl_align. rewrite Z.sub_diag. reflexivity. Qed.

(** The difference of two values that compare equal is a zero, or NaN
    (for two infinities). *)
Lemma zn_sub_eq x y : SFcompare x y = Some Eq -> Ieee.zn (SF64sub x y).
Proof.
  unfold SF64sub, SFsub.
  destruct x as [sx | sx | | sx mx ex], y as [sy | sy | | sy my ey];
    cbn [SFcompare]; intros H; cbn [Ieee.zn];
    repeat match goal with s : bool |- _ => destruct s end;
    try discriminate H; try exact I.
  all: destruct (Z.compare ex ey) eqn:Ec; try discriminate H;
    apply Z.compare_eq in Ec;
    destruct (Pos.compare_cont Eq mx my) eqn:Em; try discriminate H;
    apply Pos.compare_eq in Em; subst;
    rewrite Z.min_id, shl_align_same; cbn [fst cond_Zopp];
    rewrite Z.sub_diag; exact I.
Qed.

Lemma zn_sub_self x : Ieee.zn (SF64sub x x).
Proof.
  destruct x as [s | s | | s m e] eqn:E;
    try (destruct s; exact I); try exact I.
  apply zn_sub_eq. apply SFcompare_refl. discriminate.
Qed.

Lemma zn_nn z : Ieee.zn z -> Ieee.nn z.
Proof. destruct z; cbn; tauto. Qed.

(** Adding a zero changes no comparison. *)
Lemma compare_add_zn x z y :
  Ieee.zn z ->
  SF64add x z = S754_nan \/ SFcompare (SF64add x z) y = SFcompare x y.
Proof.
  unfold SF64add, SFadd.
  destruct z as [sz | sz | | sz mz ez]; cbn [Ieee.zn]; intros H;
    try contradiction.
  - destruct x as [sx | sx | | sx mx ex]; right; try reflexivity.
    destruct sx, sz; destruct y; reflexivity.
  - destruct x; left; reflexivity.
Qed.

(** What is not [<=] a value that is [>= 0] is not negative. *)
Lemma leb_false_nn a b :
  Ieee.nn b -> b <> S754_nan -> SFleb a b = false -> Ieee.nn a.
Proof.
  unfold SFleb.
  destruct a as [sa | sa | | sa ma ea], b as [sb | sb | | sb mb eb];
    cbn; intros Hb Hn H; subst; try exact I; try congruence;
    destruct sa; try reflexivity; try discriminate H.
Qed.

Lemma ltb_leb a b : SFltb a b = true -> SFleb a b = true.
Proof.
  unfold SFltb, SFleb. destruct (SFcompare a b) as [[ | | ] |]; congruence.
Qed.

Lemma Prim2SF_0 : Prim2SF 0 = S754_zero false.
Proof. reflexivity. Qed.

Lemma Prim2SF_2 : Prim2SF 2 = S754_finite false 4503599627370496 (-51).
Proof. reflexivity. Qed.

(** The same facts on floats. *)
Lemma NotNeg_nonneg x : Ieee.NotNeg x <-> (x <? 0) = false.
Proof.
  unfold Ieee.NotNeg. rewrite ltb_spec, Prim2SF_0. unfold SFltb.
  destruct (Prim2SF x) as [s | s | | s m e]; cbn; try tauto;
    destruct s; split; intros H; try reflexivity; try discriminate H.
Qed.

Lemma IsNaN_NotNeg x : Ieee.IsNaN x -> Ieee.NotNeg x.
Proof. unfold Ieee.IsNaN, Ieee.NotNeg. intros ->. exact I. Qed.

Lemma NotNeg_add a b :
  Ieee.NotNeg a -> Ieee.NotNeg b -> Ieee.NotNeg (a + b).
Proof. unfold Ieee.NotNeg. rewrite add_spec. apply nn_add. Qed.

Lemma NotNeg_half a : Ieee.NotNeg a -> Ieee.NotNeg (a / 2).
Proof. unfold Ieee.NotNeg. rewrite div_spec, Prim2SF_2. apply nn_half. Qed.

Lemma IsNaN_add_l a b : Ieee.IsNaN a -> Ieee.IsNaN (a + b).
Proof. unfold Ieee.IsNaN. rewrite add_spec. intros ->. reflexivity. Qed.

Lemma IsNaN_add_r a b : Ieee.IsNaN b -> Ieee.IsNaN (a + b).
Proof.
  unfold Ieee.IsNaN. rewrite add_spec. intros ->.
  destruct (Prim2SF a); reflexivity.
Qed.

Lemma IsNaN_half a : Ieee.IsNaN a -> Ieee.IsNaN (a / 2).
Proof. unfold Ieee.IsNaN. rewrite div_spec. intros ->. reflexivity. Qed.

Lemma IsNaN_dec x : Ieee.IsNaN x \/ ~ Ieee.IsNaN x.
Proof.
  unfold Ieee.IsNaN.
  destruct (Prim2SF x); (left; reflexivity) || (right; discriminate).
Qed.

Lemma leb_false_NotNeg a b :
  Ieee.NotNeg b -> ~ Ieee.IsNaN b -> (a <=? b) = false -> Ieee.NotNeg a.
Proof.
  unfold Ieee.NotNeg, Ieee.IsNaN. rewrite leb_spec. apply leb_false_nn.
Qed.

Lemma ltb_false_of_leb a b : (a <=? b) = false -> (a <? b) = false.
Proof.
  rewrite leb_spec, ltb_spec. intros H.
  destruct (SFltb (Prim2SF a) (Prim2SF b)) eqn:E; [| reflexivity].
  apply ltb_leb in E. congruence.
Qed.

Lemma leb_true_not_IsNaN a b :
  (a <=? b) = true -> ~ Ieee.IsNaN a /\ ~ Ieee.IsNaN b.
Proof.
  rewrite leb_spec. unfold Ieee.IsNaN, SFleb. intros H.
  split; intros E; rewrite E in H; cbn in H; try discriminate H.
  destruct (Prim2SF a); discriminate H.
Qed.

Lemma zn_sub_same a : Ieee.zn (Prim2SF (a - a)).
Proof. rewrite sub_spec. apply zn_sub_self. Qed.

Lemma zn_sub_equal a b :
  (a <=? b) = true -> (a <? b) = false -> Ieee.zn (Prim2SF (a - b)).
Proof.
  rewrite leb_spec, ltb_spec, sub_spec. unfold SFleb, SFltb. intros Hle Hlt.
  apply zn_sub_eq.
  destruct (SFcompare (Prim2SF a) (Prim2SF b)) as [[ | | ] |]; congruence.
Qed.

Lemma NotNeg_add_zn a z :
  Ieee.NotNeg a -> Ieee.zn (Prim2SF z) -> Ieee.NotNeg (a + z).
Proof.
  intros Ha Hz. apply NotNeg_add; [exact Ha | apply zn_nn; exact Hz].
Qed.

Lemma add_zn_compare a z :
  Ieee.zn (Prim2SF z) ->
  Ieee.IsNaN (a + z)
  \/ forall y, (a + z <? y) = (a <? y) /\ (a + z <=? y) = (a <=? y).
Proof.
  intros Hz. unfold Ieee.IsNaN. rewrite add_spec.
  destruct (compare_add_zn (Prim2SF a) (Prim2SF z) S754_nan Hz) as [E | _];
    [left; exact E |].
  destruct (IsNaN_dec (a + z)) as [E | E];
    [left; rewrite <- add_spec; exact E |].
  right. intros y. rewrite !ltb_spec, !leb_spec, add_spec.
  unfold SFltb, SFleb.
  destruct (compare_add_zn (Prim2SF a) (Prim2SF z) (Prim2SF y) Hz)
    as [E' | ->].
  - contradiction E. unfold Ieee.IsNaN. rewrite add_spec. exact E'.
  - split; reflexivity.
Qed.

Lemma ltb_irrefl a : (a <? a) = false.
Proof.
  rewrite ltb_spec. unfold SFltb.
  destruct (Prim2SF a) as [s | s | | s m e] eqn:E; try reflexivity.
  - destruct s; reflexivity.
  - rewrite SFcompare_refl by discriminate. reflexivity.
Qed.

(** A value neither below nor above zero is a zero, or NaN. *)
Lemma zn_of_sign d :
  (d <? 0) = false -> (0 <? d) = false -> Ieee.zn (Prim2SF d).
Proof.
  rewrite !ltb_spec, Prim2SF_0. unfold SFltb.
  destruct (Prim2SF d) as [s | s | | s m e]; cbn; intros H1 H2; try exact I;
    destruct s; discriminate.
Qed.

(** ** The sign of [xi] through the search *)

Section BracketInvariant.

Variables (L : vec) (V : matrix) (Vg Vd1 d1mw : vec) (dx : float).

(** A Newton proposal that is accepted is not negative. *)
Lemma accepted_NotNeg xi lo d :
  Ieee.NotNeg lo -> (Ieee.IsNaN lo -> Ieee.IsNaN xi) ->
  (xi + d <=? lo) = false -> Ieee.NotNeg (xi + d).
Proof.
  intros Hlo Hn Hle. destruct (IsNaN_dec lo) as [E | E].
  - apply IsNaN_NotNeg, IsNaN_add_l, Hn, E.
  - exact (leb_false_NotNeg _ _ Hlo E Hle).
Qed.

(** A pass that stays in the loop keeps [bracket_ok]. *)
Lemma next_ok xi lo up :
  irc.bracket_ok xi lo up ->
  irc.bracket_ok
    (irc.next_xi L V Vg Vd1 d1mw dx xi
       (fst (irc.bracket L V Vg Vd1 d1mw dx xi lo up))
       (snd (irc.bracket L V Vg Vd1 d1mw dx xi lo up)))
    (fst (irc.bracket L V Vg Vd1 d1mw dx xi lo up))
    (snd (irc.bracket L V Vg Vd1 d1mw dx xi lo up)).
Proof.
  intros (Hxi & Hlo & Hup & Hn).
  unfold irc.bracket, irc.next_xi.
  set (d := irc.dxi L V Vg Vd1 d1mw dx xi).
  destruct (d <? 0) eqn:Eneg; [| destruct (0 <? d) eqn:Epos]; cbn [fst snd].
  - (* xiupper = xi *)
    destruct ((xi + d <=? lo) || (xi <=? xi + d)) eqn:Ec.
    + repeat split.
      * apply NotNeg_half, NotNeg_add; assumption.
      * exact Hlo.
      * exact Hxi.
      * intros E. apply IsNaN_half, IsNaN_add_r, E.
    + apply orb_false_iff in Ec. destruct Ec as [Ec _]. repeat split.
      * exact (accepted_NotNeg _ _ _ Hlo Hn Ec).
      * exact Hlo.
      * exact Hxi.
      * intros E. apply IsNaN_add_l, Hn, E.
  - (* xilower = xi *)
    destruct up as [u |].
    + destruct ((xi + d <=? xi) || (u <=? xi + d)) eqn:Ec.
      * repeat split.
        -- apply NotNeg_half, NotNeg_add; assumption.
        -- exact Hxi.
        -- exact Hup.
        -- intros E. apply IsNaN_half, IsNaN_add_r, E.
      * apply orb_false_iff in Ec. destruct Ec as [Ec _]. repeat split.
        -- exact (accepted_NotNeg _ _ _ Hxi (fun E => E) Ec).
        -- exact Hxi.
        -- exact Hup.
        -- intros E. apply IsNaN_add_l, E.
    + rewrite orb_false_r. destruct (xi + d <=? xi) eqn:Ec.
      * pose proof (zn_sub_same xi) as Hz. repeat split.
        -- exact (NotNeg_add_zn _ _ Hxi Hz).
        -- exact Hxi.
        -- destruct (add_zn_compare xi (xi - xi) Hz) as [E | E].
           ++ rewrite ltb_spec. unfold Ieee.IsNaN in E. rewrite E.
              reflexivity.
           ++ rewrite (proj1 (E xi)). apply ltb_irrefl.
        -- intros E. apply IsNaN_add_l, E.
      * repeat split.
        -- exact (accepted_NotNeg _ _ _ Hxi (fun E => E) Ec).
        -- exact Hxi.
        -- exact (ltb_false_of_leb _ _ Ec).
        -- intros E. apply IsNaN_add_l, E.
  - (* the bracket stays *)
    destruct up as [u |].
    + destruct ((xi + d <=? lo) || (u <=? xi + d)) eqn:Ec.
      * repeat split.
        -- apply NotNeg_half, NotNeg_add; assumption.
        -- exact Hlo.
        -- exact Hup.
        -- intros E. apply IsNaN_half, IsNaN_add_r, E.
      * apply orb_false_iff in Ec. destruct Ec as [Ec _]. repeat split.
        -- exact (accepted_NotNeg _ _ _ Hlo Hn Ec).
        -- exact Hlo.
        -- exact Hup.
        -- intros E. apply IsNaN_add_l, Hn, E.
    + rewrite orb_false_r. destruct (xi + d <=? lo) eqn:Ec.
      * pose proof (zn_of_sign d Eneg Epos) as Hd.
        destruct (leb_true_not_IsNaN _ _ Ec) as [Hx1 Hl].
        destruct (add_zn_compare xi d Hd) as [E | E]; [contradiction |].
        rewrite (proj2 (E lo)) in Ec.
        pose proof (zn_sub_equal _ _ Ec Hup) as Hz. repeat split.
        -- exact (NotNeg_add_zn _ _ Hxi Hz).
        -- exact Hlo.
        -- destruct (add_zn_compare xi (xi - lo) Hz) as [E' | E'].
           ++ rewrite ltb_spec. unfold Ieee.IsNaN in E'. rewrite E'.
              reflexivity.
           ++ rewrite (proj1 (E' lo)). exact Hup.
        -- intros E'. contradiction.
      * repeat split.
        -- exact (accepted_NotNeg _ _ _ Hlo Hn Ec).
        -- exact Hlo.
        -- exact (ltb_false_of_leb _ _ Ec).
        -- intros E. apply IsNaN_add_l, Hn, E.
Qed.

(** So every state the loop reaches from such a start has it. *)
Lemma state_ok (k : nat) :
  forall xi lo up xi' lo' up',
    irc.bracket_ok xi lo up ->
    irc.state_at L V Vg Vd1 d1mw dx k xi lo up = Some (xi', lo', up') ->
    irc.bracket_ok xi' lo' up'.
Proof.
  induction k as [| k IH]; intros xi lo up xi' lo' up' Hok H.
  - cbn in H. inversion H; subst. exact Hok.
  - cbn [irc.state_at] in H.
    destruct (irc.leaves L V Vg Vd1 d1mw dx xi lo up) eqn:El.
    + rewrite (iteration_Break _ _ _ _ _ _ _ _ _ El) in H. discriminate H.
    + rewrite (iteration_Continue _ _ _ _ _ _ _ _ _ El) in H.
      exact (IH _ _ _ _ _ _ (next_ok _ _ _ Hok) H).
Qed.

End BracketInvariant.

Set Implicit Arguments.

(** ** [rs_newton_irc] *)

(** On an object without eigenpairs (no Hessian was ever assigned, or
    [None] was), the call ends at its first lines with numpy's
    ValueError, whatever else it is given. *)
Lemma rs_newton_irc_without_eigenpairs {lapack : Lapack}
    {cons : ConstraintsAPI} (pes : PES) (sqrtm : vec) (g : option vec)
    (d1 : vec) (dx xi : float) :
  (vecs pes = None ->
   irc.rs_newton_irc pes sqrtm g d1 dx xi = Raise irc.no_eigenvectors)
  /\ (vecs pes <> None -> lams pes = None ->
      irc.rs_newton_irc pes sqrtm g d1 dx xi = Raise irc.no_eigenvalues).
Proof.
  unfold irc.rs_newton_irc. split.
  - intros ->. reflexivity.
  - intros Hv ->. destruct (vecs pes); [reflexivity |].
    contradiction Hv. reflexivity.
Qed.

Section NewtonProps.

Context {lapack : Lapack} {cons : ConstraintsAPI}.

Variables (pes : PES) (sqrtm g d1 : vec) (dx xi : float).
Variables (Lcart : vec) (v : matrix).

Hypothesis lams_set : lams pes = Some Lcart.
Hypothesis vecs_set : vecs pes = Some v.

(** The mass-weighted quantities of the source, by its names; those
    that come after [eigh] are given for what it returned. *)
Let Hmw : matrix := irc.Hmw Lcart v (CartPES.Ufree pes) sqrtm.
Let gmw : vec := vdiv g sqrtm.
Let d1mw : vec := vmul d1 sqrtm.
Let L (Lv : vec * matrix) : vec := fst (irc.retain Lv).
Let V (Lv : vec * matrix) : matrix := snd (irc.retain Lv).
Let Vg (Lv : vec * matrix) : vec := matvec (transpose (V Lv)) gmw.
Let Vd1 (Lv : vec * matrix) : vec := matvec (transpose (V Lv)) d1mw.
Let epsmw (Lv : vec * matrix) : vec :=
  irc.unshifted_epsmw (L Lv) (V Lv) (Vg Lv).

(** What [eigh] raises goes through. *)
Lemma rs_newton_irc_raises (e : exn) :
  eigh Hmw = Raise e ->
  irc.rs_newton_irc pes sqrtm (Some g) d1 dx xi = Raise e.
Proof.
  intros E. unfold irc.rs_newton_irc, irc.retained.
  rewrite vecs_set, lams_set. fold Hmw. rewrite E. reflexivity.
Qed.

Lemma rs_newton_irc_refuses :
  all_finite Hmw = false ->
  irc.rs_newton_irc pes sqrtm (Some g) d1 dx xi = Raise not_finite.
Proof.
  intros E. apply rs_newton_irc_raises. unfold eigh. rewrite E. reflexivity.
Qed.

Lemma rs_newton_irc_unfold (Lv : vec * matrix) :
  eigh Hmw = Ok Lv ->
  irc.rs_newton_irc pes sqrtm (Some g) d1 dx xi
  = if norm (vadd d1mw (epsmw Lv)) <? dx
    then Ok (vdiv (epsmw Lv) sqrtm, xi, false)
    else match irc.loop (L Lv) (V Lv) (Vg Lv) (Vd1 Lv) d1mw dx 100 xi 0
                        None with
         | Some (e, xi') => Ok (vdiv e sqrtm, xi', true)
         | None => Raise (RuntimeError "IRC Newton step failed!")
         end.
Proof.
  intros E. unfold irc.rs_newton_irc, irc.retained.
  rewrite vecs_set, lams_set. fold Hmw. rewrite E. reflexivity.
Qed.

(** C1 (as amended).  On an object with eigenpairs, [rs_newton_irc]
    raises what [eigh] raises on the mass-weighted Hessian, which is a
    ValueError when that has a NaN or an infinity.  When [eigh] returns,
    the unshifted Newton step, with [xi] unchanged and
    [bound_clip = False], is what [rs_newton_irc] returns if and only if
    the mass-weighted norm of [d1 + eps] is strictly below [dx]. *)
Theorem unshifted_step_iff_strictly_below_bound :
  (forall e : exn,
      eigh Hmw = Raise e ->
      irc.rs_newton_irc pes sqrtm (Some g) d1 dx xi = Raise e)
  /\ (all_finite Hmw = false ->
      irc.rs_newton_irc pes sqrtm (Some g) d1 dx xi = Raise not_finite)
  /\ (forall Lv : vec * matrix,
        eigh Hmw = Ok Lv ->
        irc.rs_newton_irc pes sqrtm (Some g) d1 dx xi
        = Ok (vdiv (epsmw Lv) sqrtm, xi, false)
        <-> (norm (vadd d1mw (epsmw Lv)) <? dx) = true).
Proof.
  split; [exact rs_newton_irc_raises |].
  split; [exact rs_newton_irc_refuses |].
  intros Lv E. rewrite (rs_newton_irc_unfold E).
  destruct (norm (vadd d1mw (epsmw Lv)) <? dx); split; intros H;
    try reflexivity; try discriminate H.
  destruct (irc.loop (L Lv) (V Lv) (Vg Lv) (Vd1 Lv) d1mw dx 100 xi 0 None)
    as [[e xi'] |]; discriminate H.
Qed.

(** C2 (as amended).  On an object with eigenpairs, [rs_newton_irc]
    raises what [eigh] raises on the mass-weighted Hessian.  When [eigh]
    returns and the unshifted candidate is not below [dx], it either
    raises RuntimeError, or returns [bound_clip = True] with a multiplier
    reached by some pass [k < 100] of the loop and the step
    [-V((Vg + xi Vd1) / (L + xi))] at that multiplier, [L] holding the
    magnitudes of the eigenvalues; and at that pass the criterion
    [| ||d1 + eps|| - dx | < 1e-14 dx] holds or the bracket has
    collapsed.  The multiplier returned is not negative when the warm
    start is not. *)
Theorem shifted_step_when_not_below_bound :
  (forall e : exn,
      eigh Hmw = Raise e ->
      irc.rs_newton_irc pes sqrtm (Some g) d1 dx xi = Raise e)
  /\ (forall Lv : vec * matrix,
        eigh Hmw = Ok Lv ->
        (norm (vadd d1mw (epsmw Lv)) <? dx) = false ->
        irc.rs_newton_irc pes sqrtm (Some g) d1 dx xi
        = Raise (RuntimeError "IRC Newton step failed!")
        \/ exists (k : nat) (xi' lo : float) (up : option float),
             (k < 100)%nat
             /\ irc.state_at (L Lv) (V Lv) (Vg Lv) (Vd1 Lv) d1mw dx k xi 0
                             None
                = Some (xi', lo, up)
             /\ irc.rs_newton_irc pes sqrtm (Some g) d1 dx xi
                = Ok (vdiv (irc.shifted_epsmw (L Lv) (V Lv) (Vg Lv) (Vd1 Lv)
                                              xi')
                           sqrtm,
                      xi', true)
             /\ (irc.converged (L Lv) (V Lv) (Vg Lv) (Vd1 Lv) d1mw dx xi'
                 = true
                 \/ irc.collapsed
                      (fst (irc.bracket (L Lv) (V Lv) (Vg Lv) (Vd1 Lv) d1mw
                                        dx xi' lo up))
                      (snd (irc.bracket (L Lv) (V Lv) (Vg Lv) (Vd1 Lv) d1mw
                                        dx xi' lo up))
                    = true)
             /\ ((xi <? 0) = false -> (xi' <? 0) = false)).
Proof.
  split; [exact rs_newton_irc_raises |].
  intros Lv E Hfar. rewrite (rs_newton_irc_unfold E), Hfar.
  destruct (irc.loop (L Lv) (V Lv) (Vg Lv) (Vd1 Lv) d1mw dx 100 xi 0 None)
    as [[e xi'] |] eqn:El; [right | left; reflexivity].
  destruct (loop_Some _ _ _ _ _ _ _ _ _ _ El)
    as (k & lo & up & Hk & Hs & He & Hl).
  exists k, xi', lo, up. subst e.
  split; [exact Hk | split; [exact Hs | split; [reflexivity | split]]].
  - unfold irc.leaves in Hl. apply orb_true_iff in Hl. exact Hl.
  - intros Hxi.
    assert (Hok : irc.bracket_ok xi 0 None).
    { split; [| split; [| split]].
      - apply NotNeg_nonneg. exact Hxi.
      - unfold Ieee.NotNeg. rewrite Prim2SF_0. exact I.
      - exact Hxi.
      - intros E0. unfold Ieee.IsNaN in E0. rewrite Prim2SF_0 in E0.
        discriminate E0. }
    apply NotNeg_nonneg.
    exact (proj1 (state_ok (L Lv) (V Lv) (Vg Lv) (Vd1 Lv) d1mw dx k xi 0
                           None xi' lo up Hok Hs)).
Qed.

(** C3 (as amended).  On an object with eigenpairs, [rs_newton_irc]
    raises what [eigh] raises on the mass-weighted Hessian.  When [eigh]
    returns and the unshifted candidate is not below [dx], it raises its
    RuntimeError exactly when each of the 100 passes is reached and at
    none of them the criterion holds or the bracket has collapsed. *)
Theorem raises_iff_no_pass_leaves_the_loop :
  (forall e : exn,
      eigh Hmw = Raise e ->
      irc.rs_newton_irc pes sqrtm (Some g) d1 dx xi = Raise e)
  /\ (forall Lv : vec * matrix,
        eigh Hmw = Ok Lv ->
        (norm (vadd d1mw (epsmw Lv)) <? dx) = false ->
        irc.rs_newton_irc pes sqrtm (Some g) d1 dx xi
        = Raise (RuntimeError "IRC Newton step failed!")
        <-> (forall k, (k < 100)%nat ->
               exists (xi' lo : float) (up : option float),
                 irc.state_at (L Lv) (V Lv) (Vg Lv) (Vd1 Lv) d1mw dx k xi 0
                              None
                 = Some (xi', lo, up)
                 /\ irc.converged (L Lv) (V Lv) (Vg Lv) (Vd1 Lv) d1mw dx xi'
                    = false
                 /\ irc.collapsed
                      (fst (irc.bracket (L Lv) (V Lv) (Vg Lv) (Vd1 Lv) d1mw
                                        dx xi' lo up))
                      (snd (irc.bracket (L Lv) (V Lv) (Vg Lv) (Vd1 Lv) d1mw
                                        dx xi' lo up))
                    = false)).
Proof.
  split; [exact rs_newton_irc_raises |].
  intros Lv E Hfar. rewrite (rs_newton_irc_unfold E), Hfar.
  pose proof (loop_None (L Lv) (V Lv) (Vg Lv) (Vd1 Lv) d1mw dx 100 xi 0 None)
    as HN.
  split.
  - intros H.
    destruct (irc.loop (L Lv) (V Lv) (Vg Lv) (Vd1 Lv) d1mw dx 100 xi 0 None)
      as [[e xi'] |]; [discriminate H |].
    intros k Hk. destruct (proj1 HN eq_refl k Hk) as (a & b & c & Hs & Hl).
    exists a, b, c. unfold irc.leaves in Hl. apply orb_false_iff in Hl.
    destruct Hl. repeat split; assumption.
  - intros H.
    assert (El : irc.loop (L Lv) (V Lv) (Vg Lv) (Vd1 Lv) d1mw dx 100 xi 0
                          None = None).
    { apply HN. intros k Hk. destruct (H k Hk) as (a & b & c & Hs & Hc & Hb).
      exists a, b, c. split; [exact Hs |]. unfold irc.leaves.
      rewrite Hc, Hb. reflexivity. }
    rewrite El. reflexivity.
Qed.

End NewtonProps.

(** C1 at eigenvalue 1, zero gradient and [d1] half as long as [dx]; and
    with a mass of zero, where the mass-weighted Hessian has a NaN and
    [eigh] refuses it. *)
Lemma unshifted_step_witness :
  lams (Toy.curved 1) = Some [1]
  /\ vecs (Toy.curved 1) = Some [[1]]
  /\ eigh (lapack := Toy.lapack)
       (irc.Hmw [1] [[1]] (CartPES.Ufree (cons := Toy.cons) (Toy.curved 1))
                [1; 1; 1])
     = Ok ([0; 0; 1], [[0; 0; 1]; [1; 0; 0]; [0; 1; 0]])
  /\ Toy.candidate 1 0 0.05 = Some 0.05
  /\ Toy.newton 1 0 0.05 0.1 1 = Ok ([0; 0; 0], 1, false)
  /\ Toy.massless = Raise not_finite.
Proof.
  assert (H1 : lams (Toy.curved 1) = Some [1]) by reflexivity.
  assert (H2 : vecs (Toy.curved 1) = Some [[1]]) by reflexivity.
  assert (H3 : eigh (lapack := Toy.lapack)
                 (irc.Hmw [1] [[1]]
                    (CartPES.Ufree (cons := Toy.cons) (Toy.curved 1))
                    [1; 1; 1])
               = Ok ([0; 0; 1], [[0; 0; 1]; [1; 0; 0]; [0; 1; 0]]))
    by (vm_compute; reflexivity).
  split; [exact H1 | split; [exact H2 | split; [exact H3 |]]].
  split; [vm_compute; reflexivity |].
  split.
  - pose proof (proj2 (proj2 (proj2
                  (@unshifted_step_iff_strictly_below_bound Toy.lapack
                     Toy.cons (Toy.curved 1) [1; 1; 1] [0; 0; 0]
                     [0.05; 0; 0] 0.1 1 [1] [[1]] H1 H2)) _ H3)
                  ltac:(vm_compute; reflexivity)) as W.
    refine (eq_trans W _). vm_compute. reflexivity.
  - exact (proj1 (proj2
             (@unshifted_step_iff_strictly_below_bound Toy.lapack Toy.cons
                (Toy.curved 0) [0; 1; 1] [0; 0; 0] [0.05; 0; 0] 0.1 1
                [0] [[1]] eq_refl eq_refl))
             ltac:(vm_compute; reflexivity)).
Defined.

(** C1 (as stated) fails when the norm equals [dx]: here the candidate
    [d1 + eps] has norm [0.1 = dx], which is [<= dx], and what is returned
    is a shifted step with [bound_clip = True] and a changed [xi]. *)
Lemma step_of_norm_dx_is_shifted :
  Toy.candidate 1 0 0.1 = Some 0.1
  /\ (0.1 <=? 0.1) = true
  /\ Toy.newton 1 0 0.1 0.1 1
     = Ok ([-5.3776427962076178e-18; 0; 0], 5.3776427962076173e-17, true).
Proof. repeat split; vm_compute; reflexivity. Qed.

(** C2 at eigenvalue -0.5, zero gradient, [d1] of norm 0.2 and
    [dx = 0.1]: the step is clipped, with [xi] about 0.5. *)
Lemma shifted_step_witness :
  lams (Toy.curved (-0.5)) = Some [-0.5]
  /\ vecs (Toy.curved (-0.5)) = Some [[1]]
  /\ eigh (lapack := Toy.lapack)
       (irc.Hmw [-0.5] [[1]]
                (CartPES.Ufree (cons := Toy.cons) (Toy.curved (-0.5)))
                [1; 1; 1])
     = Ok ([-0.5; 0; 0], [[1; 0; 0]; [0; 1; 0]; [0; 0; 1]])
  /\ Toy.candidate (-0.5) 0 0.2 = Some 0.2
  /\ exists (k : nat) (lo : float) (up : option float),
       irc.state_at [0.5] [[1]; [0]; [0]] [0] [0.2] [0.2; 0; 0] 0.1 k 1 0 None
       = Some (0.49999999999999989, lo, up)
       /\ Toy.newton (-0.5) 0 0.2 0.1 1
          = Ok ([-0.099999999999999992; 0; 0], 0.49999999999999989, true).
Proof.
  assert (H1 : lams (Toy.curved (-0.5)) = Some [-0.5]) by reflexivity.
  assert (H2 : vecs (Toy.curved (-0.5)) = Some [[1]]) by reflexivity.
  assert (H3 : eigh (lapack := Toy.lapack)
                 (irc.Hmw [-0.5] [[1]]
                    (CartPES.Ufree (cons := Toy.cons) (Toy.curved (-0.5)))
                    [1; 1; 1])
               = Ok ([-0.5; 0; 0], [[1; 0; 0]; [0; 1; 0]; [0; 0; 1]]))
    by (vm_compute; reflexivity).
  split; [exact H1 | split; [exact H2 | split; [exact H3 |]]].
  split; [vm_compute; reflexivity |].
  destruct (proj2 (@shifted_step_when_not_below_bound Toy.lapack Toy.cons
                     (Toy.curved (-0.5)) [1; 1; 1] [0; 0; 0] [0.2; 0; 0]
                     0.1 1 [-0.5] [[1]] H1 H2)
              _ H3 ltac:(vm_compute; reflexivity))
    as [W | (k & xi' & lo & up & Hk & Hs & Hr & _)].
  - vm_compute in W. discriminate W.
  - assert (Hx : xi' = 0.49999999999999989).
    { vm_compute in Hr. inversion Hr. reflexivity. }
    subst xi'. exists k, lo, up. split.
    + revert Hs. vm_compute. intros Hs. exact Hs.
    + vm_compute. reflexivity.
Defined.

(** C2 (as stated) fails in each of its parts.  With [d1] a thousand
    times [dx] the bracket collapses at a multiplier for which the step
    misses [dx] by more than [1e-14 dx], and that step is returned; on a
    flat surface (no eigenvalue retained) the call raises; and a negative
    warm start that meets the criterion is returned as it is. *)
Lemma shifted_step_may_miss_the_bound :
  (Toy.candidate 1 0 100 = Some 100
   /\ Toy.newton 1 0 100 0.1 1
      = Ok ([-99.900000000000006; 0; 0], 999.00000000003888, true)
   /\ Toy.returned_mag 100 (Toy.newton 1 0 100 0.1 1)
      = Some 0.099999999999994316
   /\ (abs (0.099999999999994316 - 0.1) <? 1e-14 * 0.1) = false)
  /\ (Toy.candidate 0 0 0.2 = Some 0.2
      /\ Toy.newton 0 0 0.2 0.1 1
         = Raise (RuntimeError "IRC Newton step failed!"))
  /\ (Toy.candidate 1 0 0.2 = Some 0.2
      /\ Toy.newton 1 0 0.2 0.1 (-3)
         = Ok ([-0.30000000000000004; 0; 0], -3, true)
      /\ (-3 <? 0) = true).
Proof. repeat split; vm_compute; reflexivity. Qed.

Lemma below_by_cases (P : nat -> bool) (n : nat) :
  forallb P (seq 0 n) = true -> forall k, (k < n)%nat -> P k = true.
Proof.
  intros H k Hk. rewrite forallb_forall in H. apply H.
  apply in_seq. lia.
Qed.

(** C3 on a flat surface, where no eigenvalue is retained and no pass
    can leave the loop. *)
Lemma raises_witness :
  lams (Toy.curved 0) = Some [0]
  /\ vecs (Toy.curved 0) = Some [[1]]
  /\ eigh (lapack := Toy.lapack)
       (irc.Hmw [0] [[1]] (CartPES.Ufree (cons := Toy.cons) (Toy.curved 0))
                [1; 1; 1])
     = Ok ([0; 0; 0], [[1; 0; 0]; [0; 1; 0]; [0; 0; 1]])
  /\ Toy.candidate 0 0 0.2 = Some 0.2
  /\ Toy.newton 0 0 0.2 0.1 1 = Raise (RuntimeError "IRC Newton step failed!")
  /\ forall k, (k < 100)%nat ->
       exists (xi' lo : float) (up : option float),
         irc.state_at [] [[]; []; []] [] [] [0.2; 0; 0] 0.1 k 1 0 None
         = Some (xi', lo, up)
         /\ irc.converged [] [[]; []; []] [] [] [0.2; 0; 0] 0.1 xi' = false.
Proof.
  assert (H1 : lams (Toy.curved 0) = Some [0]) by reflexivity.
  assert (H2 : vecs (Toy.curved 0) = Some [[1]]) by reflexivity.
  assert (H3 : eigh (lapack := Toy.lapack)
                 (irc.Hmw [0] [[1]]
                    (CartPES.Ufree (cons := Toy.cons) (Toy.curved 0))
                    [1; 1; 1])
               = Ok ([0; 0; 0], [[1; 0; 0]; [0; 1; 0]; [0; 0; 1]]))
    by (vm_compute; reflexivity).
  assert (H4 : Toy.newton 0 0 0.2 0.1 1
               = Raise (RuntimeError "IRC Newton step failed!"))
    by (vm_compute; reflexivity).
  split; [exact H1 | split; [exact H2 | split; [exact H3 |]]].
  split; [vm_compute; reflexivity | split; [exact H4 |]].
  intros k Hk.
  destruct (proj1 (proj2 (@raises_iff_no_pass_leaves_the_loop Toy.lapack
                            Toy.cons (Toy.curved 0) [1; 1; 1] [0; 0; 0]
                            [0.2; 0; 0] 0.1 1 [0] [[1]] H1 H2)
                     _ H3 ltac:(vm_compute; reflexivity)) H4 k Hk)
    as (xi' & lo & up & Hs & Hc & _).
  exists xi', lo, up. split; [exact Hs | exact Hc].
Defined.

(** C3 (as stated) fails when the bracket collapses first: here no pass
    of the loop meets the criterion, the step that is returned misses
    [dx] by 9e-14, far more than [1e-14 dx = 1e-17], and the call returns
    it instead of raising. *)
Lemma unconverged_step_is_returned :
  Toy.candidate 1 0 1000 = Some 1000
  /\ (forall k, (k < 100)%nat ->
        match irc.state_at [1] [[1]; [0]; [0]] [0] [1000] [1000; 0; 0]
                           0.001 k 1 0 None with
        | Some (xi', _, _) =>
            irc.converged [1] [[1]; [0]; [0]] [0] [1000] [1000; 0; 0]
                          0.001 xi'
        | None => false
        end = false)
  /\ Toy.newton 1 0 1000 0.001 1
     = Ok ([-999.99899999999991; 0; 0], 999998.99997029186, true)
  /\ Toy.returned_mag 1000 (Toy.newton 1 0 1000 0.001 1)
     = Some 0.00100000000009004
  /\ (abs (0.00100000000009004 - 0.001) <? 1e-14 * 0.001) = false.
Proof.
  split; [vm_compute; reflexivity |].
  split; [| repeat split; vm_compute; reflexivity].
  intros k Hk.
  apply negb_true_iff.
  apply (@below_by_cases
           (fun k =>
              negb match irc.state_at [1] [[1]; [0]; [0]] [0] [1000]
                                      [1000; 0; 0] 0.001 k 1 0 None with
                   | Some (xi', _, _) =>
                       irc.converged [1] [[1]; [0]; [0]] [0] [1000]
                                     [1000; 0; 0] 0.001 xi'
                   | None => false
                   end) 100); [vm_compute; reflexivity | exact Hk].
Qed.

(** ** The IRC driver *)

Section DriverProps.

Context {calc : Calculator} {lapack : Lapack}
        {kernels : hessian_update.Kernels} {cons : ConstraintsAPI}
        {solver : Eigensolver}.

Lemma irun_rejects (fmax : float) (steps : option nat) (direction : string)
    (s : irc.IRC) :
  direction <> "forward"%string -> direction <> "reverse"%string ->
  irc.irun fmax steps direction s = (Raise irc.bad_direction, s).
Proof.
  intros Hf Hr. unfold irc.irun.
  apply String.eqb_neq in Hf. apply String.eqb_neq in Hr.
  rewrite Hf, Hr. reflexivity.
Qed.

Lemma get_Ok {S} (s s1 a : S) : get s = (Ok a, s1) -> a = s /\ s1 = s.
Proof. unfold get. intros E. inversion E. split; reflexivity. Qed.

Lemma some_or_Ok {S A} (e : exn) (o : option A) (s s1 : S) (a : A) :
  some_or e o s = (Ok a, s1) -> o = Some a /\ s1 = s.
Proof.
  destruct o; cbn; intros E; inversion E. split; reflexivity.
Qed.

Lemma modify_Ok {S} (f : S -> S) (s s1 : S) (u : unit) :
  modify f s = (Ok u, s1) -> s1 = f s.
Proof. unfold modify. intros E. inversion E. reflexivity. Qed.

(** After a successful [irun] in a valid direction, [d1] is the anchor
    displacement with the sign [sign] gives it, and [first] is set. *)
Lemma irun_seeds (fmax : float) (steps : option nat) (direction : string)
    (s s' : irc.IRC) :
  irc.irun fmax steps direction s = (Ok tt, s') ->
  exists v,
    irc.v0ts s' = Some v
    /\ irc.d1 s'
       = Some (if String.eqb direction "forward" then v else vneg v)
    /\ irc.first s' = true.
Proof.
  unfold irc.irun.
  destruct (negb (String.eqb direction "forward"
                  || String.eqb direction "reverse"));
    [intros H; discriminate H |].
  intros H.
  apply bind_Ok in H. destruct H as (s0 & t0 & E0 & H).
  apply bind_Ok in H. destruct H as (u1 & t1 & E1 & H).
  apply bind_Ok in H. destruct H as (s2 & t2 & E2 & H).
  apply get_Ok in E2. destruct E2 as [-> ->].
  apply bind_Ok in H. destruct H as (v & t3 & E3 & H).
  apply some_or_Ok in E3. destruct E3 as [Ev ->].
  apply bind_Ok in H. destruct H as (u4 & t4 & E4 & H).
  apply modify_Ok in E4. apply modify_Ok in H. subst.
  exists v. cbn. rewrite Ev. repeat split; reflexivity.
Qed.

(** C4.  With a direction other than "forward" and "reverse", [irun], and
    [run] with it, raise the ValueError at once and leave the object as it
    was; when [irun] returns, [d1] is [+v0ts] for "forward" and [-v0ts]
    for "reverse". *)
Theorem irun_checks_direction (fmax : float) (steps : option nat)
    (s : irc.IRC) :
  (forall direction : string,
      direction <> "forward"%string -> direction <> "reverse"%string ->
      irc.irun fmax steps direction s = (Raise irc.bad_direction, s)
      /\ forall ase : irc.AseOptimizer,
           irc.run fmax steps direction s = (Raise irc.bad_direction, s))
  /\ (forall s', irc.irun fmax steps "forward" s = (Ok tt, s') ->
        exists v, irc.v0ts s' = Some v /\ irc.d1 s' = Some v)
  /\ (forall s', irc.irun fmax steps "reverse" s = (Ok tt, s') ->
        exists v, irc.v0ts s' = Some v /\ irc.d1 s' = Some (vneg v)).
Proof.
  split; [| split].
  - intros direction Hf Hr.
    pose proof (irun_rejects fmax steps s Hf Hr) as E.
    split; [exact E |].
    intros ase. unfold irc.run. apply (bind_raise _ _ _ E).
  - intros s' H. destruct (irun_seeds _ _ _ _ H) as (v & Hv & Hd & _).
    exists v. split; assumption.
  - intros s' H. destruct (irun_seeds _ _ _ _ H) as (v & Hv & Hd & _).
    exists v. split; assumption.
Qed.

End DriverProps.

(** ** The inner loop of [step] *)

Section StepProps.

Context {calc : Calculator} {lapack : Lapack}
        {kernels : hessian_update.Kernels} {cons : ConstraintsAPI}.

Lemma on_pes_first {A} (m : M PES A) (s s' : irc.IRC) (r : result A) :
  irc.on_pes m s = (r, s') -> irc.first s' = irc.first s.
Proof.
  unfold irc.on_pes. destruct (m (irc.pes s)) as [r0 p]. intros E.
  inversion E. reflexivity.
Qed.

(** While [first] is set, the pass takes the trivial step: the solver is
    not called, [d1] and [xi] stay, the step counts as bound-clipped, and
    the flag is cleared. *)
Lemma move_first (g1 : option vec) (d : vec) (s : irc.IRC) :
  irc.first s = true -> irc.d1 s = Some d ->
  irc.move g1 s = (Ok (irc.Trivial, true), irc.with_first false s).
Proof.
  intros Hf Hd. unfold irc.move, bind, get. rewrite Hd. cbn [some_or ret].
  rewrite Hf. reflexivity.
Qed.

(** Once it is cleared, the pass calls the solver, takes [xi] and
    [bound_clip] from it and adds its [eps] to [d1]. *)
Lemma move_later (g1 : option vec) (d : vec) (s : irc.IRC) :
  irc.first s = false -> irc.d1 s = Some d ->
  irc.move g1 s
  = match irc.rs_newton_irc (irc.pes s) (irc.sqrtm s) g1 d (irc.dx s)
                            (irc.xi s) with
    | Raise e => (Raise e, s)
    | Ok (eps, xi', bound_clip) =>
        (Ok (irc.Newton, bound_clip),
         irc.with_d1 (vadd d eps) (irc.with_xi xi' s))
    end.
Proof.
  intros Hf Hd. unfold irc.move, bind, get. rewrite Hd. cbn [some_or ret].
  rewrite Hf.
  destruct (irc.rs_newton_irc (irc.pes s) (irc.sqrtm s) g1 d (irc.dx s)
                              (irc.xi s)) as [[[eps xi'] bc] | e];
    reflexivity.
Qed.

Lemma move_branch (g1 : option vec) (s s' : irc.IRC)
    (bb : irc.branch * bool) :
  irc.move g1 s = (Ok bb, s') ->
  fst bb = (if irc.first s then irc.Trivial else irc.Newton)
  /\ irc.first s' = false.
Proof.
  unfold irc.move. intros H.
  apply bind_Ok in H. destruct H as (s0 & t0 & E0 & H).
  apply get_Ok in E0. destruct E0 as [-> ->].
  apply bind_Ok in H. destruct H as (d & t1 & E1 & H).
  apply some_or_Ok in E1. destruct E1 as [Hd ->].
  destruct (irc.first s) eqn:Hf.
  - unfold bind, modify, ret in H. inversion H; subst. split; reflexivity.
  - destruct (irc.rs_newton_irc (irc.pes s) (irc.sqrtm s) g1 d (irc.dx s)
                                (irc.xi s)) as [[[eps xi'] bc] | e];
      [| discriminate H].
    unfold bind, modify, ret in H. inversion H; subst.
    split; [reflexivity | exact Hf].
Qed.

Lemma inner_branches (n : nat) :
  forall (x0 : vec) (Pfree : matrix) (g1 : option vec)
         (taken : list irc.branch) (s s' : irc.IRC)
         (r : vec * list irc.branch),
    irc.inner n x0 Pfree g1 taken s = (Ok r, s') ->
    (exists m,
        snd r = taken ++ (if irc.first s then irc.Trivial else irc.Newton)
                           :: repeat irc.Newton m)
    /\ irc.first s' = false.
Proof.
  induction n as [| n IH]; intros x0 Pfree g1 taken s s' r H;
    [discriminate H |].
  cbn [irc.inner] in H.
  apply bind_Ok in H. destruct H as (bb & t0 & E0 & H).
  apply move_branch in E0. destruct E0 as [Hb Hf0].
  apply bind_Ok in H. destruct H as (s1 & t1 & E1 & H).
  apply get_Ok in E1. destruct E1 as [-> ->].
  apply bind_Ok in H. destruct H as (d & t2 & E2 & H).
  apply some_or_Ok in E2. destruct E2 as [_ ->].
  apply bind_Ok in H. destruct H as (u3 & t3 & E3 & H).
  apply on_pes_first in E3.
  apply bind_Ok in H. destruct H as (g1' & t4 & E4 & H).
  apply on_pes_first in E4.
  apply bind_Ok in H. destruct H as (u5 & t5 & E5 & H).
  apply on_pes_first in E5.
  assert (Hf5 : irc.first t5 = false) by congruence.
  match type of H with
  | (if ?c then _ else _) _ = _ => destruct c
  end.
  - unfold ret in H. inversion H; subst. cbn [snd]. split; [| exact Hf5].
    exists 0%nat. rewrite Hb. reflexivity.
  - apply IH in H. destruct H as [[m Hm] Hf]. split; [| exact Hf].
    exists (S m). rewrite Hm, Hf5, Hb, <- app_assoc. reflexivity.
Qed.

(** C5 (as amended).  The trivial step is taken exactly while the flag
    [first] is set: that pass does not call the solver and counts as
    bound-clipped, and it clears the flag.  So a call of [step] that
    returns began with the trivial step only if [first] was set when it
    was called, as after [irun]; every other pass, the first pass of a
    later call included, called [rs_newton_irc]; and the flag is cleared
    when [step] returns. *)
Theorem trivial_step_only_while_first (s s' : irc.IRC)
    (taken : list irc.branch) :
  irc.step s = (Ok taken, s') ->
  (exists m,
      taken = (if irc.first s then irc.Trivial else irc.Newton)
                :: repeat irc.Newton m)
  /\ irc.first s' = false
  /\ (forall (t : irc.IRC) (g1 : option vec) (d : vec),
        irc.first t = true -> irc.d1 t = Some d ->
        irc.move g1 t = (Ok (irc.Trivial, true), irc.with_first false t))
  /\ (forall (t t' : irc.IRC) (g1 : option vec) (bb : irc.branch * bool),
        irc.first t = false -> irc.move g1 t = (Ok bb, t') ->
        fst bb = irc.Newton)
  /\ (forall (solver : Eigensolver) (fmax : float) (steps : option nat)
             (direction : string) (t t' : irc.IRC),
        irc.irun fmax steps direction t = (Ok tt, t') ->
        irc.first t' = true).
Proof.
  intros H. unfold irc.step in H.
  apply bind_Ok in H. destruct H as (x0 & t0 & E0 & H).
  apply on_pes_first in E0.
  apply bind_Ok in H. destruct H as (s1 & t1 & E1 & H).
  apply get_Ok in E1. destruct E1 as [-> ->].
  apply bind_Ok in H. destruct H as (r & t2 & E2 & H).
  apply inner_branches in E2. destruct E2 as [[m Hm] Hf2].
  apply bind_Ok in H. destruct H as (s3 & t3 & E3 & H).
  apply get_Ok in E3. destruct E3 as [-> ->].
  apply bind_Ok in H. destruct H as (u4 & t4 & E4 & H).
  apply modify_Ok in E4. unfold ret in H. inversion H; subst.
  repeat split.
  - exists m. rewrite Hm, E0. reflexivity.
  - exact Hf2.
  - intros t g1 d Hf Hd. exact (move_first g1 t Hf Hd).
  - intros t t' g1 bb Hf Hmv. apply move_branch in Hmv.
    rewrite Hf in Hmv. exact (proj1 Hmv).
  - intros solver fmax steps direction t t' Hi.
    destruct (irun_seeds _ _ _ _ Hi) as (v & _ & _ & Hfirst). exact Hfirst.
Qed.

End StepProps.

(** C4 on the run of the one-atom instance. *)
Lemma irun_witness :
  irc.irun (calc := Toy.calc) (lapack := Toy.lapack) (kernels := Toy.kernels)
    (cons := Toy.cons) (solver := Toy.solver) 0.05 None "sideways"
    Toy.stepped
  = (Raise irc.bad_direction, Toy.stepped)
  /\ irc.run (calc := Toy.calc) (lapack := Toy.lapack)
       (kernels := Toy.kernels) (cons := Toy.cons) (solver := Toy.solver)
       (ase := Toy.one_step) 0.05 None "sideways" Toy.stepped
     = (Raise irc.bad_direction, Toy.stepped)
  /\ irc.v0ts Toy.started = Some [0.1; 0; 0]
  /\ irc.d1 Toy.started = Some [0.1; 0; 0].
Proof.
  pose proof (@irun_checks_direction Toy.calc Toy.lapack Toy.kernels Toy.cons
                Toy.solver 0.05 None) as W.
  destruct (proj1 (W Toy.stepped) "sideways"%string
              ltac:(discriminate) ltac:(discriminate)) as [W1 W2].
  split; [exact W1 | split; [exact (W2 Toy.one_step) |]].
  destruct (proj1 (proj2 (W (Toy.fresh_irc [(0, 0, 0)]))) Toy.started
              ltac:(vm_compute; reflexivity)) as (v & Hv & Hd).
  assert (Ev : v = [0.1; 0; 0]).
  { assert (E : irc.v0ts Toy.started = Some [0.1; 0; 0])
      by (vm_compute; reflexivity).
    rewrite E in Hv. inversion Hv. reflexivity. }
  subst v. split; [exact Hv | exact Hd].
Defined.

(** C5 at the first call of [step] after [irun]. *)
Lemma trivial_step_witness :
  irc.step (calc := Toy.calc) (lapack := Toy.lapack) (kernels := Toy.kernels)
    (cons := Toy.cons) Toy.started
  = (Ok [irc.Trivial], Toy.stepped)
  /\ irc.first Toy.started = true
  /\ irc.first Toy.stepped = false.
Proof.
  assert (H1 : irc.step (calc := Toy.calc) (lapack := Toy.lapack)
                 (kernels := Toy.kernels) (cons := Toy.cons) Toy.started
               = (Ok [irc.Trivial], Toy.stepped))
    by (vm_compute; reflexivity).
  split; [exact H1 | split; [vm_compute; reflexivity |]].
  exact (proj1 (proj2 (@trivial_step_only_while_first Toy.calc Toy.lapack
                         Toy.kernels Toy.cons Toy.started Toy.stepped
                         [irc.Trivial] H1))).
Defined.

(** C5 (as stated) fails on every call of [step] but the first after
    [irun]: the flag is cleared by then, and the first pass of the second
    call already called the solver. *)
Lemma later_steps_begin_with_newton :
  fst (irc.step (calc := Toy.calc) (lapack := Toy.lapack)
         (kernels := Toy.kernels) (cons := Toy.cons) Toy.started)
  = Ok [irc.Trivial]
  /\ irc.first Toy.stepped = false
  /\ fst (irc.step (calc := Toy.calc) (lapack := Toy.lapack)
            (kernels := Toy.kernels) (cons := Toy.cons) Toy.stepped)
     = Ok [irc.Newton].
Proof. repeat split; vm_compute; reflexivity. Qed.

(** * Further properties *)

(** ** What a method keeps *)

Lemma keeps_ret {S A} (P : S -> Prop) (a : A) : keeps P (ret a).
Proof. intros s s' r HP E. inversion E; subst. exact HP. Qed.

Lemma keeps_raise {S A} (P : S -> Prop) (e : exn) : keeps P (@raise S A e).
Proof. intros s s' r HP E. inversion E; subst. exact HP. Qed.

Lemma keeps_get {S} (P : S -> Prop) : keeps P (@get S).
Proof. intros s s' r HP E. inversion E; subst. exact HP. Qed.

Lemma keeps_gets {S A} (P : S -> Prop) (f : S -> A) : keeps P (gets f).
Proof. intros s s' r HP E. inversion E; subst. exact HP. Qed.

Lemma keeps_some_or {S A} (P : S -> Prop) (e : exn) (o : option A) :
  keeps P (@some_or S A e o).
Proof. destruct o; [apply keeps_ret | apply keeps_raise]. Qed.

Lemma keeps_lift {S A} (P : S -> Prop) (r : result A) :
  keeps P (@lift S A r).
Proof. intros s s' r' HP E. inversion E; subst. exact HP. Qed.

Lemma keeps_modify {S} (P : S -> Prop) (f : S -> S) :
  (forall s, P s -> P (f s)) -> keeps P (modify f).
Proof. intros Hf s s' r HP E. inversion E; subst. apply Hf. exact HP. Qed.

Lemma keeps_bind {S A B} (P : S -> Prop) (m : M S A) (k : A -> M S B) :
  keeps P m -> (forall a, keeps P (k a)) -> keeps P (bind m k).
Proof.
  intros Hm Hk s s' r HP E. unfold bind in E.
  destruct (m s) as [[a | e] s1] eqn:Em.
  - exact (Hk a s1 s' r (Hm s s1 (Ok a) HP Em) E).
  - inversion E; subst. exact (Hm s s' (Raise e) HP Em).
Qed.

Lemma keeps_apply {S A} (P : S -> Prop) (m : M S A) (s s' : S)
    (r : result A) :
  keeps P m -> P s -> m s = (r, s') -> P s'.
Proof. intros K. apply K. Qed.

(** Uses the lemmas above on a method written with [bind]. *)
Ltac keeps_step :=
  lazymatch goal with
  | H : keeps ?P ?m |- keeps ?P ?m => exact H
  | H : forall a, keeps ?P (?m a) |- keeps ?P (?m _) => apply H
  | |- keeps _ (ret _) => apply keeps_ret
  | |- keeps _ (raise _) => apply keeps_raise
  | |- keeps _ get => apply keeps_get
  | |- keeps _ (gets _) => apply keeps_gets
  | |- keeps _ (some_or _ _) => apply keeps_some_or
  | |- keeps _ (lift _) => apply keeps_lift
  | |- keeps _ (bind _ _) => apply keeps_bind; [| intros ?]
  end.

(** ** Assigning the geometry *)

Lemma assign_positions_cases (p : geometry) (s s' : PES) (r : result unit) :
  assign_positions p s = (r, s') ->
  length (positions s') = length (positions s)
  /\ apart_from_positions s' = apart_from_positions s
  /\ (length p = length (positions s) -> r = Ok tt /\ positions s' = p)
  /\ (r <> Ok tt -> s' = s).
Proof.
  unfold assign_positions.
  destruct (Nat.eqb (length p) (length (positions s))) eqn:El.
  - intros E. inversion E; subst. apply Nat.eqb_eq in El.
    repeat split; try reflexivity; try (cbn; congruence);
      try (intros H; contradiction H; reflexivity).
  - apply Nat.eqb_neq in El.
    destruct p as [| row [| row' p]]; intros E; inversion E; subst;
      repeat split; try reflexivity; try contradiction;
      try (cbn [positions with_positions]; rewrite length_map; reflexivity);
      try (intros H; contradiction H; reflexivity).
Qed.

Section Bookkeeping.

Context {calc : Calculator} {cons : ConstraintsAPI}.

(** The three ways [_update] can go. *)
Lemma update_cases (s : PES) :
  (stale s = false /\ CartPES._update s = (Ok false, s))
  \/ (stale s = true
      /\ exists e, calculate (positions s) = Raise e
                   /\ CartPES._update s = (Raise e, s))
  \/ (stale s = true
      /\ exists en F s',
           calculate (positions s) = Ok (en, F)
           /\ CartPES._update s = (Ok true, s')
           /\ positions s' = positions s
           /\ neval s' = S (neval s)
           /\ lastlast s' = last s
           /\ last s'
              = mkRecord (Some (ravel (positions s))) (Some en)
                  (Some (vneg (ravel F)))
                  (Some (matvec (transpose (CartPES.Ufree s))
                                (vneg (ravel F))))
                  (Some (vsub (vneg (ravel F))
                              (matvec (matmul (CartPES.drdx s)
                                              (transpose (CartPES.Ucons s)))
                                      (vneg (ravel F)))))
           /\ outside_records s' = outside_records s).
Proof.
  unfold stale, CartPES._update, BasePES._update, bind, get.
  destruct (r_x (last s)) as [lx |] eqn:Ex.
  - destruct (all_eq (ravel (positions s)) lx) eqn:Ee; cbn.
    + left. split; reflexivity.
    + right. destruct (calculate (positions s)) as [[en F] | e]; cbn.
      * right. split; [reflexivity |]. do 3 eexists.
        split; [reflexivity |]. split; [reflexivity |].
        repeat split.
      * left. split; [reflexivity |]. exists e. split; reflexivity.
  - right. destruct (calculate (positions s)) as [[en F] | e]; cbn.
    + right. split; [reflexivity |]. do 3 eexists.
      split; [reflexivity |]. split; [reflexivity |].
      repeat split.
    + left. split; [reflexivity |]. exists e. split; reflexivity.
Qed.

(** X1.  The value [_update] returns tells whether it evaluated: it is
    [True] exactly when there was no record at the geometry, and then
    the counter has gone up by one, the previous record is [lastlast],
    and the new record is complete and taken at the geometry; it is
    [False] exactly when the object is left as it was.  Neither the
    geometry nor the Hessian is touched. *)
Theorem update_counts_each_evaluation (s s' : PES) (changed : bool) :
  CartPES._update s = (Ok changed, s') ->
  changed = stale s
  /\ neval s' = (if changed then S (neval s) else neval s)
  /\ (changed = false -> s' = s)
  /\ (changed = true ->
      lastlast s' = last s
      /\ r_x (last s') = Some (ravel (positions s'))
      /\ complete (last s') = true
      /\ exists en F,
           calculate (positions s) = Ok (en, F)
           /\ r_f (last s') = Some en
           /\ r_g (last s') = Some (vneg (ravel F)))
  /\ positions s' = positions s
  /\ outside_records s' = outside_records s.
Proof.
  intros H.
  destruct (update_cases s)
    as [[Hs E] | [[Hs (e & Hc & E)]
                 | [Hs (en & F & t & Hc & E & Hp & Hn & Hll & Hl & Ho)]]];
    rewrite E in H; inversion H; subst.
  - split; [symmetry; exact Hs |]. split; [reflexivity |].
    split; [reflexivity |]. split; [intros D; discriminate D |].
    split; reflexivity.
  - split; [symmetry; exact Hs |]. split; [exact Hn |].
    split; [intros D; discriminate D |].
    split; [| split; [exact Hp | exact Ho]].
    intros _. split; [exact Hll |]. rewrite Hl, Hp.
    split; [reflexivity |]. split; [reflexivity |].
    exists en, F. split; [exact Hc |]. split; reflexivity.
Qed.

(** A read of [f], [g], [gfree] or [h] is [_update] followed by the
    entry of the last record. *)
Lemma f_unfold (s : PES) :
  CartPES.f s
  = match CartPES._update s with
    | (Ok _, s') => some_or TypeError (r_f (last s')) s'
    | (Raise e, s') => (Raise e, s')
    end.
Proof.
  unfold CartPES.f, BasePES.f. cbn [v_update CartPES.variant].
  unfold bind, get, ret. destruct (CartPES._update s) as [[b | e] s'];
    reflexivity.
Qed.

Lemma g_unfold (s : PES) :
  CartPES.g s
  = match CartPES._update s with
    | (Ok _, s') => some_or TypeError (r_g (last s')) s'
    | (Raise e, s') => (Raise e, s')
    end.
Proof.
  unfold CartPES.g, bind, get. destruct (CartPES._update s) as [[b | e] s'];
    reflexivity.
Qed.

Lemma gfree_unfold (s : PES) :
  CartPES.gfree s
  = match CartPES._update s with
    | (Ok _, s') => some_or TypeError (r_gfree (last s')) s'
    | (Raise e, s') => (Raise e, s')
    end.
Proof.
  unfold CartPES.gfree, bind, get.
  destruct (CartPES._update s) as [[b | e] s']; reflexivity.
Qed.

Lemma h_unfold (s : PES) :
  CartPES.h s
  = match CartPES._update s with
    | (Ok _, s') => some_or TypeError (r_h (last s')) s'
    | (Raise e, s') => (Raise e, s')
    end.
Proof.
  unfold CartPES.h, bind, get. destruct (CartPES._update s) as [[b | e] s'];
    reflexivity.
Qed.

Lemma stale_false_has_record (s : PES) :
  stale s = false -> r_x (last s) <> None.
Proof. unfold stale. destruct (r_x (last s)); [discriminate | discriminate]. Qed.

(** On a complete record, a read raises exactly when the calculator is
    called and raises. *)
Lemma read_raises {A} (field : record -> option A) (m : M PES A) :
  (forall s, m s = match CartPES._update s with
                   | (Ok _, s') => some_or TypeError (field (last s')) s'
                   | (Raise e, s') => (Raise e, s')
                   end) ->
  (forall r, complete r = true -> r_x r <> None -> field r <> None) ->
  forall (s s' : PES) (e : exn),
    complete (last s) = true ->
    (m s = (Raise e, s')
     <-> stale s = true /\ calculate (positions s) = Raise e /\ s' = s).
Proof.
  intros Hm Hfield s s' e Hc. rewrite Hm.
  destruct (update_cases s)
    as [[Hs E] | [[Hs (e0 & Hcal & E)]
                 | [Hs (en & F & t & Hcal & E & Hp & Hn & Hll & Hl & Ho)]]];
    rewrite E.
  - pose proof (Hfield _ Hc (stale_false_has_record s Hs)) as Hf.
    destruct (field (last s)); [| contradiction Hf; reflexivity].
    cbn. split; [discriminate |]. intros [D _]. congruence.
  - split.
    + intros H. inversion H; subst. repeat split; assumption.
    + intros (_ & H & ->). rewrite Hcal in H. inversion H. reflexivity.
  - assert (Hf : field (last t) <> None).
    { apply Hfield; rewrite Hl; [reflexivity | discriminate]. }
    destruct (field (last t)); [| contradiction Hf; reflexivity].
    cbn. split; [discriminate |]. intros (_ & H & _). congruence.
Qed.

(** X2.  On an object whose last record is complete, a read of [f],
    [g], [gfree] or [h] raises exactly when there is no record at the
    geometry and the calculator raises there; it raises the calculator's
    exception and leaves the object, its records and counter included, as
    it was. *)
Theorem read_raises_what_the_calculator_raised (s : PES) :
  complete (last s) = true ->
  forall (e : exn) (s' : PES),
    (CartPES.f s = (Raise e, s')
     <-> stale s = true /\ calculate (positions s) = Raise e /\ s' = s)
    /\ (CartPES.g s = (Raise e, s')
        <-> stale s = true /\ calculate (positions s) = Raise e /\ s' = s)
    /\ (CartPES.gfree s = (Raise e, s')
        <-> stale s = true /\ calculate (positions s) = Raise e /\ s' = s)
    /\ (CartPES.h s = (Raise e, s')
        <-> stale s = true /\ calculate (positions s) = Raise e /\ s' = s).
Proof.
  intros Hc e s'.
  assert (Hall : forall r, complete r = true -> r_x r <> None ->
                   r_f r <> None /\ r_g r <> None
                   /\ r_gfree r <> None /\ r_h r <> None).
  { intros r Hr Hx. unfold complete in Hr.
    destruct (r_x r); [| contradiction Hx; reflexivity].
    destruct (r_f r), (r_g r), (r_gfree r), (r_h r); try discriminate Hr.
    repeat split; discriminate. }
  split; [| split; [| split]].
  - apply (read_raises r_f CartPES.f f_unfold); [| exact Hc].
    intros r Hr Hx. exact (proj1 (Hall r Hr Hx)).
  - apply (read_raises r_g CartPES.g g_unfold); [| exact Hc].
    intros r Hr Hx. exact (proj1 (proj2 (Hall r Hr Hx))).
  - apply (read_raises r_gfree CartPES.gfree gfree_unfold); [| exact Hc].
    intros r Hr Hx. exact (proj1 (proj2 (proj2 (Hall r Hr Hx)))).
  - apply (read_raises r_h CartPES.h h_unfold); [| exact Hc].
    intros r Hr Hx. exact (proj2 (proj2 (proj2 (Hall r Hr Hx)))).
Qed.

(** A read that returns: the value is the entry of the last record, and
    either nothing was evaluated and the object is as it was, or there is
    one more evaluation and a complete record at the geometry. *)
Lemma read_Ok {A} (field : record -> option A) (m : M PES A) :
  (forall s, m s = match CartPES._update s with
                   | (Ok _, s') => some_or TypeError (field (last s')) s'
                   | (Raise e, s') => (Raise e, s')
                   end) ->
  forall (s s1 : PES) (a : A),
    m s = (Ok a, s1) ->
    field (last s1) = Some a
    /\ positions s1 = positions s
    /\ outside_records s1 = outside_records s
    /\ ((stale s = false /\ s1 = s)
        \/ (stale s = true
            /\ neval s1 = S (neval s)
            /\ lastlast s1 = last s
            /\ r_x (last s1) = Some (ravel (positions s))
            /\ complete (last s1) = true)).
Proof.
  intros Hm s s1 a H. rewrite Hm in H.
  destruct (update_cases s)
    as [[St E] | [[St (e0 & Hcal & E)]
                 | [St (en & F & t & Hcal & E & Hp & Hn & Hll & Hl & Ho)]]];
    rewrite E in H; try discriminate H;
    apply some_or_Ok in H; destruct H as [Hf ->].
  - split; [exact Hf |]. split; [reflexivity |]. split; [reflexivity |].
    left. split; [exact St | reflexivity].
  - split; [exact Hf |]. split; [exact Hp |]. split; [exact Ho |].
    right. split; [exact St |]. split; [exact Hn |]. split; [exact Hll |].
    rewrite Hl. split; reflexivity.
Qed.

(** A record taken at the geometry serves while no coordinate is NaN. *)
Lemma fresh_record_is_not_stale (s : PES) (lx : vec) :
  r_x (last s) = Some lx ->
  (lx = ravel (positions s) \/ all_eq (ravel (positions s)) lx = true) ->
  existsb is_nan (ravel (positions s)) = false ->
  stale s = false.
Proof.
  intros Hx Hl Hn. unfold stale. rewrite Hx. destruct Hl as [-> | Hl].
  - rewrite (all_eq_refl _ Hn). reflexivity.
  - rewrite Hl. reflexivity.
Qed.

(** What [_update] keeps. *)
Lemma update_keeps (P : PES -> Prop) :
  (forall s s',
      P s -> stale s = true -> positions s' = positions s ->
      neval s' = S (neval s) -> lastlast s' = last s ->
      complete (last s') = true ->
      r_x (last s') = Some (ravel (positions s)) ->
      outside_records s' = outside_records s -> P s') ->
  keeps P CartPES._update.
Proof.
  intros HP s s' r Hs H.
  destruct (update_cases s)
    as [[St E] | [[St (e0 & Hcal & E)]
                 | [St (en & F & t & Hcal & E & Hp & Hn & Hll & Hl & Ho)]]];
    rewrite E in H; inversion H; subst; try exact Hs.
  apply (HP s s' Hs St Hp Hn Hll); [| | exact Ho]; rewrite Hl; reflexivity.
Qed.

Lemma reads_keep (P : PES -> Prop) :
  keeps P CartPES._update ->
  keeps P CartPES.f /\ keeps P CartPES.g
  /\ keeps P CartPES.gfree /\ keeps P CartPES.h.
Proof.
  intros HU. repeat split.
  - unfold CartPES.f, BasePES.f. cbn [v_update CartPES.variant].
    repeat keeps_step.
  - unfold CartPES.g. repeat keeps_step.
  - unfold CartPES.gfree. repeat keeps_step.
  - unfold CartPES.h. repeat keeps_step.
Qed.

Lemma assign_positions_keeps (P : PES -> Prop) (p : geometry) :
  (forall s s', P s -> length (positions s') = length (positions s) ->
                apart_from_positions s' = apart_from_positions s -> P s') ->
  keeps P (assign_positions p).
Proof.
  intros HP s s' r Hs H. apply assign_positions_cases in H.
  destruct H as (Hl & Ha & _). exact (HP s s' Hs Hl Ha).
Qed.

Lemma set_x_keeps (P : PES -> Prop) (target : vec) :
  (forall s s', P s -> length (positions s') = length (positions s) ->
                apart_from_positions s' = apart_from_positions s -> P s') ->
  keeps P (CartPES.set_x target).
Proof.
  intros HP. unfold CartPES.set_x. destruct (reshape3 target).
  - apply assign_positions_keeps. exact HP.
  - apply keeps_raise.
Qed.

Lemma records_complete_apart (s s' : PES) :
  apart_from_positions s' = apart_from_positions s ->
  records_complete s -> records_complete s'.
Proof.
  unfold apart_from_positions, records_complete. intros E.
  inversion E as [[E1 E2 E3 E4]]. rewrite E1, E2. exact (fun H => H).
Qed.

Lemma update_keeps_complete : keeps records_complete CartPES._update.
Proof.
  apply update_keeps. intros s s' [Hl Hll] _ _ _ Ell Hc _ _.
  split; [exact Hc | rewrite Ell; exact Hl].
Qed.

Lemma set_H_keeps (P : PES -> Prop) {lapack : Lapack}
    (target : option matrix) :
  (forall s H Hr l v, P s -> P (with_hessian H Hr l v s)) ->
  keeps P (CartPES.set_H target).
Proof.
  intros HP. unfold CartPES.set_H, BasePES.set_H.
  destruct target; repeat keeps_step;
    apply keeps_modify; intros s Hs; apply HP; exact Hs.
Qed.

End Bookkeeping.

(** A NaN equals nothing, itself included. *)
Lemma nan_eqb_false (a b : float) : is_nan a = true -> (a =? b) = false.
Proof.
  unfold is_nan. intros H. apply negb_true_iff in H.
  rewrite FloatAxioms.eqb_spec in H |- *. unfold SFeqb in *.
  destruct (Prim2SF a) as [sa | sa | | sa ma ea].
  - destruct sa; discriminate H.
  - destruct sa; discriminate H.
  - reflexivity.
  - rewrite SFcompare_refl in H by discriminate. discriminate H.
Qed.

Lemma all_eq_nan (u v : vec) :
  existsb is_nan u = true -> all_eq u v = false.
Proof.
  revert v. induction u as [| a u IH]; intros v H; [discriminate H |].
  destruct v as [| b v]; [reflexivity |].
  cbn [existsb] in H. cbn [all_eq]. apply orb_true_iff in H.
  destruct H as [H | H].
  - rewrite (nan_eqb_false a b H). reflexivity.
  - rewrite (IH v H). apply andb_false_r.
Qed.

Section Reads.

Context {calc : Calculator} {cons : ConstraintsAPI}.

Lemma stale_at_nan (s : PES) :
  existsb is_nan (ravel (positions s)) = true -> stale s = true.
Proof.
  intros H. unfold stale. destruct (r_x (last s)) as [lx |]; [| reflexivity].
  rewrite (all_eq_nan _ lx H). reflexivity.
Qed.

Lemma reads_not_stale (k : nat) (s s' : PES) :
  stale s = false -> reads k s = (Ok tt, s') -> s' = s.
Proof.
  intros St. induction k as [| k IH]; intros H.
  - inversion H. reflexivity.
  - cbn [reads] in H. apply bind_Ok in H. destruct H as (a & s1 & E & H).
    pose proof (read_Ok r_g CartPES.g g_unfold _ E) as (_ & _ & _ & G).
    destruct G as [[_ ->] | [St' _]]; [exact (IH H) | congruence].
Qed.

(** X17.  Reads at one geometry.  Any number of reads of [g] in a row
    costs at most one evaluation when no coordinate is NaN; at a geometry
    with a NaN coordinate every read evaluates, so [k] reads that return
    add [k] to the counter. *)
Theorem reads_share_one_evaluation_unless_NaN (k : nat) (s s' : PES) :
  reads k s = (Ok tt, s') ->
  (existsb is_nan (ravel (positions s)) = false ->
   (neval s' <= neval s + 1)%nat)
  /\ (existsb is_nan (ravel (positions s)) = true ->
      neval s' = (neval s + k)%nat).
Proof.
  intros H. split; intros Hn.
  - destruct k as [| k]; [inversion H; lia |].
    cbn [reads] in H. apply bind_Ok in H. destruct H as (a & s1 & E & H).
    pose proof (read_Ok r_g CartPES.g g_unfold _ E) as (_ & G2 & _ & G).
    assert (St1 : stale s1 = false).
    { destruct G as [[St ->] | (_ & _ & _ & Gx & _)]; [exact St |].
      apply (@fresh_record_is_not_stale s1 _ Gx); rewrite G2;
        [left; reflexivity | exact Hn]. }
    rewrite (@reads_not_stale k s1 s' St1 H).
    destruct G as [[_ ->] | (_ & Gn & _)]; lia.
  - revert s H Hn. induction k as [| k IH]; intros s H Hn.
    + inversion H. lia.
    + cbn [reads] in H. apply bind_Ok in H. destruct H as (a & s1 & E & H).
      pose proof (read_Ok r_g CartPES.g g_unfold _ E) as (_ & G2 & _ & G).
      destruct G as [[St _] | (_ & Gn & _)].
      * rewrite (stale_at_nan s Hn) in St. discriminate St.
      * rewrite (IH s1 H) by (rewrite G2; exact Hn). lia.
Qed.

End Reads.

Section Complete.

Context {calc : Calculator} {lapack : Lapack}
        {kernels : hessian_update.Kernels} {cons : ConstraintsAPI}.

Lemma update_H_keeps (P : PES -> Prop) :
  keeps P CartPES.g ->
  (forall s H Hr l v, P s -> P (with_hessian H Hr l v s)) ->
  keeps P CartPES.update_H.
Proof.
  intros Hg HH. unfold CartPES.update_H. keeps_step; [keeps_step |].
  destruct (r_x (lastlast a)); [| keeps_step].
  unfold CartPES.x. repeat keeps_step.
  apply set_H_keeps. exact HH.
Qed.

Lemma calc_eg_keeps (P : PES -> Prop) (x : vec) :
  keeps P CartPES._update ->
  (forall s s', P s -> length (positions s') = length (positions s) ->
                apart_from_positions s' = apart_from_positions s -> P s') ->
  keeps P (BasePES._calc_eg (variant := CartPES.variant) x).
Proof.
  intros HU HP. destruct (reads_keep HU) as (Hf & Hg & _).
  unfold CartPES.f in Hf.
  unfold BasePES._calc_eg. cbn [v_set_x v_g CartPES.variant].
  keeps_step; [keeps_step |].
  keeps_step; [apply set_x_keeps; exact HP |].
  keeps_step; [keeps_step |].
  keeps_step; [keeps_step |].
  keeps_step; [apply assign_positions_keeps; exact HP | keeps_step].
Qed.

(** X3.  No method leaves a record half filled.  The constructor leaves
    [last] and [lastlast] empty, and [_update], the reads [f], [g],
    [gfree], [h], the assignments to [x] and to [H], [update_H] and
    [_calc_eg] each leave them empty or holding all of [x], [f], [g],
    [gfree], [h], whether they return or raise. *)
Theorem no_method_leaves_a_partial_record :
  (forall atoms es eta, records_complete (CartPES.__init__ atoms es eta))
  /\ keeps records_complete CartPES._update
  /\ keeps records_complete CartPES.f
  /\ keeps records_complete CartPES.g
  /\ keeps records_complete CartPES.gfree
  /\ keeps records_complete CartPES.h
  /\ (forall target, keeps records_complete (CartPES.set_x target))
  /\ (forall target, keeps records_complete (CartPES.set_H target))
  /\ keeps records_complete CartPES.update_H
  /\ (forall x,
        keeps records_complete
              (BasePES._calc_eg (variant := CartPES.variant) x)).
Proof.
  pose proof update_keeps_complete as HU.
  destruct (reads_keep HU) as (Hf & Hg & Hgf & Hh).
  assert (HA : forall s s' : PES,
             records_complete s ->
             length (positions s') = length (positions s) ->
             apart_from_positions s' = apart_from_positions s ->
             records_complete s').
  { intros s s' Hs _ Ha. exact (records_complete_apart Ha Hs). }
  assert (HH : forall s H Hr l v,
             records_complete s -> records_complete (with_hessian H Hr l v s)).
  { intros s H Hr l v Hs. exact Hs. }
  split; [intros; split; reflexivity |].
  split; [exact HU |]. split; [exact Hf |]. split; [exact Hg |].
  split; [exact Hgf |]. split; [exact Hh |].
  split; [intros target; apply set_x_keeps; exact HA |].
  split; [intros target; apply set_H_keeps; exact HH |].
  split; [apply update_H_keeps; assumption |].
  intros x. apply calc_eg_keeps; assumption.
Qed.

(** X4.  With two records, [update_H] assigns to [H] the secant update
    of the Hessian it found, for the step from the [x] of [lastlast] to
    the geometry and the change from the [g] of [lastlast] to the
    gradient.  The step is taken before the gradient is read: when that
    read evaluates, [lastlast] has moved on by then, so the step is
    measured from the record before last and the change of gradient from
    the record that was last. *)
Theorem update_H_pairs_step_and_change (s s' : PES) (llx : vec) :
  r_x (lastlast s) = Some llx ->
  CartPES.update_H s = (Ok tt, s') ->
  exists (g1 llg : vec) (s1 : PES),
    CartPES.g s = (Ok g1, s1)
    /\ r_g (lastlast s1) = Some llg
    /\ _H s'
       = Some (hessian_update.update_H (_H s)
                 (as_column (vsub (ravel (positions s)) llx))
                 (as_column (vsub g1 llg)))
    /\ (stale s = false -> r_g (lastlast s) = Some llg)
    /\ (stale s = true ->
        r_g (last s) = Some llg /\ r_x (lastlast s1) = r_x (last s))
    /\ (last s', lastlast s', neval s') = (last s1, lastlast s1, neval s1)
    /\ positions s' = positions s.
Proof.
  intros Hx H. unfold CartPES.update_H in H.
  unfold bind at 1 in H. unfold get at 1 in H. rewrite Hx in H.
  unfold bind at 1 in H. unfold CartPES.x at 1, gets in H.
  apply bind_Ok in H. destruct H as (g1 & s1 & Eg & H).
  unfold bind at 1 in H. unfold get at 1 in H.
  apply bind_Ok in H. destruct H as (llg & t & Ell & H).
  apply some_or_Ok in Ell. destruct Ell as [Ell ->].
  exists g1, llg, s1.
  assert (Hkeep : positions s1 = positions s
                  /\ outside_records s1 = outside_records s).
  { pose proof Eg as Eg'. rewrite g_unfold in Eg'.
    destruct (update_cases s)
      as [[St E] | [[St (e0 & Hcal & E)]
                   | [St (en & F & u & Hcal & E & Hp & Hn & Hll & Hl & Ho)]]];
      rewrite E in Eg'; try discriminate Eg'.
    - apply some_or_Ok in Eg'. destruct Eg' as [_ ->]. split; reflexivity.
    - apply some_or_Ok in Eg'. destruct Eg' as [_ ->]. split; assumption. }
  destruct Hkeep as [Hp1 Ho1].
  assert (HH1 : _H s1 = _H s).
  { unfold outside_records in Ho1. inversion Ho1. reflexivity. }
  assert (Hes : eigensolver s1 = eigensolver s /\ eta s1 = eta s).
  { unfold outside_records in Ho1. inversion Ho1. split; reflexivity. }
  unfold CartPES.set_H in H. rewrite set_H_unfold in H. cbv zeta in H.
  destruct (eigh _) as [lv | e]; [| discriminate H].
  inversion H; subst s'.
  cbn [_H Hred lams vecs with_hessian positions last lastlast neval
       eigensolver eta apart_from_positions outside_records].
  rewrite HH1.
  split; [exact Eg |]. split; [exact Ell |]. split; [reflexivity |].
  split; [| split; [| split]].
  - intros St. rewrite g_unfold in Eg.
    destruct (update_cases s)
      as [[_ E] | [[St' _] | [St' _]]]; try congruence.
    rewrite E in Eg. apply some_or_Ok in Eg. destruct Eg as [_ ->].
    exact Ell.
  - intros St. rewrite g_unfold in Eg.
    destruct (update_cases s)
      as [[St' _] | [[_ (e0 & Hcal & E)]
                    | [_ (en & F & u & Hcal & E & Hp & Hn & Hll & Hl & Ho)]]];
      try congruence.
    + rewrite E in Eg. discriminate Eg.
    + rewrite E in Eg. apply some_or_Ok in Eg. destruct Eg as [_ ->].
      rewrite Hll in Ell. split; [exact Ell |]. rewrite Hll. reflexivity.
  - reflexivity.
  - exact Hp1.
Qed.

(** X5.  Assigning [x] and reading it back.  An array with three entries
    per atom is stored and read back as it is; an array whose length is
    not a multiple of three is refused with a ValueError and nothing
    changes.  Whatever is assigned, the number of atoms stays, and the
    records, the counter and the Hessian are not touched: nothing is
    evaluated until [f], [g], [gfree] or [h] is read. *)
Theorem x_is_stored_and_read_back (s : PES) (target : vec) :
  (length target = (3 * length (positions s))%nat ->
   exists p,
     CartPES.set_x target s = (Ok tt, with_positions p s)
     /\ CartPES.x (with_positions p s) = (Ok target, with_positions p s))
  /\ ((length target mod 3 <> 0)%nat ->
      exists msg, CartPES.set_x target s = (Raise (ValueError msg), s))
  /\ (forall r s',
        CartPES.set_x target s = (r, s') ->
        length (positions s') = length (positions s)
        /\ apart_from_positions s' = apart_from_positions s
        /\ (r <> Ok tt -> s' = s)).
Proof.
  split; [| split].
  - intros Hl. destruct (reshape3_total target _ Hl) as (p & Ep & Lp & Rp).
    exists p. unfold CartPES.set_x. rewrite Ep.
    unfold assign_positions. rewrite Lp, Nat.eqb_refl.
    split; [reflexivity |]. unfold CartPES.x, gets.
    cbn [positions with_positions]. rewrite Rp. reflexivity.
  - intros Hm. unfold CartPES.set_x. rewrite (reshape3_None target Hm).
    eexists. reflexivity.
  - intros r s' H. unfold CartPES.set_x in H.
    destruct (reshape3 target).
    + apply assign_positions_cases in H.
      destruct H as (Hl & Ha & _ & Hr). repeat split; assumption.
    + inversion H; subst. repeat split; reflexivity.
Qed.

End Complete.

Section Probe.

Context {calc : Calculator} {cons : ConstraintsAPI}.

(** X6.  When [_calc_eg(x)] returns, the atoms are back where they were
    and the Hessian is untouched, but the records are not: the energy
    returned is that of the last record, at most two evaluations were
    added, and for an [x] of the object's shape without NaN at most one,
    the last record then being the one at [x] that holds the energy and
    the gradient returned. *)
Theorem calc_eg_puts_the_atoms_back (x : vec) (s s' : PES) (en : float)
    (g : vec) :
  BasePES._calc_eg (variant := CartPES.variant) x s = (Ok (en, g), s') ->
  positions s' = positions s
  /\ outside_records s' = outside_records s
  /\ r_f (last s') = Some en
  /\ (neval s <= neval s' <= neval s + 2)%nat
  /\ (length x = (3 * length (positions s))%nat ->
      existsb is_nan x = false ->
      r_g (last s') = Some g
      /\ (neval s' <= neval s + 1)%nat
      /\ exists lx, r_x (last s') = Some lx /\ all_eq x lx = true).
Proof.
  intros H. unfold BasePES._calc_eg in H.
  cbn [v_set_x v_g CartPES.variant] in H.
  apply bind_Ok in H. destruct H as (pos0 & t0 & E0 & H).
  apply gets_Ok in E0. destruct E0 as [-> ->].
  apply bind_Ok in H. destruct H as (u1 & s1 & E1 & H).
  apply bind_Ok in H. destruct H as (g' & s2 & E2 & H).
  apply bind_Ok in H. destruct H as (e' & s3 & E3 & H).
  apply bind_Ok in H. destruct H as (u4 & s4 & E4 & H).
  unfold ret in H. inversion H; subst e' g' s4. clear H.
  pose proof (read_Ok r_g CartPES.g g_unfold _ E2) as (G1 & G2 & G3 & G4).
  pose proof (read_Ok r_f CartPES.f f_unfold _ E3) as (F1 & F2 & F3 & F4).
  pose proof E1 as E1'. unfold CartPES.set_x in E1'.
  destruct (reshape3 x) as [p |] eqn:Ep; [| discriminate E1'].
  pose proof (assign_positions_cases _ _ E1') as (A1 & A2 & A3 & _).
  pose proof (assign_positions_cases _ _ E4) as (B1 & B2 & B3 & _).
  assert (Hlen : length (positions s) = length (positions s3))
    by congruence.
  destruct (B3 Hlen) as [_ Bp].
  assert (HA : last s1 = last s /\ lastlast s1 = lastlast s
               /\ neval s1 = neval s
               /\ outside_records s1 = outside_records s).
  { unfold apart_from_positions in A2. repeat split; congruence. }
  assert (HB : last s' = last s3 /\ lastlast s' = lastlast s3
               /\ neval s' = neval s3
               /\ outside_records s' = outside_records s3).
  { unfold apart_from_positions in B2. repeat split; congruence. }
  destruct HA as (HA1 & HA2 & HA3 & HA4).
  destruct HB as (HB1 & HB2 & HB3 & HB4).
  split; [exact Bp |].
  split; [congruence |].
  split; [rewrite HB1; exact F1 |].
  split.
  { rewrite HB3.
    destruct G4 as [[_ ->] | (_ & Gn & _)];
      destruct F4 as [[_ ->] | (_ & Fn & _)]; lia. }
  intros Hl Hn.
  destruct (A3 ltac:(apply reshape3_Some in Ep; lia)) as [_ Ap].
  assert (Hx1 : ravel (positions s1) = x).
  { rewrite Ap. exact (proj1 (reshape3_Some _ Ep)). }
  assert (Hns : stale s2 = false
                /\ exists lx, r_x (last s2) = Some lx /\ all_eq x lx = true).
  { destruct G4 as [[St ->] | (_ & _ & _ & Gx & _)].
    - split; [exact St |]. unfold stale in St.
      destruct (r_x (last s1)) as [lx |]; [| discriminate St].
      exists lx. split; [reflexivity |]. rewrite Hx1 in St.
      apply negb_false_iff in St. exact St.
    - rewrite Hx1 in Gx.
      split.
      + apply (@fresh_record_is_not_stale s2 x Gx);
          rewrite G2, Hx1; [left; reflexivity | exact Hn].
      + exists x. split; [exact Gx | exact (all_eq_refl _ Hn)]. }
  destruct Hns as [St2 Hlx].
  destruct F4 as [[_ ->] | (St2' & _)]; [| congruence].
  rewrite HB1, HB3. split; [exact G1 |]. split; [| exact Hlx].
  destruct G4 as [[_ ->] | (_ & Gn & _)]; lia.
Qed.

End Probe.

Section DiagContract.

Context {calc : Calculator} {lapack : Lapack}
        {kernels : hessian_update.Kernels} {cons : ConstraintsAPI}
        {solver : Eigensolver}.

(** What the probing phase of [diag] keeps of the object it started
    from: the number of atoms, the evaluations counted so far, and
    everything outside the records. *)
Lemma probing_keeps (s : PES) :
  let Q := fun t : PES =>
             length (positions t) = length (positions s)
             /\ (neval s <= neval t)%nat
             /\ outside_records t = outside_records s in
  keeps Q CartPES._update
  /\ (forall t t' : PES,
         Q t -> length (positions t') = length (positions t) ->
         apart_from_positions t' = apart_from_positions t -> Q t').
Proof.
  intros Q. split.
  - apply update_keeps. intros t t' (Q1 & Q2 & Q3) _ Hp Hn _ _ _ Ho.
    unfold Q. rewrite Hp, Hn, Ho. repeat split; try assumption. lia.
  - intros t t' (Q1 & Q2 & Q3) Hl Ha. unfold apart_from_positions in Ha.
    unfold Q. repeat split; congruence.
Qed.

(** X7.  With an eigensolver that reaches the object only through the
    function it is given, a call of [diag] that returns leaves the atoms
    where they were and the settings as they were, takes no evaluation
    off the counter (those it made stay counted, although the records
    are put back), and leaves a Hessian: the update of the Hessian it
    was called with, together with [Hred] and the eigenpairs that belong
    to it at the geometry. *)
Theorem diag_returns_to_the_geometry_with_a_Hessian (gamma : float)
    (threepoint : bool) (maxiter : option nat) (s s' : PES) :
  through_callback solver ->
  CartPES.diag gamma threepoint maxiter s = (Ok tt, s') ->
  positions s' = positions s
  /\ (neval s <= neval s')%nat
  /\ eigensolver s' = eigensolver s
  /\ eta s' = eta s
  /\ exists (Vs AVs : matrix) (l : vec) (V : matrix),
       let H' := hessian_update.update_H (_H s) Vs AVs in
       let Hred' :=
         matmul (matmul (transpose (CartPES.Ufree s')) H')
                (CartPES.Ufree s') in
       _H s' = Some H'
       /\ Hred s' = Some Hred'
       /\ eigh Hred' = Ok (l, V)
       /\ lams s' = Some l
       /\ vecs s' = Some V.
Proof.
  intros Hcb H.
  pose proof (probing_keeps s) as HQ. cbv zeta in HQ.
  set (Q := fun t : PES =>
              length (positions t) = length (positions s)
              /\ (neval s <= neval t)%nat
              /\ outside_records t = outside_records s) in HQ.
  destruct HQ as [HU HA].
  destruct (reads_keep HU) as (_ & Hg & Hgf & _).
  assert (Q0 : Q s) by (repeat split; lia).
  unfold CartPES.diag, BasePES.diag in H.
  cbn [v_x v_set_x v_g v_xfree v_gfree v_Ufree v_drdx v_Ucons
       CartPES.variant] in H.
  apply bind_Ok in H. destruct H as (ll0 & t0 & E0 & H).
  apply gets_Ok in E0. destruct E0 as [-> ->].
  apply bind_Ok in H. destruct H as (l0 & t1 & E1 & H).
  apply gets_Ok in E1. destruct E1 as [-> ->].
  apply bind_Ok in H. destruct H as (x0 & t2 & E2 & H).
  apply gets_Ok in E2. destruct E2 as [-> ->].
  apply bind_Ok in H. destruct H as (P0 & t3 & E3 & H).
  apply gets_Ok in E3. destruct E3 as [-> ->].
  apply bind_Ok in H. destruct H as (Pv & sa & Ea & H).
  assert (Qa : Q sa).
  { refine (@keeps_apply _ _ Q _ s sa (Ok Pv) _ Q0 Ea). destruct (Hred s).
    - apply keeps_ret.
    - unfold CartPES.xfree. repeat keeps_step. }
  apply bind_Ok in H. destruct H as (g0 & sb & Eb & H).
  pose proof (Hg _ _ _ Qa Eb) as Qb.
  apply bind_Ok in H. destruct H as (sb' & t4 & E4 & H).
  apply get_Ok in E4. destruct E4 as [-> ->].
  apply bind_Ok in H. destruct H as (VA & sc & Ec & H).
  assert (Qc : Q sc).
  { refine (@keeps_apply _ _ Q _ sb sc (Ok VA) _ Qb Ec).
    apply (proj2 (Hcb Q)). intros v. apply (proj1 (Hcb Q)). intros x.
    apply calc_eg_keeps; assumption. }
  apply bind_Ok in H. destruct H as (u5 & sd & Ed & H).
  apply bind_Ok in H. destruct H as (thetaX & tX & EX & H).
  apply lift_Ok in EX. destruct EX as [EX ->].
  apply bind_Ok in H. destruct H as (sd' & t6 & E6 & H).
  apply get_Ok in E6. destruct E6 as [-> ->].
  apply bind_Ok in H. destruct H as (u7 & se & Ee & H).
  apply bind_Ok in H. destruct H as (u8 & sf & Ef & H).
  apply modify_Ok in Ef. apply modify_Ok in H. subst sf s'.
  unfold CartPES.set_x in Ed. rewrite reshape3_ravel in Ed.
  pose proof (assign_positions_cases _ _ Ed) as (D1 & D2 & D3 & _).
  destruct Qc as (Qc1 & Qc2 & Qc3).
  destruct (D3 ltac:(congruence)) as [_ Dp].
  rewrite set_H_unfold in Ee. cbv zeta in Ee.
  cbn [v_Ufree CartPES.variant] in Ee. unfold CartPES.Ufree in Ee.
  cbn [positions with_hessian] in Ee.
  match type of Ee with
  | match ?r with _ => _ end = _ => destruct r as [[l V] | e] eqn:EE
  end; [| discriminate Ee].
  inversion Ee; subst se. clear Ee.
  cbn [positions neval eigensolver eta _H Hred lams vecs with_last
       with_lastlast with_hessian].
  unfold apart_from_positions in D2.
  assert (Dn : neval sd = neval sc) by congruence.
  assert (Do : outside_records sd = outside_records s) by congruence.
  unfold outside_records in Do.
  split; [exact Dp |]. split; [lia |].
  split; [congruence |]. split; [congruence |].
  eexists. eexists. exists l, V. cbv zeta.
  unfold CartPES.Ufree. cbn [positions with_last with_lastlast with_hessian].
  assert (DH : _H sd = _H s) by congruence. rewrite DH in EE |- *.
  cbn [fst snd].
  split; [reflexivity |]. split; [reflexivity |].
  split; [exact EE |]. split; reflexivity.
Qed.

End DiagContract.

(** ** The retraction, further *)

Section RetractionMore.

Context {internal : InternalAPI} {integrator : Integrator}.

Lemma q_ode_apart (t : float) (y : vec) (s s' : PES) (r : result vec) :
  IntPES._q_ode t y s = (r, s') ->
  apart_from_positions s' = apart_from_positions s
  /\ length (positions s') = length (positions s).
Proof.
  intros H. unfold IntPES._q_ode in H.
  destruct (negb _); [inversion H; subst; split; reflexivity |].
  destruct (reshape3 (firstn (length y / 2) y)) as [p |].
  - unfold bind in H.
    destruct (assign_positions p s) as [[u | e] s1] eqn:Ea.
    + apply assign_positions_cases in Ea. destruct Ea as (A1 & A2 & _).
      unfold get, lift, ret in H.
      destruct (int_D (positions s1));
        [| inversion H; subst; split; assumption].
      destruct (int_Binv (positions s1)); inversion H; subst;
        split; assumption.
    + apply assign_positions_cases in Ea. destruct Ea as (A1 & A2 & _).
      inversion H; subst. split; assumption.
  - inversion H; subst. split; reflexivity.
Qed.

(** X8.  The right-hand side [_q_ode] moves the atoms: for a state
    vector of [2 nx] entries, [nx] being three per atom, it writes the
    first half into the positions and touches nothing else, also when
    [D] or [Binv] raises at the new geometry, which then goes through;
    when they return, the first half of the derivative it returns is the
    second half of the state vector.  A state vector of odd length, or
    one whose first half cannot be reshaped to rows of three, is refused
    with a ValueError and nothing changes.  However it ends, only the
    geometry can have changed, and not the number of atoms. *)
Theorem q_ode_moves_the_atoms (t : float) (y : vec) (s : PES) :
  (length y = (2 * (3 * length (positions s)))%nat ->
   exists p : geometry,
     ravel p = firstn (3 * length (positions s)) y
     /\ snd (IntPES._q_ode t y s) = with_positions p s
     /\ (forall (D : vec -> vec -> vec) (B : matrix),
           int_D p = Ok D -> int_Binv p = Ok B ->
           exists dydt : vec,
             IntPES._q_ode t y s = (Ok dydt, with_positions p s)
             /\ firstn (3 * length (positions s)) dydt
                = skipn (3 * length (positions s)) y)
     /\ (forall e : exn,
           int_D p = Raise e ->
           IntPES._q_ode t y s = (Raise e, with_positions p s))
     /\ (forall (D : vec -> vec -> vec) (e : exn),
           int_D p = Ok D -> int_Binv p = Raise e ->
           IntPES._q_ode t y s = (Raise e, with_positions p s)))
  /\ (((length y / 2) mod 3 <> 0)%nat ->
      exists msg, IntPES._q_ode t y s = (Raise (ValueError msg), s))
  /\ ((length y mod 2 = 1)%nat -> (3 <= length y)%nat ->
      exists msg, IntPES._q_ode t y s = (Raise (ValueError msg), s))
  /\ (forall r s',
        IntPES._q_ode t y s = (r, s') ->
        apart_from_positions s' = apart_from_positions s
        /\ length (positions s') = length (positions s)).
Proof.
  split; [| split; [| split]].
  - intros Hl.
    assert (Hnx : (length y / 2 = 3 * length (positions s))%nat).
    { rewrite Hl, Nat.mul_comm. apply Nat.div_mul. discriminate. }
    destruct (reshape3_total (firstn (3 * length (positions s)) y)
                (length (positions s))) as (p & Ep & Lp & Rp).
    { rewrite length_firstn. lia. }
    assert (Hs : length (skipn (3 * length (positions s)) y)
                 = (3 * length (positions s))%nat)
      by (rewrite length_skipn; lia).
    assert (U : IntPES._q_ode t y s
                = match int_D p with
                  | Raise e => (Raise e, with_positions p s)
                  | Ok D =>
                      match int_Binv p with
                      | Raise e => (Raise e, with_positions p s)
                      | Ok B =>
                          (Ok (skipn (3 * length (positions s)) y
                               ++ matvec (mneg B)
                                    (D (skipn (3 * length (positions s)) y)
                                       (skipn (3 * length (positions s)) y))),
                           with_positions p s)
                      end
                  end).
    { unfold IntPES._q_ode. rewrite Hnx, Hs, Nat.eqb_refl, Ep.
      cbn [orb negb]. unfold bind, assign_positions, get, lift, ret.
      rewrite Lp, Nat.eqb_refl. cbn [positions with_positions].
      destruct (int_D p); [| reflexivity].
      destruct (int_Binv p); [| reflexivity].
      rewrite firstn_all2 by lia. reflexivity. }
    exists p. split; [exact Rp |]. split; [| split; [| split]].
    + rewrite U. destruct (int_D p); [| reflexivity].
      destruct (int_Binv p); reflexivity.
    + intros D B HD HB. rewrite U, HD, HB. eexists. split; [reflexivity |].
      rewrite firstn_app, firstn_all2 by lia. rewrite Hs, Nat.sub_diag.
      cbn [firstn]. apply app_nil_r.
    + intros e HD. rewrite U, HD. reflexivity.
    + intros D e HD HB. rewrite U, HD, HB. reflexivity.
  - intros Hm. unfold IntPES._q_ode.
    destruct (negb _); [eexists; reflexivity |].
    rewrite reshape3_None; [eexists; reflexivity |].
    rewrite length_firstn.
    replace (Nat.min (length y / 2) (length y)) with (length y / 2)%nat;
      [exact Hm |].
    symmetry. apply Nat.min_l. apply Nat.Div0.div_le_upper_bound. lia.
  - intros Hodd H3. unfold IntPES._q_ode.
    assert (Hd : (length y = 2 * (length y / 2) + 1)%nat).
    { pose proof (Nat.div_mod_eq (length y) 2) as E. lia. }
    assert (Hs : length (skipn (length y / 2) y) = S (length y / 2))
      by (rewrite length_skipn; lia).
    rewrite Hs.
    replace (Nat.eqb (S (length y / 2)) (length y / 2)) with false
      by (symmetry; apply Nat.eqb_neq; lia).
    replace (Nat.eqb (S (length y / 2)) 1) with false
      by (symmetry; apply Nat.eqb_neq; lia).
    cbn [orb negb]. eexists. reflexivity.
  - intros r s' H. exact (q_ode_apart _ _ _ H).
Qed.

Lemma integrate_keeps (P : PES -> Prop) :
  through_rhs integrator ->
  (forall t y, keeps P (IntPES._q_ode t y)) ->
  forall fuel o, keeps P (IntPES.integrate fuel o).
Proof.
  intros Hthrough Hrhs fuel.
  induction fuel as [| fuel IH]; intros o; cbn [IntPES.integrate];
    destruct (status o); try apply keeps_ret.
  apply keeps_bind; [apply Hthrough; exact Hrhs |].
  intros o'. destruct (Nat.ltb 200 (nfev o')); [apply keeps_raise | apply IH].
Qed.

(** X9.  With an integrator that reaches the object only through the
    right-hand side, assigning [x] to an [IntPES] changes nothing but the
    positions of the atoms, not their number, whether the assignment
    returns or raises: no evaluation is made or counted and the records
    and the Hessian are as they were. *)
Theorem retraction_only_moves_the_atoms (fuel : nat) (target : vec)
    (s s' : PES) (r : result (option unit)) :
  through_rhs integrator ->
  IntPES.set_x fuel target s = (r, s') ->
  apart_from_positions s' = apart_from_positions s
  /\ length (positions s') = length (positions s).
Proof.
  intros Hthrough H.
  set (P := fun u : PES =>
              apart_from_positions u = apart_from_positions s
              /\ length (positions u) = length (positions s)).
  assert (HP : forall u u' : PES,
             P u -> length (positions u') = length (positions u) ->
             apart_from_positions u' = apart_from_positions u -> P u').
  { intros u u' [U1 U2] Hl Ha. split; congruence. }
  refine (@keeps_apply _ _ P _ s s' r _ (conj eq_refl eq_refl) H).
  unfold IntPES.set_x, IntPES.x. keeps_step; [keeps_step |].
  keeps_step; [repeat keeps_step |].
  keeps_step; [keeps_step |].
  keeps_step; [keeps_step |].
  keeps_step.
  - apply integrate_keeps; [exact Hthrough |]. intros t y u u' q Hu E.
    destruct (q_ode_apart _ _ _ E) as [A1 A2].
    exact (HP u u' Hu A2 A1).
  - match goal with
    | |- keeps _ (match ?r0 with _ => _ end) => destruct r0 as [o |]
    end; [| keeps_step].
    destruct (status o); try keeps_step;
      match goal with
      | |- keeps _ (match ?p with _ => _ end) => destruct p
      end;
      try keeps_step; try keeps_step;
      apply assign_positions_keeps; exact HP.
Qed.

Lemma integrate_more_fuel (n : nat) :
  forall (o : ode) (s : PES),
    fst (IntPES.integrate n o s) <> Ok None ->
    forall m, (n <= m)%nat ->
      IntPES.integrate m o s = IntPES.integrate n o s.
Proof.
  induction n as [| n IH]; intros o s H m Hm.
  - cbn [IntPES.integrate] in *.
    destruct (status o) eqn:Es.
    + contradiction H. reflexivity.
    + apply integrate_stopped. rewrite Es. discriminate.
    + apply integrate_stopped. rewrite Es. discriminate.
  - destruct m as [| m]; [lia |]. cbn [IntPES.integrate] in *.
    destruct (status o); try reflexivity.
    unfold bind in *.
    destruct (lsoda_step IntPES._q_ode o s) as [[o' | e] s1];
      [| reflexivity].
    destruct (Nat.ltb 200 (nfev o')); [reflexivity |].
    apply IH; [exact H | lia].
Qed.

Lemma integrate_ends (fuel : nat) :
  (forall (o o' : ode) (s s' : PES),
      status o = running ->
      lsoda_step IntPES._q_ode o s = (Ok o', s') -> (nfev o < nfev o')%nat) ->
  forall (o : ode) (s : PES),
    (nfev o <= 200)%nat -> (201 <= fuel + nfev o)%nat ->
    fst (IntPES.integrate fuel o s) <> Ok None.
Proof.
  intros Hgrow. induction fuel as [| fuel IH]; intros o s Hn Hf; [lia |].
  cbn [IntPES.integrate].
  destruct (status o) eqn:Es; try (cbn; discriminate).
  unfold bind at 1.
  destruct (lsoda_step IntPES._q_ode o s) as [[o' | e] s'] eqn:E;
    [| cbn; discriminate].
  pose proof (Hgrow o o' s s' Es E) as Hg.
  destruct (Nat.ltb 200 (nfev o')) eqn:Eb; [cbn; discriminate |].
  apply Nat.ltb_ge in Eb. apply IH; lia.
Qed.

(** X10.  When every call of [ode.step()] on a running solver evaluates
    the right-hand side at least once, the loop of the assignment ends
    within 201 calls of it: by then the solver has stopped or the
    evaluation budget is exceeded and the error raised.  A longer
    allowance changes nothing. *)
Theorem retraction_ends_within_201_steps (target : vec) (s : PES) :
  (forall (o o' : ode) (t t' : PES),
      status o = running ->
      lsoda_step IntPES._q_ode o t = (Ok o', t') -> (nfev o < nfev o')%nat) ->
  forall fuel, (201 <= fuel)%nat ->
    fst (IntPES.set_x fuel target s) <> Ok None
    /\ IntPES.set_x fuel target s = IntPES.set_x 201 target s.
Proof.
  intros Hgrow fuel Hf.
  rewrite !set_x_unfold.
  destruct (int_q (positions s)) as [q | e];
    [| split; [cbn; discriminate | reflexivity]].
  destruct (int_Binv (positions s)) as [B | e];
    [| split; [cbn; discriminate | reflexivity]].
  cbv zeta.
  destruct (lsoda_accepts _); [| split; [cbn; discriminate | reflexivity]].
  match goal with
  | |- context [IntPES.integrate fuel ?o s] => set (o0 := o)
  end.
  assert (H201 : fst (IntPES.integrate 201 o0 s) <> Ok None).
  { apply integrate_ends; [exact Hgrow | cbn; lia | cbn; lia]. }
  rewrite (@integrate_more_fuel 201 o0 s H201 fuel Hf).
  split; [| reflexivity].
  destruct (IntPES.integrate 201 o0 s) as [[[o |] | e] s1]; cbn in H201.
  - destruct (status o);
      destruct (reshape3 (firstn (length (ravel (positions s))) (ode_y o)));
      try (cbn; discriminate);
      destruct (assign_positions g s1) as [[u | e] s2]; cbn; discriminate.
  - contradiction H201. reflexivity.
  - cbn. discriminate.
Qed.

End RetractionMore.

(** ** [rs_newton_irc], further *)

(** Above 1e-8 is above zero. *)
Lemma above_threshold_is_positive (a : float) :
  (1e-8 <? a) = true -> (0 <? a) = true.
Proof.
  rewrite !ltb_spec.
  let v := eval vm_compute in (Prim2SF 1e-8) in
  change (Prim2SF 1e-8) with v.
  let v := eval vm_compute in (Prim2SF 0) in
  change (Prim2SF 0) with v.
  destruct (Prim2SF a) as [s | s | | s m e]; try destruct s;
    cbn; try discriminate; try reflexivity.
Qed.

Section Retained.

Context {lapack : Lapack}.

(** X11.  The eigenvalues that [rs_newton_irc] works with are
    magnitudes above the threshold: each exceeds 1e-8, so each is
    positive and none is NaN, whatever [eigh] returned; and there are as
    many of them as columns in each row of the eigenvectors kept. *)
Theorem retained_eigenvalues_exceed_the_threshold (Lv : vec * matrix) :
  Forall (fun l => (1e-8 <? l) = true /\ (0 <? l) = true)
         (fst (irc.retain Lv))
  /\ Forall (fun row => length row = length (fst (irc.retain Lv)))
            (snd (irc.retain Lv))
  /\ (forall (Lcart : vec) (v U : matrix) (sqrtm L : vec) (V : matrix),
        irc.retained Lcart v U sqrtm = Ok (L, V) ->
        Forall (fun l => (1e-8 <? l) = true /\ (0 <? l) = true) L
        /\ Forall (fun row => length row = length L) V).
Proof.
  assert (HR : forall Lv0 : vec * matrix,
             Forall (fun l => (1e-8 <? l) = true /\ (0 <? l) = true)
                    (fst (irc.retain Lv0))
             /\ Forall (fun row => length row = length (fst (irc.retain Lv0)))
                       (snd (irc.retain Lv0))).
  { intros Lv0. unfold irc.retain. cbv zeta. cbn [fst snd]. split.
    - unfold vabs, take. rewrite map_map. apply Forall_map.
      apply Forall_forall. intros i Hi. apply filter_In in Hi.
      destruct Hi as [_ Hi]. split; [exact Hi |].
      apply above_threshold_is_positive. exact Hi.
    - unfold take_columns, vabs, take. apply Forall_map.
      apply Forall_forall. intros row _. rewrite !length_map. reflexivity. }
  split; [exact (proj1 (HR Lv)) |]. split; [exact (proj2 (HR Lv)) |].
  intros Lcart v U sqrtm L V E. unfold irc.retained in E.
  destruct (eigh (irc.Hmw Lcart v U sqrtm)) as [Lv0 | e]; [| discriminate E].
  assert (E' : irc.retain Lv0 = (L, V)) by congruence.
  pose proof (HR Lv0) as W. rewrite E' in W. exact W.
Qed.

End Retained.

(** ** The IRC driver, further *)

Lemma with_pes_same (s : irc.IRC) : irc.with_pes (irc.pes s) s = s.
Proof. destruct s; reflexivity. Qed.

Lemma on_pes_keeps {A} (P : irc.IRC -> Prop) (m : M PES A) :
  (forall p s, P s -> P (irc.with_pes p s)) -> keeps P (irc.on_pes m).
Proof.
  intros HP s s' r Hs E. unfold irc.on_pes in E.
  destruct (m (irc.pes s)) as [r0 p]. inversion E; subst. apply HP. exact Hs.
Qed.

Lemma on_pes_run {A} (m : M PES A) (s : irc.IRC) (r : result A) (p : PES) :
  m (irc.pes s) = (r, p) -> irc.on_pes m s = (r, irc.with_pes p s).
Proof. intros E. unfold irc.on_pes. rewrite E. reflexivity. Qed.

Lemma on_pes_inv {A} (m : M PES A) (s s' : irc.IRC) (r : result A) :
  irc.on_pes m s = (r, s') ->
  m (irc.pes s) = (r, irc.pes s') /\ s' = irc.with_pes (irc.pes s') s.
Proof.
  unfold irc.on_pes. destruct (m (irc.pes s)) as [r0 p]. intros E.
  inversion E; subst. split; reflexivity.
Qed.

Section DiagTail.

Context {calc : Calculator} {lapack : Lapack}
        {kernels : hessian_update.Kernels} {cons : ConstraintsAPI}
        {solver : Eigensolver}.

(** When [diag] returns, the last things it did were to assign [H] and
    to put the records back. *)
Lemma diag_Ok_tail (gamma : float) (threepoint : bool) (maxiter : option nat)
    (s s' : PES) :
  CartPES.diag gamma threepoint maxiter s = (Ok tt, s') ->
  exists (K : matrix) (sd : PES),
    s' = with_last (last s)
           (with_lastlast (lastlast s)
              (snd (CartPES.set_H (Some K) sd))).
Proof.
  intros H. unfold CartPES.diag, BasePES.diag in H.
  apply bind_Ok in H. destruct H as (ll0 & t0 & E0 & H).
  apply gets_Ok in E0. destruct E0 as [-> ->].
  apply bind_Ok in H. destruct H as (l0 & t1 & E1 & H).
  apply gets_Ok in E1. destruct E1 as [-> ->].
  do 8 (let a := fresh "a" in let t := fresh "t" in let E := fresh "E" in
        apply bind_Ok in H; destruct H as (a & t & E & H)).
  apply bind_Ok in H. destruct H as (sd' & sd & Ed & H).
  apply get_Ok in Ed. destruct Ed as [-> ->].
  apply bind_Ok in H. destruct H as (u8 & se & Ee & H).
  apply bind_Ok in H. destruct H as (u9 & sf & Ef & H).
  apply modify_Ok in Ef. apply modify_Ok in H. subst sf s'.
  match type of Ee with
  | BasePES.set_H (Some ?K) ?sd = _ => exists K, sd
  end.
  unfold CartPES.set_H. rewrite Ee. reflexivity.
Qed.

End DiagTail.

Section IrunMore.

Context {calc : Calculator} {lapack : Lapack}
        {kernels : hessian_update.Kernels} {cons : ConstraintsAPI}
        {solver : Eigensolver}.

Lemma valid_direction (direction : string) :
  direction = "forward"%string \/ direction = "reverse"%string ->
  negb (String.eqb direction "forward" || String.eqb direction "reverse")
  = false.
Proof. intros [-> | ->]; reflexivity. Qed.

(** What the assignment of a matrix to [H] leaves, however it ends. *)
Lemma set_H_stores (K : matrix) (p : PES) :
  _H (snd (CartPES.set_H (Some K) p)) = Some K
  /\ last (snd (CartPES.set_H (Some K) p)) = last p
  /\ lastlast (snd (CartPES.set_H (Some K) p)) = lastlast p
  /\ positions (snd (CartPES.set_H (Some K) p)) = positions p
  /\ neval (snd (CartPES.set_H (Some K) p)) = neval p.
Proof.
  unfold CartPES.set_H. rewrite set_H_unfold. cbv zeta.
  destruct (eigh _); repeat split.
Qed.

(** The first [irun], by the outcome of [diag] and of [eigh]. *)
Lemma first_irun_unfold (fmax : float) (steps : option nat)
    (direction : string) (s : irc.IRC) (gamma : float) :
  irc.v0ts s = None ->
  direction = "forward"%string \/ direction = "reverse"%string ->
  irc.peskwargs s = Some gamma ->
  irc.irun fmax steps direction s
  = match CartPES.diag gamma false None (irc.pes s) with
    | (Raise e, p) => (Raise e, irc.with_pes p s)
    | (Ok _, p) =>
        match _H p with
        | None => (Raise TypeError, irc.with_pes p s)
        | Some H =>
            match eigh (mdiv H (outer (irc.sqrtm s) (irc.sqrtm s))) with
            | Raise e => (Raise e, irc.with_pes p s)
            | Ok Lv =>
                let v :=
                  vdiv (vscale (irc.dx s) (column (snd Lv) 0))
                       (irc.sqrtm s) in
                (Ok tt,
                 irc.with_first true
                   (irc.with_d1
                      (if String.eqb direction "forward" then v else vneg v)
                      (irc.with_anchor v H (last p) (irc.with_pes p s))))
            end
        end
    end.
Proof.
  intros Hv Hd Hk. unfold irc.irun. rewrite (valid_direction Hd).
  unfold bind at 1. unfold get at 1. rewrite Hv.
  unfold bind at 1. unfold bind at 1. rewrite Hk. cbn [some_or ret].
  unfold bind at 1. unfold irc.on_pes at 1.
  destruct (CartPES.diag gamma false None (irc.pes s))
    as [[u | e] p]; [| reflexivity].
  unfold bind at 1. unfold get at 1. cbn [irc.pes irc.with_pes].
  destruct (_H p) as [H |]; [| reflexivity].
  unfold bind, some_or, ret, lift, get, modify.
  cbn [irc.sqrtm irc.dx irc.v0ts irc.with_pes irc.with_anchor].
  destruct (eigh _) as [Lv | e]; reflexivity.
Qed.

(** X12.  The first [irun] (no anchor saved yet) in a valid direction.
    On an object built with a [peskwargs] argument there is no attribute
    [peskwargs], and [irun] raises AttributeError before anything is
    done.  Otherwise it runs [diag] once, with [gamma] and the defaults,
    and raises exactly when [diag] raises or, [diag] having returned,
    [eigh] raises on the mass-weighted Hessian, as it does when a mass
    is zero; the object is then as [diag] left it, with no anchor saved.
    When it returns, [H0] is the Hessian [diag] left, [peslast] is the
    last record, which is the one from before the call, [v0ts] is [dx]
    times the first eigenvector of the mass-weighted Hessian over
    [sqrtm], and [x0] and [xi] are as they were. *)
Theorem first_irun_saves_what_diag_left (fmax : float) (steps : option nat)
    (direction : string) (s : irc.IRC) :
  irc.v0ts s = None ->
  direction = "forward"%string \/ direction = "reverse"%string ->
  (irc.peskwargs s = None ->
   irc.irun fmax steps direction s = (Raise AttributeError, s))
  /\ (forall gamma : float,
        irc.peskwargs s = Some gamma ->
        (forall (e : exn) (s' : irc.IRC),
            irc.irun fmax steps direction s = (Raise e, s')
            <-> (exists p,
                    CartPES.diag gamma false None (irc.pes s) = (Raise e, p)
                    /\ s' = irc.with_pes p s)
                \/ (exists (p : PES) (H : matrix),
                       CartPES.diag gamma false None (irc.pes s) = (Ok tt, p)
                       /\ _H p = Some H
                       /\ eigh (mdiv H (outer (irc.sqrtm s) (irc.sqrtm s)))
                          = Raise e
                       /\ s' = irc.with_pes p s))
        /\ (forall s' : irc.IRC,
              irc.irun fmax steps direction s = (Ok tt, s') ->
              CartPES.diag gamma false None (irc.pes s)
              = (Ok tt, irc.pes s')
              /\ exists (H : matrix) (L : vec) (V : matrix),
                   _H (irc.pes s') = Some H
                   /\ eigh (mdiv H (outer (irc.sqrtm s) (irc.sqrtm s)))
                      = Ok (L, V)
                   /\ irc.H0 s' = Some H
                   /\ irc.peslast s' = Some (last (irc.pes s'))
                   /\ last (irc.pes s') = last (irc.pes s)
                   /\ irc.v0ts s'
                      = Some (vdiv (vscale (irc.dx s) (column V 0))
                                   (irc.sqrtm s))
                   /\ irc.x0 s' = irc.x0 s
                   /\ irc.xi s' = irc.xi s)).
Proof.
  intros Hv Hd. split.
  - intros Hk. unfold irc.irun. rewrite (valid_direction Hd).
    unfold bind at 1. unfold get at 1. rewrite Hv.
    unfold bind at 1. unfold bind at 1. rewrite Hk. reflexivity.
  - intros gamma Hk.
    pose proof (first_irun_unfold fmax steps s Hv Hd Hk) as U.
    destruct (CartPES.diag gamma false None (irc.pes s))
      as [[[] | e0] p] eqn:Ed.
    + destruct (diag_Ok_tail _ _ _ _ Ed) as (K & sd & Ep).
      assert (HK : _H p = Some K /\ last p = last (irc.pes s)).
      { rewrite Ep. cbn [_H last with_last with_lastlast].
        split; [exact (proj1 (set_H_stores K sd)) | reflexivity]. }
      destruct HK as [HK Hl]. rewrite HK in U.
      destruct (eigh (mdiv K (outer (irc.sqrtm s) (irc.sqrtm s))))
        as [[L V] | e1] eqn:EE; cbv zeta in U; cbn [snd] in U.
      * split.
        -- intros e s'. rewrite U. split; [discriminate |].
           intros [(p' & E & _) | (p' & H & E1 & E2 & E3 & _)];
             [discriminate E |].
           inversion E1; subst p'. rewrite HK in E2. inversion E2; subst H.
           rewrite EE in E3. discriminate E3.
        -- intros s' E. rewrite U in E. inversion E; subst s'. clear E.
           cbn. split; [reflexivity |]. exists K, L, V.
           rewrite HK, Hl. repeat split. exact EE.
      * split.
        -- intros e s'. rewrite U. split.
           ++ intros E. injection E as Ee Es. subst e s'. right.
              exists p, K. repeat split; assumption.
           ++ intros [(p' & E & _) | (p' & H & E1 & E2 & E3 & ->)];
                [discriminate E |].
              inversion E1; subst p'. rewrite HK in E2. inversion E2; subst H.
              rewrite EE in E3. inversion E3; subst. reflexivity.
        -- intros s' E. rewrite U in E. discriminate E.
    + split.
      * intros e s'. rewrite U. split.
        -- intros E. injection E as Ee Es. subst e s'. left.
           exists p. split; reflexivity.
        -- intros [(p' & E & ->) | (p' & H & E1 & _)];
             [inversion E; subst; reflexivity | discriminate E1].
      * intros s' E. rewrite U in E. discriminate E.
Qed.

(** The later [irun], by the outcome of the assignment to [H]. *)
Lemma later_irun_unfold (fmax : float) (steps : option nat)
    (direction : string) (s : irc.IRC) (v : vec) (H : matrix) (r : record)
    (p : geometry) :
  irc.v0ts s = Some v -> irc.H0 s = Some H -> irc.peslast s = Some r ->
  direction = "forward"%string \/ direction = "reverse"%string ->
  CartPES.set_x (irc.x0 s) (irc.pes s)
  = (Ok tt, with_positions p (irc.pes s)) ->
  irc.irun fmax steps direction s
  = match CartPES.set_H (Some H) (with_positions p (irc.pes s)) with
    | (Raise e, q) => (Raise e, irc.with_pes q s)
    | (Ok _, q) =>
        (Ok tt,
         irc.with_first true
           (irc.with_d1
              (if String.eqb direction "forward" then v else vneg v)
              (irc.with_pes (with_last r q) s)))
    end.
Proof.
  intros Hv HH Hr Hd Ex. unfold irc.irun. rewrite (valid_direction Hd).
  unfold bind at 1. unfold get at 1. rewrite Hv.
  unfold bind at 1. unfold bind at 1.
  rewrite (on_pes_run _ _ Ex).
  unfold bind at 1. rewrite HH. cbn [some_or ret].
  unfold bind at 1. unfold irc.on_pes at 1. cbn [irc.pes irc.with_pes].
  destruct (CartPES.set_H (Some H) (with_positions p (irc.pes s)))
    as [[u | e] q]; [| destruct s; reflexivity].
  unfold bind at 1. cbn [irc.peslast irc.with_pes]. rewrite Hr.
  cbn [some_or ret].
  unfold irc.on_pes at 1. unfold modify at 1.
  unfold bind at 1. unfold get at 1.
  unfold bind at 1. cbn [irc.v0ts irc.with_pes irc.pes]. rewrite Hv.
  cbn [some_or ret]. unfold bind, modify. destruct s; reflexivity.
Qed.

(** X13.  A later [irun] (anchors saved, [x0] of the object's shape) in
    a valid direction evaluates nothing and does not diagonalize: it puts
    the atoms at [x0] and assigns [H0] to [H].  When [eigh] returns on the
    reduced [H0], [irun] returns with the eigenpairs that go with [H0],
    [peslast] as the last record, [d1] set to [v0ts] or its negative and
    [first] set; the counter, [lastlast], the anchors and [xi] stay as
    they were.  When [eigh] raises, [irun] raises that, with the atoms at
    [x0], [H0] stored and the eigenpairs left from before. *)
Theorem later_irun_rewinds_without_evaluating (fmax : float)
    (steps : option nat) (direction : string) (s : irc.IRC) (v : vec)
    (H : matrix) (r : record) :
  irc.v0ts s = Some v -> irc.H0 s = Some H -> irc.peslast s = Some r ->
  length (irc.x0 s) = (3 * length (positions (irc.pes s)))%nat ->
  direction = "forward"%string \/ direction = "reverse"%string ->
  exists p : geometry,
    ravel p = irc.x0 s
    /\ let Hr := matmul (matmul (transpose (cons_Ufree p)) H)
                        (cons_Ufree p) in
       (forall (l : vec) (V : matrix),
           eigh Hr = Ok (l, V) ->
           exists s' : irc.IRC,
             irc.irun fmax steps direction s = (Ok tt, s')
             /\ positions (irc.pes s') = p
             /\ _H (irc.pes s') = Some H
             /\ Hred (irc.pes s') = Some Hr
             /\ lams (irc.pes s') = Some l
             /\ vecs (irc.pes s') = Some V
             /\ last (irc.pes s') = r
             /\ lastlast (irc.pes s') = lastlast (irc.pes s)
             /\ neval (irc.pes s') = neval (irc.pes s)
             /\ irc.d1 s'
                = Some (if String.eqb direction "forward" then v else vneg v)
             /\ irc.first s' = true
             /\ irc.anchors s' = irc.anchors s
             /\ irc.xi s' = irc.xi s)
       /\ (forall e : exn,
              eigh Hr = Raise e ->
              irc.irun fmax steps direction s
              = (Raise e,
                 irc.with_pes
                   (with_hessian (Some H) (Some Hr) (lams (irc.pes s))
                      (vecs (irc.pes s)) (with_positions p (irc.pes s)))
                   s)).
Proof.
  intros Hv HH Hr Hl Hd.
  destruct (reshape3_total (irc.x0 s) _ Hl) as (p & Ep & Lp & Rp).
  assert (Ex : CartPES.set_x (irc.x0 s) (irc.pes s)
               = (Ok tt, with_positions p (irc.pes s))).
  { unfold CartPES.set_x. rewrite Ep. unfold assign_positions.
    rewrite Lp, Nat.eqb_refl. reflexivity. }
  pose proof (later_irun_unfold fmax steps s Hv HH Hr Hd Ex) as U.
  unfold CartPES.set_H in U. rewrite set_H_unfold in U. cbv zeta in U.
  cbn [v_Ufree CartPES.variant] in U. unfold CartPES.Ufree in U.
  cbn [positions with_hessian with_positions Hred lams vecs] in U.
  exists p. split; [exact Rp |]. cbv zeta. split.
  - intros l V E. rewrite E in U. eexists. split; [exact U |].
    cbn. unfold irc.anchors. cbn. rewrite Hv, HH, Hr. repeat split.
  - intros e E. rewrite E in U. exact U.
Qed.

End IrunMore.

(** ** [step], further *)

Section StepMore.

Context {calc : Calculator} {lapack : Lapack}
        {kernels : hessian_update.Kernels} {cons : ConstraintsAPI}.

Lemma move_keeps (P : irc.IRC -> Prop) (g1 : option vec) :
  (forall b s, P s -> P (irc.with_first b s)) ->
  (forall x s, P s -> P (irc.with_xi x s)) ->
  (forall d s, P s -> P (irc.with_d1 d s)) ->
  keeps P (irc.move g1).
Proof.
  intros Hf Hx Hd. unfold irc.move. keeps_step; [keeps_step |].
  keeps_step; [keeps_step |].
  destruct (irc.first a).
  - keeps_step; [| keeps_step]. apply keeps_modify. intros s. apply Hf.
  - destruct (irc.rs_newton_irc (irc.pes a) (irc.sqrtm a) g1 a0 (irc.dx a)
                                (irc.xi a)) as [[[eps xi'] bc] | e];
      [| keeps_step].
    keeps_step; [apply keeps_modify; intros s; apply Hx |].
    keeps_step; [apply keeps_modify; intros s; apply Hd | keeps_step].
Qed.

Lemma inner_keeps (P : irc.IRC -> Prop) :
  (forall p s, P s -> P (irc.with_pes p s)) ->
  (forall b s, P s -> P (irc.with_first b s)) ->
  (forall x s, P s -> P (irc.with_xi x s)) ->
  (forall d s, P s -> P (irc.with_d1 d s)) ->
  forall n x0 Pfree g1 taken, keeps P (irc.inner n x0 Pfree g1 taken).
Proof.
  intros Hp Hf Hx Hd n.
  induction n as [| n IH]; intros x0 Pfree g1 taken; cbn [irc.inner];
    [keeps_step |].
  keeps_step; [apply move_keeps; assumption |].
  keeps_step; [keeps_step |].
  keeps_step; [keeps_step |].
  keeps_step; [apply on_pes_keeps; exact Hp |].
  keeps_step; [apply on_pes_keeps; exact Hp |].
  keeps_step; [apply on_pes_keeps; exact Hp |].
  match goal with
  | |- keeps _ (if ?c then _ else _) => destruct c
  end; [keeps_step | apply IH].
Qed.

Lemma step_keeps (P : irc.IRC -> Prop) :
  (forall p s, P s -> P (irc.with_pes p s)) ->
  (forall b s, P s -> P (irc.with_first b s)) ->
  (forall x s, P s -> P (irc.with_xi x s)) ->
  (forall d s, P s -> P (irc.with_d1 d s)) ->
  keeps P irc.step.
Proof.
  intros Hp Hf Hx Hd. unfold irc.step.
  keeps_step; [apply on_pes_keeps; exact Hp |].
  keeps_step; [keeps_step |].
  keeps_step; [apply inner_keeps; assumption |].
  keeps_step; [keeps_step |].
  keeps_step; [apply keeps_modify; intros s; apply Hd | keeps_step].
Qed.

Lemma inner_length (n : nat) :
  forall (x0 : vec) (Pfree : matrix) (g1 : option vec)
         (taken : list irc.branch) (s s' : irc.IRC)
         (r : vec * list irc.branch),
    irc.inner n x0 Pfree g1 taken s = (Ok r, s') ->
    (length taken + 1 <= length (snd r) <= length taken + n)%nat.
Proof.
  induction n as [| n IH]; intros x0 Pfree g1 taken s s' r H;
    [discriminate H |].
  cbn [irc.inner] in H.
  do 6 (let a := fresh "a" in let t := fresh "t" in let E := fresh "E" in
        apply bind_Ok in H; destruct H as (a & t & E & H)).
  match type of H with
  | (if ?c then _ else _) _ = _ => destruct c
  end.
  - unfold ret in H. inversion H; subst. cbn [snd].
    rewrite length_app. cbn [length]. lia.
  - apply IH in H. rewrite length_app in H. cbn [length] in H. lia.
Qed.

(** Right after a read of [g], [update_H] leaves that gradient in the
    last record, when no coordinate is NaN. *)
Lemma g_then_update_H (p p1 p2 : PES) (a : vec) :
  CartPES.g p = (Ok a, p1) ->
  CartPES.update_H p1 = (Ok tt, p2) ->
  existsb is_nan (ravel (positions p2)) = false ->
  r_g (last p2) = Some a.
Proof.
  intros Eg Eu Hn.
  pose proof (read_Ok r_g CartPES.g g_unfold _ Eg) as (G1 & G2 & G3 & G4).
  assert (Hpos : positions p2 = positions p1).
  { refine (@keeps_apply _ _ (fun t => positions t = positions p1) _
              p1 p2 (Ok tt) _ eq_refl Eu).
    apply update_H_keeps; [| intros; assumption].
    apply reads_keep. apply update_keeps. intros; congruence. }
  rewrite Hpos in Hn.
  assert (St : stale p1 = false).
  { destruct G4 as [[St ->] | (_ & _ & _ & Gx & _)]; [exact St |].
    apply (@fresh_record_is_not_stale p1 _ Gx); [| exact Hn].
    left. rewrite G2. reflexivity. }
  assert (Eg1 : CartPES.g p1 = (Ok a, p1)).
  { rewrite g_unfold.
    destruct (update_cases p1) as [[_ E] | [[St' _] | [St' _]]];
      try congruence.
    rewrite E, G1. reflexivity. }
  unfold CartPES.update_H in Eu.
  unfold bind at 1 in Eu. unfold get at 1 in Eu.
  destruct (r_x (lastlast p1)) as [llx |].
  - unfold bind at 1 in Eu. unfold CartPES.x at 1, gets in Eu.
    rewrite (bind_run _ _ _ Eg1) in Eu.
    unfold bind at 1 in Eu. unfold get at 1 in Eu.
    apply bind_Ok in Eu. destruct Eu as (llg & t & Et & Eu).
    apply some_or_Ok in Et. destruct Et as [_ ->].
    apply (@keeps_apply _ _ (fun u => last u = last p1) _ p1 p2 (Ok tt))
      in Eu; [| apply set_H_keeps; intros; assumption | reflexivity].
    rewrite Eu. exact G1.
  - unfold ret in Eu. inversion Eu; subst. exact G1.
Qed.

Lemma inner_gradient (n : nat) :
  forall (x0 : vec) (Pfree : matrix) (g1 : option vec)
         (taken : list irc.branch) (s s' : irc.IRC)
         (r : vec * list irc.branch),
    irc.inner n x0 Pfree g1 taken s = (Ok r, s') ->
    existsb is_nan (ravel (positions (irc.pes s'))) = false ->
    r_g (last (irc.pes s')) = Some (fst r).
Proof.
  induction n as [| n IH]; intros x0 Pfree g1 taken s s' r H Hn;
    [discriminate H |].
  cbn [irc.inner] in H.
  apply bind_Ok in H. destruct H as (bb & t0 & E0 & H).
  apply bind_Ok in H. destruct H as (s1 & t1 & E1 & H).
  apply bind_Ok in H. destruct H as (d & t2 & E2 & H).
  apply bind_Ok in H. destruct H as (u3 & t3 & E3 & H).
  apply bind_Ok in H. destruct H as (g1' & t4 & E4 & H).
  apply bind_Ok in H. destruct H as (u5 & t5 & E5 & H).
  match type of H with
  | (if ?c then _ else _) _ = _ => destruct c
  end.
  - unfold ret in H. inversion H; subst r s'. cbn [fst].
    apply on_pes_inv in E4. apply on_pes_inv in E5.
    destruct u5. exact (g_then_update_H _ (proj1 E4) (proj1 E5) Hn).
  - exact (IH _ _ _ _ _ _ _ H Hn).
Qed.

(** X15.  When [step] returns, it made between 1 and 100 passes; the
    anchors of the run and the settings are as they were; and [d1] has
    been replaced by the step of mass-weighted length [dx] down a
    gradient, which, when no coordinate of the geometry is NaN, is the
    gradient of the object's last record. *)
Theorem step_leaves_the_next_guess (s s' : irc.IRC)
    (taken : list irc.branch) :
  irc.step s = (Ok taken, s') ->
  (1 <= length taken <= 100)%nat
  /\ irc.anchors s' = irc.anchors s
  /\ exists g : vec,
       irc.d1 s'
       = Some (vdiv (vdivs (vscale (- irc.dx s) (vdiv g (irc.sqrtm s)))
                           (norm (vdiv g (irc.sqrtm s))))
                    (irc.sqrtm s))
       /\ (existsb is_nan (ravel (positions (irc.pes s'))) = false ->
           r_g (last (irc.pes s')) = Some g).
Proof.
  intros H.
  assert (HA : irc.anchors s' = irc.anchors s).
  { refine (@keeps_apply _ _ (fun t => irc.anchors t = irc.anchors s) _
              s s' (Ok taken) _ eq_refl H).
    apply step_keeps; intros; assumption. }
  unfold irc.step in H.
  apply bind_Ok in H. destruct H as (x0 & t0 & E0 & H).
  apply bind_Ok in H. destruct H as (s1 & t1 & E1 & H).
  apply get_Ok in E1. destruct E1 as [-> ->].
  apply bind_Ok in H. destruct H as (r & t2 & E2 & H).
  apply bind_Ok in H. destruct H as (s3 & t3 & E3 & H).
  apply get_Ok in E3. destruct E3 as [-> ->].
  apply bind_Ok in H. destruct H as (u4 & t4 & E4 & H).
  apply modify_Ok in E4. unfold ret in H. inversion H; subst taken s'.
  clear H.
  assert (HA2 : irc.anchors t2 = irc.anchors s).
  { rewrite <- HA, E4. reflexivity. }
  assert (Hsq : irc.sqrtm t2 = irc.sqrtm s /\ irc.dx t2 = irc.dx s).
  { unfold irc.anchors in HA2. split; congruence. }
  destruct Hsq as [Hsq Hdx].
  split; [pose proof (inner_length _ _ _ _ _ _ E2) as L; cbn in L; lia |].
  split; [exact HA |].
  exists (fst r). rewrite E4. cbn [irc.d1 irc.with_d1 irc.pes].
  rewrite Hsq, Hdx.
  split; [reflexivity |].
  intros Hn. exact (inner_gradient _ _ _ _ _ _ E2 Hn).
Qed.

End StepMore.

(** ** The constructor of [IRC], and [dx] *)

Section Construction.

Context {calc : Calculator} {lapack : Lapack}
        {kernels : hessian_update.Kernels} {cons : ConstraintsAPI}.

Lemma step_without_d1 (s : irc.IRC) :
  irc.d1 s = None -> irc.step s = (Raise AttributeError, s).
Proof.
  intros Hd. unfold irc.step.
  unfold bind at 1. unfold irc.on_pes at 1. unfold CartPES.x at 1, gets.
  rewrite with_pes_same.
  unfold bind at 1. unfold get at 1.
  unfold bind at 1. cbn [irc.inner]. unfold bind at 1. unfold irc.move.
  unfold bind at 1. unfold get at 1. unfold bind at 1.
  rewrite Hd. reflexivity.
Qed.

Lemma length_sqrtm_of (masses : vec) :
  length (irc.sqrtm_of masses) = (3 * length masses)%nat.
Proof.
  unfold irc.sqrtm_of. induction masses as [| m l IH]; [reflexivity |].
  cbn [flat_map app length]. rewrite IH. lia.
Qed.

(** X14.  The constructor refuses an [IntPES] object with a ValueError.
    Given a [CartPES] object it uses that very object, so the [eta]
    passed to the constructor is not applied; given atoms it builds a
    fresh [CartPES] with that [eta].  The object it returns remembers
    the geometry as [x0], has [xi = 1] and [first] set, holds three
    entries of [sqrtm] per mass (as many as [x0] has, with one mass per
    atom), and has neither anchors nor a [d1]: until [irun] is called,
    [step] raises AttributeError and changes nothing.  It has the
    attribute [peskwargs], holding [gamma], exactly when no [peskwargs]
    argument was given. *)
Theorem a_new_IRC_cannot_step_before_irun (masses : vec)
    (irctol dx eta gamma : float)
    (peskwargs : option (list (string * float))) (eigensolver : string) :
  irc.__init__ irc.an_IntPES masses irctol dx eta gamma peskwargs eigensolver
  = Raise irc.wrong_coordinates
  /\ (forall p : PES,
        exists s,
          irc.__init__ (irc.a_CartPES p) masses irctol dx eta gamma
                       peskwargs eigensolver = Ok s
          /\ irc.pes s = p)
  /\ (forall a : geometry,
        exists s,
          irc.__init__ (irc.an_Atoms a) masses irctol dx eta gamma
                       peskwargs eigensolver = Ok s
          /\ irc.pes s = CartPES.__init__ a eigensolver eta)
  /\ (forall (atoms : irc.system) (s : irc.IRC),
        irc.__init__ atoms masses irctol dx eta gamma peskwargs eigensolver
        = Ok s ->
        irc.x0 s = ravel (positions (irc.pes s))
        /\ irc.xi s = 1
        /\ irc.first s = true
        /\ irc.v0ts s = None /\ irc.H0 s = None /\ irc.peslast s = None
        /\ irc.d1 s = None
        /\ (length masses = length (positions (irc.pes s)) ->
            length (irc.sqrtm s) = length (irc.x0 s))
        /\ irc.step s = (Raise AttributeError, s)
        /\ (peskwargs = None -> irc.peskwargs s = Some gamma)
        /\ (peskwargs <> None -> irc.peskwargs s = None))
  /\ (forall s : irc.IRC,
        irc.d1 s = None -> irc.step s = (Raise AttributeError, s)).
Proof.
  split; [reflexivity |].
  split; [intros p; eexists; split; reflexivity |].
  split; [intros a; eexists; split; reflexivity |].
  split; [| exact step_without_d1].
  intros atoms s H.
  assert (Hs : irc.x0 s = ravel (positions (irc.pes s))
               /\ irc.xi s = 1 /\ irc.first s = true
               /\ irc.v0ts s = None /\ irc.H0 s = None
               /\ irc.peslast s = None /\ irc.d1 s = None
               /\ irc.sqrtm s = irc.sqrtm_of masses
               /\ irc.peskwargs s
                  = match peskwargs with
                    | None => Some gamma
                    | Some _ => None
                    end).
  { destruct atoms; inversion H; subst; repeat split. }
  destruct Hs as (H1 & H2 & H3 & H4 & H5 & H6 & H7 & H8 & H9).
  repeat (split; [assumption |]).
  split; [| split; [| split]].
  - intros Hl. rewrite H8, H1, length_sqrtm_of, length_ravel, Hl.
    reflexivity.
  - apply step_without_d1. exact H7.
  - intros ->. exact H9.
  - intros Hk. rewrite H9. destruct peskwargs; [reflexivity |].
    contradiction Hk. reflexivity.
Qed.

(** X16.  [dx(pos0)] measures without moving: for positions of the
    object's shape it returns the difference between the current [x] and
    the [x] at [pos0]; for positions of another number of rows (other
    than a single row) it raises ValueError; and in every case the
    object is left exactly as it was. *)
Theorem dx_measures_without_moving (pos0 : geometry) (s : PES) :
  (length pos0 = length (positions s) ->
   BasePES.dx (variant := CartPES.variant) pos0 s
   = (Ok (vsub (ravel (positions s)) (ravel pos0)), s))
  /\ (length pos0 <> length (positions s) -> length pos0 <> 1%nat ->
      exists msg,
        BasePES.dx (variant := CartPES.variant) pos0 s
        = (Raise (ValueError msg), s))
  /\ (forall r s',
        BasePES.dx (variant := CartPES.variant) pos0 s = (r, s') -> s' = s).
Proof.
  assert (Hback : forall t : PES,
             length (positions t) = length (positions s) ->
             apart_from_positions t = apart_from_positions s ->
             assign_positions (positions s) t = (Ok tt, s)).
  { intros t Hl Ha. unfold assign_positions. rewrite Hl, Nat.eqb_refl.
    f_equal. destruct t, s. unfold apart_from_positions, outside_records in Ha.
    cbn in Ha |- *. inversion Ha; subst. reflexivity. }
  assert (Hall : forall r s',
             BasePES.dx (variant := CartPES.variant) pos0 s = (r, s') ->
             s' = s).
  { intros r s' H. unfold BasePES.dx in H.
    cbn [v_x CartPES.variant] in H. unfold CartPES.x in H.
    unfold bind at 1 in H. unfold gets at 1 in H.
    unfold bind at 1 in H. unfold gets at 1 in H.
    unfold bind at 1 in H.
    destruct (assign_positions pos0 s) as [[u | e] t] eqn:Ea.
    - pose proof (assign_positions_cases _ _ Ea) as (A1 & A2 & _).
      unfold bind at 1 in H. unfold gets at 1 in H.
      unfold bind at 1 in H. rewrite (Hback t A1 A2) in H.
      unfold ret in H. inversion H. reflexivity.
    - pose proof (assign_positions_cases _ _ Ea) as (_ & _ & _ & A4).
      inversion H; subst. apply A4. discriminate. }
  split; [| split; [| exact Hall]].
  - intros Hl. unfold BasePES.dx. cbn [v_x CartPES.variant].
    unfold CartPES.x.
    unfold bind at 1. unfold gets at 1.
    unfold bind at 1. unfold gets at 1.
    unfold bind at 1. unfold assign_positions at 1.
    rewrite Hl, Nat.eqb_refl.
    unfold bind at 1. unfold gets at 1. cbn [positions with_positions].
    unfold bind at 1. rewrite Hback; [reflexivity | exact Hl | reflexivity].
  - intros Hl H1. unfold BasePES.dx. cbn [v_x CartPES.variant].
    unfold CartPES.x.
    unfold bind at 1. unfold gets at 1.
    unfold bind at 1. unfold gets at 1.
    unfold bind at 1. unfold assign_positions at 1.
    apply Nat.eqb_neq in Hl. rewrite Hl.
    destruct pos0 as [| row [| row' rest]];
      try (eexists; reflexivity).
    contradiction H1. reflexivity.
Qed.

End Construction.

(** ** The one-atom instance, further *)

Lemma toy_solver_through_callback : through_callback Toy.solver.
Proof.
  intros P. split.
  - intros func Hf x0 g0 eta threepoint v.
    cbn [NumericalHessian Toy.solver]. unfold Toy.finite_difference.
    keeps_step; [apply Hf |].
    destruct threepoint; [| keeps_step].
    keeps_step; [apply Hf | keeps_step].
  - intros Htrue HH U gamma Pm v0 method maxiter.
    cbn [rayleigh_ritz Toy.solver]. unfold Toy.one_probe.
    keeps_step; [apply HH | keeps_step].
Qed.

Lemma toy_integrator_through_rhs : through_rhs Toy.integrator.
Proof.
  intros P rhs Hr o. cbn [lsoda_step Toy.integrator].
  unfold Toy.euler_step. keeps_step; [apply Hr | keeps_step].
Qed.

Lemma toy_integrator_counts (o o' : ode) (t t' : PES) :
  status o = running ->
  lsoda_step (Integrator := Toy.integrator)
    (IntPES._q_ode (internal := Toy.internal)) o t = (Ok o', t') ->
  (nfev o < nfev o')%nat.
Proof.
  intros _ H. cbn [lsoda_step Toy.integrator] in H.
  unfold Toy.euler_step in H. apply bind_Ok in H.
  destruct H as (dy & t1 & _ & H). unfold ret in H. inversion H; subst.
  cbn [nfev]. lia.
Qed.

(** X1 at the first evaluation of a new object. *)
Lemma update_counts_witness :
  CartPES._update (calc := Toy.calc) (cons := Toy.cons)
    (Toy.fresh [(0.1, 0, 0)])
  = (Ok true, Toy.evaluated [(0.1, 0, 0)])
  /\ neval (Toy.evaluated [(0.1, 0, 0)]) = 1%nat
  /\ lastlast (Toy.evaluated [(0.1, 0, 0)]) = empty_record.
Proof.
  assert (H1 : CartPES._update (calc := Toy.calc) (cons := Toy.cons)
                 (Toy.fresh [(0.1, 0, 0)])
               = (Ok true, Toy.evaluated [(0.1, 0, 0)]))
    by (vm_compute; reflexivity).
  pose proof (@update_counts_each_evaluation Toy.calc Toy.cons
                (Toy.fresh [(0.1, 0, 0)]) (Toy.evaluated [(0.1, 0, 0)])
                true H1) as (_ & W1 & _ & W2 & _).
  split; [exact H1 | split; [exact W1 |]].
  exact (proj1 (W2 eq_refl)).
Defined.

(** X2 behind the wall: the calculator fails at [(-1, 0, 0)]. *)
Lemma read_raises_witness :
  complete (last (Toy.fresh [(-1, 0, 0)])) = true
  /\ CartPES.g (calc := Toy.walled) (cons := Toy.cons)
       (Toy.fresh [(-1, 0, 0)])
     = (Raise CalculatorError, Toy.fresh [(-1, 0, 0)]).
Proof.
  assert (H1 : complete (last (Toy.fresh [(-1, 0, 0)])) = true)
    by reflexivity.
  split; [exact H1 |].
  apply (proj2 (proj1 (proj2
           (@read_raises_what_the_calculator_raised Toy.walled Toy.cons
              (Toy.fresh [(-1, 0, 0)]) H1 CalculatorError
              (Toy.fresh [(-1, 0, 0)]))))).
  split; [reflexivity | split; [vm_compute; reflexivity | reflexivity]].
Defined.

(** X4 on the object evaluated at 0.1 and 0.2 and moved to 0.3: the step
    is 0.3 - 0.1 and the change of gradient is that from 0.2 to 0.3. *)
Lemma update_H_pairs_witness :
  r_x (lastlast Toy.moved) = Some [0.1; 0; 0]
  /\ r_x (last Toy.moved) = Some [0.2; 0; 0]
  /\ stale Toy.moved = true
  /\ CartPES.update_H (calc := Toy.calc) (lapack := Toy.lapack)
       (kernels := Toy.kernels) (cons := Toy.cons) Toy.moved
     = (Ok tt, Toy.after_update_H)
  /\ positions Toy.after_update_H = positions Toy.moved.
Proof.
  assert (H1 : r_x (lastlast Toy.moved) = Some [0.1; 0; 0])
    by (vm_compute; reflexivity).
  assert (H2 : CartPES.update_H (calc := Toy.calc) (lapack := Toy.lapack)
                 (kernels := Toy.kernels) (cons := Toy.cons) Toy.moved
               = (Ok tt, Toy.after_update_H))
    by (vm_compute; reflexivity).
  split; [exact H1 |].
  split; [vm_compute; reflexivity |].
  split; [vm_compute; reflexivity |].
  split; [exact H2 |].
  destruct (@update_H_pairs_step_and_change Toy.calc Toy.lapack Toy.kernels
              Toy.cons Toy.moved Toy.after_update_H [0.1; 0; 0] H1 H2)
    as (g1 & llg & s1 & _ & _ & _ & _ & _ & _ & W).
  exact W.
Defined.

(** X6 at the saddle point, probed at [(0.1, 0, 0)]. *)
Lemma calc_eg_witness :
  BasePES._calc_eg (variant := Toy.cart) [0.1; 0; 0] Toy.origin
  = (Ok (-0.0049750000000000011, [-0.099000000000000005; -0; -0]),
     Toy.probed)
  /\ positions Toy.probed = positions Toy.origin
  /\ r_f (last Toy.probed) = Some (-0.0049750000000000011).
Proof.
  assert (H1 : BasePES._calc_eg (variant := Toy.cart) [0.1; 0; 0] Toy.origin
               = (Ok (-0.0049750000000000011,
                      [-0.099000000000000005; -0; -0]),
                  Toy.probed))
    by (vm_compute; reflexivity).
  pose proof (@calc_eg_puts_the_atoms_back Toy.calc Toy.cons [0.1; 0; 0]
                Toy.origin Toy.probed (-0.0049750000000000011)
                [-0.099000000000000005; -0; -0] H1) as (W1 & _ & W2 & _).
  split; [exact H1 | split; [exact W1 | exact W2]].
Defined.

(** X7 at the saddle point. *)
Lemma diag_returns_witness :
  through_callback Toy.solver
  /\ CartPES.diag (calc := Toy.calc) (lapack := Toy.lapack)
       (kernels := Toy.kernels) (cons := Toy.cons) (solver := Toy.solver)
       0.5 true None Toy.origin
     = (Ok tt, Toy.after_diag)
  /\ positions Toy.after_diag = positions Toy.origin
  /\ (neval Toy.origin <= neval Toy.after_diag)%nat.
Proof.
  assert (H1 : CartPES.diag (calc := Toy.calc) (lapack := Toy.lapack)
                 (kernels := Toy.kernels) (cons := Toy.cons)
                 (solver := Toy.solver) 0.5 true None Toy.origin
               = (Ok tt, Toy.after_diag))
    by (vm_compute; reflexivity).
  pose proof (@diag_returns_to_the_geometry_with_a_Hessian Toy.calc
                Toy.lapack Toy.kernels Toy.cons Toy.solver 0.5 true None
                Toy.origin Toy.after_diag toy_solver_through_callback H1)
    as (W1 & W2 & _).
  split; [exact toy_solver_through_callback |].
  split; [exact H1 | split; [exact W1 | exact W2]].
Defined.

(** X9 at the retraction from the origin to [(1, 2, 3)]. *)
Lemma retraction_only_moves_witness :
  through_rhs Toy.integrator
  /\ IntPES.set_x (internal := Toy.internal) (integrator := Toy.integrator)
       5 [1; 2; 3] (Toy.fresh [(0, 0, 0)])
     = (Ok (Some tt), with_positions [(1, 2, 3)] Toy.euler_object)
  /\ apart_from_positions (with_positions [(1, 2, 3)] Toy.euler_object)
     = apart_from_positions (Toy.fresh [(0, 0, 0)]).
Proof.
  assert (H1 : IntPES.set_x (internal := Toy.internal)
                 (integrator := Toy.integrator) 5 [1; 2; 3]
                 (Toy.fresh [(0, 0, 0)])
               = (Ok (Some tt), with_positions [(1, 2, 3)] Toy.euler_object))
    by (vm_compute; reflexivity).
  split; [exact toy_integrator_through_rhs | split; [exact H1 |]].
  exact (proj1 (@retraction_only_moves_the_atoms Toy.internal Toy.integrator
                  5 [1; 2; 3] (Toy.fresh [(0, 0, 0)])
                  (with_positions [(1, 2, 3)] Toy.euler_object)
                  (Ok (Some tt)) toy_integrator_through_rhs H1)).
Defined.

(** X10 with the Euler integrator, which evaluates once per step. *)
Lemma retraction_ends_witness :
  IntPES.set_x (internal := Toy.internal) (integrator := Toy.integrator)
    1000 [1; 2; 3] (Toy.fresh [(0, 0, 0)])
  = IntPES.set_x (internal := Toy.internal) (integrator := Toy.integrator)
      201 [1; 2; 3] (Toy.fresh [(0, 0, 0)]).
Proof.
  apply (@retraction_ends_within_201_steps Toy.internal Toy.integrator
           [1; 2; 3] (Toy.fresh [(0, 0, 0)]) toy_integrator_counts 1000).
  lia.
Defined.

(** X12 at the first [irun] of the run; on the object with a mass of
    zero, where [diag] returns and [eigh] refuses the mass-weighted
    Hessian; and on the object built with a [peskwargs] argument. *)
Lemma first_irun_witness :
  irc.v0ts (Toy.fresh_irc [(0, 0, 0)]) = None
  /\ irc.irun (calc := Toy.calc) (lapack := Toy.lapack)
       (kernels := Toy.kernels) (cons := Toy.cons) (solver := Toy.solver)
       0.05 None "forward" (Toy.fresh_irc [(0, 0, 0)])
     = (Ok tt, Toy.started)
  /\ CartPES.diag (calc := Toy.calc) (lapack := Toy.lapack)
       (kernels := Toy.kernels) (cons := Toy.cons) (solver := Toy.solver)
       0.4 false None (irc.pes (Toy.fresh_irc [(0, 0, 0)]))
     = (Ok tt, irc.pes Toy.started)
  /\ irc.irun (calc := Toy.calc) (lapack := Toy.lapack)
       (kernels := Toy.kernels) (cons := Toy.cons) (solver := Toy.solver)
       0.05 None "forward" Toy.massless_irc
     = (Raise not_finite, irc.with_pes (irc.pes Toy.started) Toy.massless_irc)
  /\ irc.irun (calc := Toy.calc) (lapack := Toy.lapack)
       (kernels := Toy.kernels) (cons := Toy.cons) (solver := Toy.solver)
       0.05 None "forward" Toy.kwargs_irc
     = (Raise AttributeError, Toy.kwargs_irc).
Proof.
  assert (H1 : irc.irun (calc := Toy.calc) (lapack := Toy.lapack)
                 (kernels := Toy.kernels) (cons := Toy.cons)
                 (solver := Toy.solver) 0.05 None "forward"
                 (Toy.fresh_irc [(0, 0, 0)])
               = (Ok tt, Toy.started))
    by (vm_compute; reflexivity).
  assert (H2 : CartPES.diag (calc := Toy.calc) (lapack := Toy.lapack)
                 (kernels := Toy.kernels) (cons := Toy.cons)
                 (solver := Toy.solver) 0.4 false None
                 (irc.pes Toy.massless_irc)
               = (Ok tt, irc.pes Toy.started))
    by (vm_compute; reflexivity).
  split; [reflexivity | split; [exact H1 |]].
  split; [| split].
  - exact (proj1 (proj2 (proj2 (@first_irun_saves_what_diag_left Toy.calc
                                  Toy.lapack Toy.kernels Toy.cons Toy.solver
                                  0.05 None "forward"
                                  (Toy.fresh_irc [(0, 0, 0)]) eq_refl
                                  (or_introl eq_refl))
                          0.4 eq_refl)
                   Toy.started H1)).
  - apply (proj1 (proj2 (@first_irun_saves_what_diag_left Toy.calc
                           Toy.lapack Toy.kernels Toy.cons Toy.solver
                           0.05 None "forward" Toy.massless_irc eq_refl
                           (or_introl eq_refl))
                   0.4 eq_refl)).
    right. exists (irc.pes Toy.started).
    exists [[-0.99999999000000006; 0; 0]; [0; 0; 0]; [0; 0; 0]].
    split; [exact H2 |].
    split; [vm_compute; reflexivity |].
    split; [vm_compute; reflexivity | reflexivity].
  - exact (proj1 (@first_irun_saves_what_diag_left Toy.calc Toy.lapack
                    Toy.kernels Toy.cons Toy.solver 0.05 None "forward"
                    Toy.kwargs_irc eq_refl (or_introl eq_refl))
             eq_refl).
Defined.

(** X13 at the [irun] in the reverse direction after the first step. *)
Lemma later_irun_witness :
  irc.v0ts Toy.stepped = Some [0.1; 0; 0]
  /\ irc.H0 Toy.stepped
     = Some [[-0.99999999000000006; 0; 0]; [0; 0; 0]; [0; 0; 0]]
  /\ irc.peslast Toy.stepped = Some empty_record
  /\ exists s' : irc.IRC,
       irc.irun (calc := Toy.calc) (lapack := Toy.lapack)
         (kernels := Toy.kernels) (cons := Toy.cons) (solver := Toy.solver)
         0.05 None "reverse" Toy.stepped
       = (Ok tt, s')
       /\ ravel (positions (irc.pes s')) = irc.x0 Toy.stepped
       /\ lams (irc.pes s') = Some [-0.99999999000000006].
Proof.
  assert (H1 : irc.v0ts Toy.stepped = Some [0.1; 0; 0])
    by (vm_compute; reflexivity).
  assert (H2 : irc.H0 Toy.stepped
               = Some [[-0.99999999000000006; 0; 0]; [0; 0; 0]; [0; 0; 0]])
    by (vm_compute; reflexivity).
  assert (H3 : irc.peslast Toy.stepped = Some empty_record)
    by (vm_compute; reflexivity).
  assert (H4 : length (irc.x0 Toy.stepped)
               = (3 * length (positions (irc.pes Toy.stepped)))%nat)
    by (vm_compute; reflexivity).
  split; [exact H1 | split; [exact H2 | split; [exact H3 |]]].
  destruct (@later_irun_rewinds_without_evaluating Toy.calc Toy.lapack
              Toy.kernels Toy.cons Toy.solver 0.05 None "reverse"
              Toy.stepped _ _ _ H1 H2 H3 H4 (or_intror eq_refl))
    as (p & Rp & W & _).
  destruct (W [-0.99999999000000006] [[1]] ltac:(vm_compute; reflexivity))
    as (s' & W1 & W2 & _ & _ & W3 & _).
  exists s'. split; [exact W1 |]. split; [| exact W3].
  rewrite W2. exact Rp.
Defined.

(** X15 at the first step of the run. *)
Lemma step_leaves_witness :
  irc.step (calc := Toy.calc) (lapack := Toy.lapack) (kernels := Toy.kernels)
    (cons := Toy.cons) Toy.started
  = (Ok [irc.Trivial], Toy.stepped)
  /\ irc.anchors Toy.stepped = irc.anchors Toy.started.
Proof.
  assert (H1 : irc.step (calc := Toy.calc) (lapack := Toy.lapack)
                 (kernels := Toy.kernels) (cons := Toy.cons) Toy.started
               = (Ok [irc.Trivial], Toy.stepped))
    by (vm_compute; reflexivity).
  split; [exact H1 |].
  exact (proj1 (proj2 (@step_leaves_the_next_guess Toy.calc Toy.lapack
                         Toy.kernels Toy.cons Toy.started Toy.stepped
                         [irc.Trivial] H1))).
Defined.

(** X17 at the geometry with a NaN coordinate: three reads, three more
    evaluations. *)
Lemma reads_witness :
  existsb is_nan (ravel (positions Toy.nan_state)) = true
  /\ neval Toy.nan_state = 1%nat
  /\ exists s',
       reads (calc := Toy.calc) (cons := Toy.cons) 3 Toy.nan_state
       = (Ok tt, s')
       /\ neval s' = 4%nat.
Proof.
  assert (H1 : existsb is_nan (ravel (positions Toy.nan_state)) = true)
    by (vm_compute; reflexivity).
  split; [exact H1 | split; [vm_compute; reflexivity |]].
  destruct (reads (calc := Toy.calc) (cons := Toy.cons) 3 Toy.nan_state)
    as [[[] | e] s'] eqn:E.
  - exists s'. split; [reflexivity |].
    rewrite (proj2 (@reads_share_one_evaluation_unless_NaN Toy.calc Toy.cons
                      3 Toy.nan_state s' E) H1).
    vm_compute. reflexivity.
  - exfalso. apply (f_equal fst) in E. vm_compute in E. discriminate E.
Defined.

(** ** The order of IEEE values *)

Lemma compare_cont_Eq (m1 m2 : positive) :
  PosDef.Pos.compare_cont Eq m1 m2 = Pos.compare m1 m2.
Proof. reflexivity. Qed.

(** Exponent first, then mantissa. *)
Lemma lex_Lt (e1 e2 : Z) (m1 m2 : positive) :
  match (e1 ?= e2)%Z with
  | Eq => PosDef.Pos.compare_cont Eq m1 m2
  | Lt => Lt
  | Gt => Gt
  end = Lt
  <-> (e1 < e2)%Z \/ (e1 = e2 /\ (m1 < m2)%positive).
Proof.
  rewrite compare_cont_Eq.
  destruct (Z.compare_spec e1 e2) as [He | He | He].
  - rewrite Pos.compare_lt_iff. split; [intros H; right; split; assumption |].
    intros [H | [_ H]]; [lia | exact H].
  - split; [intros _; left; exact He | reflexivity].
  - split; [discriminate | intros [H | [H _]]; lia].
Qed.

Lemma lex_Eq (e1 e2 : Z) (m1 m2 : positive) :
  match (e1 ?= e2)%Z with
  | Eq => PosDef.Pos.compare_cont Eq m1 m2
  | Lt => Lt
  | Gt => Gt
  end = Eq
  <-> e1 = e2 /\ m1 = m2.
Proof.
  rewrite compare_cont_Eq.
  destruct (Z.compare_spec e1 e2) as [He | He | He].
  - rewrite Pos.compare_eq_iff. split; [intros H; split; assumption |].
    intros [_ H]; exact H.
  - split; [discriminate | intros [H _]; lia].
  - split; [discriminate | intros [H _]; lia].
Qed.

Lemma lex_Gt (e1 e2 : Z) (m1 m2 : positive) :
  match (e1 ?= e2)%Z with
  | Eq => PosDef.Pos.compare_cont Eq m1 m2
  | Lt => Lt
  | Gt => Gt
  end = Gt
  <-> (e2 < e1)%Z \/ (e1 = e2 /\ (m2 < m1)%positive).
Proof.
  rewrite compare_cont_Eq.
  destruct (Z.compare_spec e1 e2) as [He | He | He].
  - rewrite Pos.compare_gt_iff. split; [intros H; right; split; assumption |].
    intros [H | [_ H]]; [lia | exact H].
  - split; [discriminate | intros [H | [H _]]; lia].
  - split; [intros _; left; exact He | reflexivity].
Qed.

Lemma lex_opp_Lt (e1 e2 : Z) (m1 m2 : positive) :
  match (e1 ?= e2)%Z with
  | Eq => CompOpp (PosDef.Pos.compare_cont Eq m1 m2)
  | Lt => Gt
  | Gt => Lt
  end = Lt
  <-> (e2 < e1)%Z \/ (e1 = e2 /\ (m2 < m1)%positive).
Proof.
  rewrite <- lex_Gt.
  destruct (e1 ?= e2)%Z; [| split; discriminate | split; reflexivity].
  destruct (PosDef.Pos.compare_cont Eq m1 m2); cbn; split;
    try discriminate; reflexivity.
Qed.

Lemma lex_opp_Eq (e1 e2 : Z) (m1 m2 : positive) :
  match (e1 ?= e2)%Z with
  | Eq => CompOpp (PosDef.Pos.compare_cont Eq m1 m2)
  | Lt => Gt
  | Gt => Lt
  end = Eq
  <-> e1 = e2 /\ m1 = m2.
Proof.
  rewrite <- lex_Eq.
  destruct (e1 ?= e2)%Z; [| split; discriminate | split; discriminate].
  destruct (PosDef.Pos.compare_cont Eq m1 m2); cbn; split;
    try discriminate; reflexivity.
Qed.

(** [a <= b] and [a < b] on the specification side, as propositions. *)
Lemma SFleb_cases (a b : spec_float) :
  SFleb a b = true <-> SFcompare a b = Some Lt \/ SFcompare a b = Some Eq.
Proof.
  unfold SFleb. destruct (SFcompare a b) as [[| |] |]; split;
    try discriminate; try (intros [H | H]; discriminate H);
    try (intros _; right; reflexivity); try (intros _; left; reflexivity);
    reflexivity.
Qed.

Lemma SFltb_cases (a b : spec_float) :
  SFltb a b = true <-> SFcompare a b = Some Lt.
Proof.
  unfold SFltb. destruct (SFcompare a b) as [[| |] |]; split;
    try discriminate; reflexivity.
Qed.

Ltac lex_facts :=
  repeat match goal with
  | H : _ = Lt |- _ =>
      first [apply lex_Lt in H | apply lex_opp_Lt in H]
  | H : _ = Eq |- _ =>
      first [apply lex_Eq in H | apply lex_opp_Eq in H]
  end.

Lemma SFcompare_trans (a b c : spec_float) (r1 r2 : comparison) :
  SFcompare a b = Some r1 -> SFcompare b c = Some r2 ->
  r1 <> Gt -> r2 <> Gt ->
  SFcompare a c
  = Some (match r1, r2 with Eq, Eq => Eq | _, _ => Lt end).
Proof.
  intros H1 H2 N1 N2.
  destruct r1; try (contradiction N1; reflexivity);
    destruct r2; try (contradiction N2; reflexivity);
    clear N1 N2;
    destruct a as [sa | sa | | sa ma ea], b as [sb | sb | | sb mb eb],
             c as [sc | sc | | sc mc ec];
    cbn in H1, H2 |- *; try discriminate;
    repeat match goal with s : bool |- _ => destruct s end;
    try discriminate; try reflexivity;
    injection H1 as H1; injection H2 as H2; f_equal; lex_facts;
    first [ apply lex_Eq; lia | apply lex_opp_Eq; lia
          | apply lex_Lt; lia | apply lex_opp_Lt; lia ].
Qed.

Lemma SFcompare_antisym (a b : spec_float) :
  SFcompare b a = option_map CompOpp (SFcompare a b).
Proof.
  destruct a as [sa | sa | | sa ma ea], b as [sb | sb | | sb mb eb];
    cbn; repeat match goal with s : bool |- _ => destruct s end;
    try reflexivity; f_equal; rewrite (Z.compare_antisym ea eb);
    destruct (ea ?= eb)%Z; cbn; try reflexivity;
    rewrite !compare_cont_Eq, (Pos.compare_antisym ma mb); reflexivity.
Qed.

(** The comparisons of floats are transitive, and total away from
    NaN. *)
Lemma ltb_trans (a b c : float) :
  (a <? b) = true -> (b <? c) = true -> (a <? c) = true.
Proof.
  rewrite !ltb_spec, !SFltb_cases. intros H1 H2.
  rewrite (SFcompare_trans _ _ _ H1 H2) by discriminate. reflexivity.
Qed.

Lemma leb_ltb_trans (a b c : float) :
  (a <=? b) = true -> (b <? c) = true -> (a <? c) = true.
Proof.
  rewrite leb_spec, !ltb_spec, SFleb_cases, !SFltb_cases.
  intros [H1 | H1] H2;
    rewrite (SFcompare_trans _ _ _ H1 H2) by discriminate; reflexivity.
Qed.

Lemma ltb_leb_trans (a b c : float) :
  (a <? b) = true -> (b <=? c) = true -> (a <? c) = true.
Proof.
  rewrite leb_spec, !ltb_spec, SFleb_cases, !SFltb_cases.
  intros H1 [H2 | H2];
    rewrite (SFcompare_trans _ _ _ H1 H2) by discriminate; reflexivity.
Qed.

Lemma not_nan_spec (a : float) :
  is_nan a = false -> Prim2SF a <> S754_nan.
Proof.
  unfold is_nan. intros H E. apply negb_false_iff in H.
  rewrite FloatAxioms.eqb_spec in H. unfold SFeqb in H. rewrite E in H.
  discriminate H.
Qed.

Lemma not_leb_ltb (a b : float) :
  is_nan a = false -> is_nan b = false ->
  (b <=? a) = false -> (a <? b) = true.
Proof.
  intros Ha Hb. apply not_nan_spec in Ha, Hb.
  rewrite leb_spec, ltb_spec. unfold SFleb, SFltb.
  rewrite (SFcompare_antisym (Prim2SF a) (Prim2SF b)).
  destruct (SFcompare (Prim2SF a) (Prim2SF b)) as [[| |] |] eqn:E; cbn;
    try discriminate; try reflexivity.
  intros _. exfalso.
  destruct (Prim2SF a) as [sa | sa | | sa ma ea];
    destruct (Prim2SF b) as [sb | sb | | sb mb eb];
    try discriminate E; try (apply Ha; reflexivity);
    try (apply Hb; reflexivity).
Qed.

Lemma ltb_nan_l (a c : float) : is_nan a = true -> (a <? c) = false.
Proof.
  unfold is_nan. intros H. apply negb_true_iff in H.
  rewrite FloatAxioms.eqb_spec in H. rewrite ltb_spec.
  unfold SFeqb, SFltb in *.
  destruct (Prim2SF a) as [sa | sa | | sa ma ea]; try reflexivity.
  - destruct sa; discriminate H.
  - destruct sa; discriminate H.
  - rewrite SFcompare_refl in H by discriminate. discriminate H.
Qed.

(** ** [converged] of the PES *)

Lemma np_maximum_ltb (a b c : float) :
  (np_maximum a b <? c) = (a <? c) && (b <? c).
Proof.
  unfold np_maximum. destruct (is_nan a) eqn:Na.
  - rewrite orb_true_r, (@ltb_nan_l a c Na). reflexivity.
  - rewrite orb_false_r. destruct (b <=? a) eqn:Hba.
    + destruct (a <? c) eqn:Hac; [| reflexivity].
      rewrite (@leb_ltb_trans b a c Hba Hac). reflexivity.
    + destruct (is_nan b) eqn:Nb.
      * rewrite (@ltb_nan_l b c Nb), andb_false_r. reflexivity.
      * pose proof (@not_leb_ltb a b Na Nb Hba) as Hab.
        destruct (b <? c) eqn:Hbc; [| rewrite andb_false_r; reflexivity].
        rewrite (@ltb_trans a b c Hab Hbc). reflexivity.
Qed.

Lemma fold_maximum_ltb (rest : vec) :
  forall a c : float,
    (fold_left np_maximum rest a <? c)
    = (a <? c) && forallb (fun x => x <? c) rest.
Proof.
  induction rest as [| b rest IH]; intros a c; cbn [fold_left forallb].
  - rewrite andb_true_r. reflexivity.
  - rewrite IH, np_maximum_ltb, andb_assoc. reflexivity.
Qed.

Section Converged.

Context {calc : Calculator} {cons : ConstraintsAPI} {libm : Libm}.

(** X18.  [converged(fmax, maxres)] on a [CartPES] returns [True]
    exactly when the squared force on every atom is below [fmax**2] and
    the norm of the constraint residual is below [maxres]: the maximum
    over the atoms is below the bound exactly when every entry is, and a
    NaN force is below nothing.  With no atom there is no maximum and
    the call raises ValueError. *)
Theorem converged_iff_every_atom_is_below_fmax (fmax maxres : float)
    (s : PES) :
  (forall (b : bool) (s' : PES),
      CartPES.converged fmax maxres s = (Ok b, s') ->
      exists F : geometry,
        CartPES.forces s = (Ok F, s')
        /\ F <> []
        /\ b = forallb (fun q => q <? pow fmax 2) (CartPES.row_norms2 F)
               && (norm (CartPES.res s') <? maxres))
  /\ (forall s' : PES,
        CartPES.forces s = (Ok [], s') ->
        exists msg,
          CartPES.converged fmax maxres s = (Raise (ValueError msg), s')).
Proof.
  split.
  - intros b s' H. unfold CartPES.converged in H.
    apply bind_Ok in H. destruct H as (F & s1 & EF & H).
    exists F. destruct F as [| q F].
    + discriminate H.
    + cbn [np_max CartPES.row_norms2 map] in H.
      rewrite fold_maximum_ltb in H.
      cbn [CartPES.row_norms2 map forallb].
      match type of H with
      | (if ?c then _ else _) _ = _ => destruct c
      end.
      * unfold bind, get, ret in H. inversion H; subst.
        split; [exact EF |]. split; [discriminate | reflexivity].
      * unfold ret in H. inversion H; subst.
        split; [exact EF |]. split; [discriminate | reflexivity].
  - intros s' EF. unfold CartPES.converged. rewrite (bind_run _ _ _ EF).
    eexists. reflexivity.
Qed.

End Converged.

(** ** [kick] *)

Section Kick.

Context {calc : Calculator} {lapack : Lapack}
        {kernels : hessian_update.Kernels} {cons : ConstraintsAPI}
        {linalg : Pinv} {solver : Eigensolver}.

Lemma dx_leaves_the_object (pos0 : geometry) (s s' : PES) (r : result vec) :
  CartPES.dx pos0 s = (r, s') -> s' = s.
Proof.
  intros H. unfold CartPES.dx, BasePES.dx in H.
  cbn [v_x CartPES.variant] in H. unfold CartPES.x in H.
  unfold bind at 1 in H. unfold gets at 1 in H.
  unfold bind at 1 in H. unfold gets at 1 in H.
  unfold bind at 1 in H.
  destruct (assign_positions pos0 s) as [[u | e] t] eqn:Ea.
  - pose proof (assign_positions_cases _ _ Ea) as (A1 & A2 & _).
    unfold bind at 1 in H. unfold gets at 1 in H.
    unfold bind at 1 in H.
    assert (Hback : assign_positions (positions s) t = (Ok tt, s)).
    { unfold assign_positions. rewrite A1, Nat.eqb_refl.
      f_equal. destruct t, s.
      unfold apart_from_positions, outside_records in A2.
      cbn in A2 |- *. inversion A2; subst. reflexivity. }
    rewrite Hback in H. unfold ret in H. inversion H. reflexivity.
  - pose proof (assign_positions_cases _ _ Ea) as (_ & _ & _ & A4).
    inversion H; subst. apply A4. discriminate.
Qed.

Lemma set_xfree_keeps (P : PES -> Prop) (target : vec) :
  (forall s s', P s -> length (positions s') = length (positions s) ->
                apart_from_positions s' = apart_from_positions s -> P s') ->
  keeps P (CartPES.set_xfree target).
Proof.
  intros HP. unfold CartPES.set_xfree. keeps_step; [keeps_step |].
  destruct (pinv (transpose (CartPES.drdx a))) as [Pi | e]; [| keeps_step].
  unfold CartPES.xfree, CartPES.x. repeat keeps_step.
  apply set_x_keeps. exact HP.
Qed.

(** On an object with a record at its geometry, [update_H] evaluates
    nothing and touches only the Hessian. *)
Lemma update_H_not_stale (p p' : PES) :
  stale p = false -> CartPES.update_H p = (Ok tt, p') ->
  positions p' = positions p /\ last p' = last p /\ neval p' = neval p.
Proof.
  intros St H. unfold CartPES.update_H in H.
  unfold bind at 1 in H. unfold get at 1 in H.
  destruct (r_x (lastlast p)) as [llx |].
  - unfold bind at 1 in H. unfold CartPES.x at 1, gets in H.
    apply bind_Ok in H. destruct H as (g1 & p1 & Eg & H).
    pose proof (read_Ok r_g CartPES.g g_unfold _ Eg) as (_ & _ & _ & G).
    destruct G as [[_ ->] | [St' _]]; [| congruence].
    unfold bind at 1 in H. unfold get at 1 in H.
    apply bind_Ok in H. destruct H as (llg & t & Et & H).
    apply some_or_Ok in Et. destruct Et as [_ ->].
    pose proof (set_H_stores
                  (hessian_update.update_H (_H p)
                     (as_column (vsub (ravel (positions p)) llx))
                     (as_column (vsub g1 llg))) p) as (_ & S1 & _ & S2 & S3).
    rewrite H in S1, S2, S3. cbn [snd] in S1, S2, S3.
    repeat split; assumption.
  - unfold ret in H. inversion H; subst. repeat split.
Qed.

(** After a read that returned, the object has a record at its
    geometry, if no coordinate is NaN. *)
Lemma read_leaves_a_record {A} (field : record -> option A) (m : M PES A) :
  (forall s, m s = match CartPES._update s with
                   | (Ok _, s') => some_or TypeError (field (last s')) s'
                   | (Raise e, s') => (Raise e, s')
                   end) ->
  forall (s s1 : PES) (a : A),
    m s = (Ok a, s1) ->
    existsb is_nan (ravel (positions s)) = false ->
    stale s1 = false /\ positions s1 = positions s
    /\ (neval s1 <= neval s + 1)%nat
    /\ (stale s = false -> s1 = s).
Proof.
  intros Hm s s1 a E Hn.
  pose proof (read_Ok field m Hm _ E) as (_ & G2 & _ & G).
  destruct G as [[St ->] | (St & Gn & _ & Gx & _)].
  - repeat split; try assumption; lia.
  - split.
    + apply (@fresh_record_is_not_stale s1 _ Gx); rewrite G2;
        [left; reflexivity | exact Hn].
    + split; [exact G2 |]. split; [lia |]. intros St'. congruence.
Qed.

(** X19.  When [kick] returns, it returns the energy and the free
    gradient of the new point together with a ratio that is [None]
    exactly when the object had no Hessian when [kick] was called (the
    two tests of [H] agree, so the predicted change is never read
    unbound); the free gradient returned is the one of the last
    record.  Without diagonalization, and with no NaN among the
    coordinates before and after, a kick costs at most two
    evaluations. *)
Theorem kick_has_a_ratio_iff_it_had_a_Hessian (dxfree : vec)
    (diag_kwargs : option (float * bool * option nat)) (s s' : PES)
    (o : or_raised (float * vec * option float)) :
  CartPES.kick dxfree diag_kwargs s = (Ok o, s') ->
  exists (f2 : float) (gf : vec) (ratio : option float),
    o = Returned (f2, gf, ratio)
    /\ (ratio = None <-> _H s = None)
    /\ r_gfree (last s') = Some gf
    /\ (diag_kwargs = None ->
        existsb is_nan (ravel (positions s)) = false ->
        existsb is_nan (ravel (positions s')) = false ->
        (neval s' <= neval s + 2)%nat).
Proof.
  intros H.
  set (P := fun t : PES => _H t = _H s).
  assert (HU : keeps P CartPES._update).
  { apply update_keeps. intros t t' Ht _ _ _ _ _ _ Ho.
    unfold P, outside_records in *. congruence. }
  destruct (reads_keep HU) as (Hf & Hg & _).
  assert (HA : forall t t' : PES,
             P t -> length (positions t') = length (positions t) ->
             apart_from_positions t' = apart_from_positions t -> P t').
  { intros t t' Ht _ Ha.
    unfold P, apart_from_positions, outside_records in *. congruence. }
  unfold CartPES.kick in H.
  apply bind_Ok in H. destruct H as (pos0 & t0 & E0 & H).
  apply gets_Ok in E0. destruct E0 as [-> ->].
  apply bind_Ok in H. destruct H as (f0 & ta & Ea & H).
  pose proof (Hf _ _ _ (eq_refl : P s) Ea) as Pa.
  apply bind_Ok in H. destruct H as (g0 & tb & Eb & H).
  pose proof (Hg _ _ _ Pa Eb) as Pb.
  apply bind_Ok in H. destruct H as (xf & tc & Ec & H).
  assert (Ecb : tc = tb).
  { unfold CartPES.xfree, bind, get, ret in Ec. inversion Ec. reflexivity. }
  subst tc.
  apply bind_Ok in H. destruct H as (u & td & Ed & H).
  assert (Pd : P td /\ neval td = neval tb).
  { refine (@keeps_apply _ _ (fun t => P t /\ neval t = neval tb) _
              tb td (Ok u) _ (conj Pb eq_refl) Ed).
    apply set_xfree_keeps. intros t t' [Ht Hn] Hl Ha. split.
    - exact (HA t t' Ht Hl Ha).
    - unfold apart_from_positions in Ha. congruence. }
  destruct Pd as [Pd Nd].
  apply bind_Ok in H. destruct H as (d & te & Ee & H).
  pose proof (dx_leaves_the_object _ _ Ee) as ->.
  apply bind_Ok in H. destruct H as (s1 & tf & Ef & H).
  apply get_Ok in Ef. destruct Ef as [-> ->].
  apply bind_Ok in H. destruct H as (f1 & tg & Eg & H).
  pose proof (Hf _ _ _ Pd Eg) as Pg.
  apply bind_Ok in H. destruct H as (s2 & th & Eh & H).
  apply get_Ok in Eh. destruct Eh as [-> ->].
  unfold P in Pd, Pg. rewrite Pd, Pg in H.
  assert (Htail :
    forall ratio : option float,
      (CartPES.update_H ;;;
       match diag_kwargs with
       | Some (gamma, threepoint, maxiter) =>
           CartPES.diag gamma threepoint maxiter
       | None => ret tt
       end ;;;
       f2 <- CartPES.f ;;
       gf <- CartPES.gfree ;;
       ret (Returned (f2, gf, ratio))) tg = (Ok o, s') ->
      exists f2 gf,
        o = Returned (f2, gf, ratio)
        /\ r_gfree (last s') = Some gf
        /\ (diag_kwargs = None ->
            existsb is_nan (ravel (positions s)) = false ->
            existsb is_nan (ravel (positions s')) = false ->
            (neval s' <= neval s + 2)%nat)).
  { intros ratio T.
    apply bind_Ok in T. destruct T as (u1 & ti & Ei & T).
    apply bind_Ok in T. destruct T as (u2 & tj & Ej & T).
    apply bind_Ok in T. destruct T as (f2 & tk & Ek & T).
    apply bind_Ok in T. destruct T as (gf & tl & El & T).
    unfold ret in T. inversion T; subst o s'. clear T.
    exists f2, gf. split; [reflexivity |].
    pose proof (read_Ok r_gfree CartPES.gfree gfree_unfold _ El)
      as (L1 & L2 & _ & _).
    split; [exact L1 |].
    intros -> Hs Hs'. unfold ret in Ej. inversion Ej; subst tj. clear Ej.
    destruct u1.
    pose proof (read_Ok r_f CartPES.f f_unfold _ Ek) as (_ & K2 & _ & _).
    assert (Hpi : positions ti = positions tg).
    { refine (@keeps_apply _ _ (fun t => positions t = positions tg) _
                tg ti (Ok tt) _ eq_refl Ei).
      apply update_H_keeps; [| intros; assumption].
      apply reads_keep. apply update_keeps. intros; congruence. }
    pose proof (read_Ok r_f CartPES.f f_unfold _ Eg) as (_ & Gp & _ & _).
    assert (Hnd : existsb is_nan (ravel (positions td)) = false)
      by congruence.
    destruct (read_leaves_a_record r_f CartPES.f f_unfold _ Ea Hs)
      as (Sa & Pa' & Na & _).
    assert (Hna : existsb is_nan (ravel (positions ta)) = false)
      by congruence.
    destruct (read_leaves_a_record r_g CartPES.g g_unfold _ Eb Hna)
      as (_ & _ & _ & Bsame).
    pose proof (Bsame Sa) as ->.
    destruct (read_leaves_a_record r_f CartPES.f f_unfold _ Eg Hnd)
      as (Sg & _ & Ng & _).
    destruct (@update_H_not_stale tg ti Sg Ei) as (I1 & I2 & I3).
    assert (Si : stale ti = false).
    { unfold stale in *. rewrite I1, I2. exact Sg. }
    assert (Hni : existsb is_nan (ravel (positions ti)) = false)
      by congruence.
    destruct (read_leaves_a_record r_f CartPES.f f_unfold _ Ek Hni)
      as (_ & _ & _ & Ksame).
    pose proof (Ksame Si) as ->.
    destruct (read_leaves_a_record r_gfree CartPES.gfree gfree_unfold _ El
                Hni) as (_ & _ & _ & Lsame).
    pose proof (Lsame Si) as ->.
    lia. }
  destruct (_H s) as [H0 |] eqn:EH; cbn [option_map] in H.
  - destruct (Htail _ H) as (f2 & gf & Eo & W1 & W2).
    do 3 eexists. split; [exact Eo |].
    split; [split; discriminate |]. split; assumption.
  - destruct (Htail _ H) as (f2 & gf & Eo & W1 & W2).
    do 3 eexists. split; [exact Eo |].
    split; [split; reflexivity |]. split; assumption.
Qed.

End Kick.

(** ** [converged] of the IRC *)

Lemma positive_above_the_least (l0 : float) (rest : vec) :
  (0 <? l0) = true -> ascending (l0 :: rest) ->
  Forall (fun a => (0 <? a) = true) rest.
Proof.
  intros H0 Hasc. unfold ascending in Hasc. inversion Hasc; subst.
  match goal with
  | H : Forall _ rest |- _ =>
      revert H; apply Forall_impl; intros a Ha;
      exact (@ltb_leb_trans 0 l0 a H0 Ha)
  end.
Qed.

Section IRCConverged.

Context {ase : irc.AseConverged}.

(** X20.  [IRC.converged] returns [False] without looking at the
    eigenvalues when the test of the optimizer fails, and returns [True]
    only if the first of [pes.lams] is positive, so that, the
    eigenvalues being in ascending order, every eigenvalue of the
    reduced Hessian is positive: the run cannot be reported converged at
    a saddle point.  When the test of the optimizer holds, an empty
    [lams] is an IndexError and a missing one a TypeError. *)
Theorem IRC_converges_only_with_positive_curvature
    (forces : option geometry) (s s' : irc.IRC) (r : result (or_raised bool)) :
  irc.IRC_converged forces s = (r, s') ->
  (irc.Optimizer_converged forces s = (Ok false, s') ->
   r = Ok (Returned false))
  /\ (r = Ok (Returned true) ->
      irc.Optimizer_converged forces s = (Ok true, s')
      /\ exists (l0 : float) (rest : vec),
           lams (irc.pes s') = Some (l0 :: rest)
           /\ (0 <? l0) = true
           /\ (ascending (l0 :: rest) ->
               Forall (fun a => (0 <? a) = true) (l0 :: rest)))
  /\ (irc.Optimizer_converged forces s = (Ok true, s') ->
      (lams (irc.pes s') = Some [] -> r = Ok IndexError)
      /\ (lams (irc.pes s') = None -> r = Raise TypeError)).
Proof.
  intros H. unfold irc.IRC_converged, bind in H.
  destruct (irc.Optimizer_converged forces s) as [[[|] | e] t] eqn:E.
  - unfold get in H.
    destruct (lams (irc.pes t)) as [[| l0 rest] |] eqn:El;
      inversion H; subst r s'; clear H.
    + split; [discriminate |]. split; [discriminate |].
      intros _. split; [reflexivity | rewrite El; discriminate].
    + split; [discriminate |]. split.
      * intros Hr. injection Hr as Hl. split; [reflexivity |].
        exists l0, rest. split; [exact El |]. split; [exact Hl |].
        intros Hasc. constructor; [exact Hl |].
        exact (positive_above_the_least Hl Hasc).
      * intros _. rewrite El. split; discriminate.
    + split; [discriminate |]. split; [discriminate |].
      intros _. split; [rewrite El; discriminate | reflexivity].
  - inversion H; subst r s'. split; [reflexivity |].
    split; [discriminate | discriminate].
  - inversion H; subst r s'. split; [discriminate |].
    split; [discriminate | discriminate].
Qed.

End IRCConverged.

(** X19 at the saddle point, kicked by 0.1 along the free direction
    before any Hessian exists. *)
Lemma kick_witness :
  CartPES.kick (calc := Toy.calc) (lapack := Toy.lapack)
    (kernels := Toy.kernels) (cons := Toy.cons) (linalg := Toy.linalg)
    (solver := Toy.solver) [0.1] None Toy.origin
  = (Ok (Returned (-0.0049750000000000011, [-0.099000000000000005], None)),
     Toy.kicked)
  /\ _H Toy.origin = None
  /\ r_gfree (last Toy.kicked) = Some [-0.099000000000000005].
Proof.
  assert (H1 : CartPES.kick (calc := Toy.calc) (lapack := Toy.lapack)
                 (kernels := Toy.kernels) (cons := Toy.cons)
                 (linalg := Toy.linalg) (solver := Toy.solver) [0.1] None
                 Toy.origin
               = (Ok (Returned (-0.0049750000000000011,
                                [-0.099000000000000005], None)),
                  Toy.kicked))
    by (vm_compute; reflexivity).
  split; [exact H1 | split; [reflexivity |]].
  destruct (@kick_has_a_ratio_iff_it_had_a_Hessian Toy.calc Toy.lapack
              Toy.kernels Toy.cons Toy.linalg Toy.solver [0.1] None
              Toy.origin Toy.kicked _ H1)
    as (f2 & gf & ratio & Eo & _ & W & _).
  injection Eo as _ Eg _. rewrite Eg. exact W.
Defined.

(** X20 on a surface of curvature 1, with the force test passed. *)
Lemma IRC_converged_witness :
  irc.IRC_converged (ase := Toy.forces_converged) None Toy.at_minimum
  = (Ok (Returned true), Toy.at_minimum)
  /\ exists (l0 : float) (rest : vec),
       lams (irc.pes Toy.at_minimum) = Some (l0 :: rest)
       /\ (0 <? l0) = true.
Proof.
  assert (H1 : irc.IRC_converged (ase := Toy.forces_converged) None
                 Toy.at_minimum
               = (Ok (Returned true), Toy.at_minimum))
    by (vm_compute; reflexivity).
  split; [exact H1 |].
  destruct (proj1 (proj2 (@IRC_converges_only_with_positive_curvature
                            Toy.forces_converged None Toy.at_minimum
                            Toy.at_minimum _ H1)) eq_refl)
    as (_ & l0 & rest & W1 & W2 & _).
  exists l0, rest. split; [exact W1 | exact W2].
Defined.
